(** * pygsp.graphs.Graph: structural engine and spring layout

    A shallow embedding of [pygsp/graphs/graph.py]: the weight matrix and
    the attributes derived from it, directedness, connectivity, component
    extraction, the Laplacian, the edge list and the Fruchterman-Reingold
    layout with its final rescaling.

    Numbers are IEEE-754 binary64 values, as the class documents its weight
    matrix ("an N-by-N matrix of floats") and as numpy computes the layout.
    They are modelled by the executable specification of the Standard
    Library ([spec_float] at precision 53 and maximal exponent 1024), so
    that rounding, infinities and NaN behave as they do in the program. *)

From Stdlib Require Import ZArith Bool Lia.
From Stdlib Require Import Floats.SpecFloat.
From stdpp Require Import base gmap sets list strings sorting.

Set Default Proof Using "Type".

(** ** binary64 *)

Module F64.

Definition prec : Z := 53%Z.
Definition emax : Z := 1024%Z.

Definition t : Type := spec_float.

Definition add : t -> t -> t := SFadd prec emax.
Definition sub : t -> t -> t := SFsub prec emax.
Definition mul : t -> t -> t := SFmul prec emax.
Definition div : t -> t -> t := SFdiv prec emax.
Definition sqrt : t -> t := SFsqrt prec emax.
Definition abs : t -> t := SFabs.
Definition eqb : t -> t -> bool := SFeqb.
Definition ltb : t -> t -> bool := SFltb.

  (** [x != y] and [x > y] of numpy and Python. *)
Definition neqb (x y : t) : bool := negb (eqb x y).
Definition gtb (x y : t) : bool := ltb y x.

  (** Conversion of a Python integer, rounding to nearest even. *)
Definition of_Z (z : Z) : t := binary_normalize prec emax z 0%Z false.

Definition zero : t := S754_zero false.
Definition one : t := Eval vm_compute in of_Z 1%Z.
Definition two : t := Eval vm_compute in of_Z 2%Z.

  (** The decimal literals of the source.  Division is correctly rounded,
      so [1/10] is the double nearest to one tenth, which is what the
      literal [0.1] denotes; likewise for the others. *)
Definition half : t := Eval vm_compute in div (of_Z 1%Z) (of_Z 2%Z).
Definition tenth : t := Eval vm_compute in div (of_Z 1%Z) (of_Z 10%Z).
Definition hundredth : t := Eval vm_compute in div (of_Z 1%Z) (of_Z 100%Z).

Definition is_nan (x : t) : bool :=
    match x with S754_nan => true | _ => false end.
Definition is_zero (x : t) : bool :=
    match x with S754_zero _ => true | _ => false end.
  (** [np.isfinite]. *)
Definition is_finite (x : t) : bool :=
    match x with S754_zero _ | S754_finite _ _ _ => true | _ => false end.

  (** A value that the floating-point unit can produce: the mantissa of a
      finite number is canonical and its exponent in range. *)
Definition valid (x : t) : bool := valid_binary prec emax x.

  (** [x ** 2] on an array of doubles is [x * x]. *)
Definition square (x : t) : t := mul x x.

  (** [np.maximum], the reduction step of [ndarray.max]: a NaN wins. *)
Definition maximum (x y : t) : t :=
    if is_nan x then x else if is_nan y then y else if ltb x y then y else x.

  (** The builtin [max(a, b)] of Python: [b] only when [b > a]. *)
Definition py_max (a b : t) : t := if gtb b a then b else a.

  (** Equality of numbers up to the sign of zero. *)
Definition same_number (x y : t) : Prop :=
    x = y \/ (is_zero x = true /\ is_zero y = true).

End F64.

Abbreviation float := F64.t.

(** ** Exceptions and results *)

(** The exceptions the modelled code raises. *)
Inductive exn : Type :=
  | ValueError
  | NotImplementedError
  | IndexError
  | AssertionError
  | OverflowError
  | ZeroDivisionError.

(** The outcome of a call: a value, an exception, or the exhaustion of the
    fuel that bounds the [while] loops of the model. *)
Inductive result (T : Type) : Type :=
  | Ok (x : T)
  | Raise (e : exn)
  | OutOfFuel.
Arguments Ok {T} x.
Arguments Raise {T} e.
Arguments OutOfFuel {T}.

#[global] Instance result_ret : MRet result := fun _ x => Ok x.
#[global] Instance result_bind : MBind result := fun _ _ f r =>
  match r with
  | Ok x => f x
  | Raise e => Raise e
  | OutOfFuel => OutOfFuel
  end.

(** [l[i]] on an array: an index out of range raises [IndexError]. *)
Definition getitem {T : Type} (l : list T) (i : nat) : result T :=
  match l !! i with
  | Some x => Ok x
  | None => Raise IndexError
  end.

(** A comprehension whose body may raise. *)
Fixpoint mapR {T U : Type} (f : T -> result U) (l : list T) : result (list U) :=
  match l with
  | [] => Ok []
  | x :: l' => y ← f x; ys ← mapR f l'; Ok (y :: ys)
  end.

(** ** Matrices *)

(** A matrix is the list of its rows. *)
Abbreviation matrix T := (list (list T)).

Section Dense.
Context {T : Type}.
Implicit Types (M : matrix T) (r : list T).

  (** [M.shape] of a two-dimensional array. *)
Definition shape M : nat * nat :=
    (length M, match M with [] => 0 | r :: _ => length r end).

  (** [rows] rows of [cols] entries each. *)
Definition has_shape (rows cols : nat) M : Prop :=
    length M = rows /\ Forall (fun r => length r = cols) M.

Definition entry M (i j : nat) : option T := M !! i ≫= (.!! j).

  (** [M.T], for a matrix of [cols] columns. *)
Fixpoint transpose_cols (cols : nat) M : matrix T :=
    match M with
    | [] => replicate cols []
    | r :: M' => zip_with cons r (transpose_cols cols M')
    end.
Definition transpose M : matrix T := transpose_cols (shape M).2 M.

  (** Positions, counted from [start], of the entries that satisfy [p]:
      the index array of [nonzero()]. *)
Fixpoint find_indices (p : T -> bool) r (start : nat) : list nat :=
    match r with
    | [] => []
    | x :: r' =>
        if p x then start :: find_indices p r' (S start)
        else find_indices p r' (S start)
    end.

  (** [M[ind, :][:, ind]]. *)
Definition select (ind : list nat) M : result (matrix T) :=
    rows ← mapR (getitem M) ind;
    mapR (fun r => mapR (getitem r) ind) rows.
End Dense.

(** Sums and the matrices built from them, over any carrier with a zero, an
    addition and a subtraction.  The program instantiates it at binary64. *)
Section Numeric.
Context {T : Type} (zero : T) (add sub : T -> T -> T).

  (** A sum accumulates from left to right. *)
Definition sum (l : list T) : T := foldl add zero l.

  (** [M.sum(1)] and [M.sum(0)]. *)
Definition row_sums (M : matrix T) : list T := sum <$> M.
Definition col_sums (M : matrix T) : list T := sum <$> transpose M.

  (** [M.sum()]. *)
Definition total (M : matrix T) : T := sum (row_sums M).

  (** [sparse.diags(v, 0)]. *)
Definition diags (v : list T) : matrix T :=
    imap (fun i x => <[i := x]> (replicate (length v) zero)) v.

Definition madd (X Y : matrix T) : matrix T := zip_with (zip_with add) X Y.
Definition msub (X Y : matrix T) : matrix T := zip_with (zip_with sub) X Y.

  (** [D - W] with [D] the diagonal of the row sums. *)
Definition laplacian_rowsum (W : matrix T) : matrix T :=
    msub (diags (row_sums W)) W.
End Numeric.

Abbreviation fsum := (sum F64.zero F64.add).
Abbreviation frow_sums := (row_sums F64.zero F64.add).
Abbreviation fcol_sums := (col_sums F64.zero F64.add).
Abbreviation ftotal := (total F64.zero F64.add).
Abbreviation fdiags := (diags F64.zero).
Abbreviation fmadd := (madd F64.add).
Abbreviation fmsub := (msub F64.sub).

(** [c * M]. *)
Definition mscale (c : float) (M : matrix float) : matrix float :=
  map (map (F64.mul c)) M.

(** [W.nnz]: the entries a sparse matrix stores are those different from 0. *)
Definition nnz (W : matrix float) : nat :=
  sum_list ((fun r => length (find_indices (fun w => F64.neqb w F64.zero) r 0)) <$> W).

(** ** The graph object *)

(** The attributes of a [Graph] that the modelled methods read or write.
    An attribute that [hasattr] may find missing is an option.  The logger
    and the plotting parameters play no part in what is computed. *)
Record Graph : Type := {
  N : nat;
  W : matrix float;
  A : matrix bool;
  Ne : nat;
  d : list nat;
  gtype : string;
  lap_type : option string;
  L : option (matrix float);
  coords : option (matrix float);
  _directed : option bool;
  _connected : option bool;
  info_orig_idx : option (list nat)
}.

Definition set_directed (b : bool) (self : Graph) : Graph :=
  {| N := N self; W := W self; A := A self; Ne := Ne self; d := d self;
     gtype := gtype self; lap_type := lap_type self; L := L self;
     coords := coords self; _directed := Some b;
     _connected := _connected self; info_orig_idx := info_orig_idx self |}.

Definition set_connected (b : bool) (self : Graph) : Graph :=
  {| N := N self; W := W self; A := A self; Ne := Ne self; d := d self;
     gtype := gtype self; lap_type := lap_type self; L := L self;
     coords := coords self; _directed := _directed self;
     _connected := Some b; info_orig_idx := info_orig_idx self |}.

Definition set_lap_type (k : string) (self : Graph) : Graph :=
  {| N := N self; W := W self; A := A self; Ne := Ne self; d := d self;
     gtype := gtype self; lap_type := Some k; L := L self;
     coords := coords self; _directed := _directed self;
     _connected := _connected self; info_orig_idx := info_orig_idx self |}.

Definition set_L (X : matrix float) (self : Graph) : Graph :=
  {| N := N self; W := W self; A := A self; Ne := Ne self; d := d self;
     gtype := gtype self; lap_type := lap_type self; L := Some X;
     coords := coords self; _directed := _directed self;
     _connected := _connected self; info_orig_idx := info_orig_idx self |}.

Definition set_coords (X : matrix float) (self : Graph) : Graph :=
  {| N := N self; W := W self; A := A self; Ne := Ne self; d := d self;
     gtype := gtype self; lap_type := lap_type self; L := L self;
     coords := Some X; _directed := _directed self;
     _connected := _connected self; info_orig_idx := info_orig_idx self |}.

Definition set_info (comp : list nat) (self : Graph) : Graph :=
  {| N := N self; W := W self; A := A self; Ne := Ne self; d := d self;
     gtype := gtype self; lap_type := lap_type self; L := L self;
     coords := coords self; _directed := _directed self;
     _connected := _connected self; info_orig_idx := Some comp |}.

(** A method reads and updates [self]; what it has assigned before raising
    stays assigned. *)
Definition method (T : Type) : Type := Graph -> result T * Graph.

#[global] Instance method_ret : MRet method := fun _ x self => (Ok x, self).
#[global] Instance method_bind : MBind method := fun _ _ f m self =>
  match m self with
  | (Ok x, self') => f x self'
  | (Raise e, self') => (Raise e, self')
  | (OutOfFuel, self') => (OutOfFuel, self')
  end.

Definition raise {T : Type} (e : exn) : method T := fun self => (Raise e, self).
Definition get {T : Type} (f : Graph -> T) : method T := fun self => (Ok (f self), self).
Definition modify (f : Graph -> Graph) : method unit := fun self => (Ok tt, f self).
Definition lift {T : Type} (r : result T) : method T :=
  fun self =>
    (match r with Ok x => Ok x | Raise e => Raise e | OutOfFuel => OutOfFuel end, self).

(** ** Sets of node indices *)

(** [set.pop()] removes and returns an arbitrary element.  Which one is
    decided by a stream of numbers [choice]: the pop number [clock] takes the
    element at position [choice clock] (modulo the size) of the set's
    enumeration.  Every behaviour of [pop] along a run is the behaviour
    under some stream. *)
Definition set_pop (choice : nat -> nat) (clock : nat) (s : gset nat)
  : option (nat * gset nat) :=
  match elements s with
  | [] => None
  | x :: l =>
      let v := nth (choice clock `mod` length (x :: l)) (x :: l) x in
      Some (v, s ∖ {[ v ]})
  end.

(** The indices in [adj[v, :].nonzero()[1]] that are not visited yet. *)
Definition unvisited_neighbours (adj : matrix bool) (v : nat) (visited : list bool)
  : result (list nat) :=
  row ← getitem adj v;
  keep ← mapR (fun idx => b ← getitem visited idx; Ok (negb b))
              (find_indices id row 0);
  Ok (fst <$> filter (fun p => p.2 = true) (zip (find_indices id row 0) keep)).

(** The fuel given to a traversal of a graph of [n] nodes. *)
Definition traversal_fuel (n : nat) : nat := S ((n + 1) * (n + 1)).

(** ** The methods *)

Section Methods.

(** The element each [set.pop()] takes (see [set_pop]). *)
Variable choice : nat -> nat.

(** [np.power] on doubles, a function of the C library that the repository
    only calls. *)
Variable np_power : float -> float -> float.

(** The successive draws of the random generator. *)
Variable rand : nat -> float.

(** [np.random.random(shape)] and [np.random.uniform(size=shape)]: an array
    of the given shape filled, row after row, with the draws. *)
Definition random_uniform (rows cols : nat) : matrix float :=
  (fun i => (fun j => rand (i * cols + j)) <$> seq 0 cols) <$> seq 0 rows.

(** [hasattr(self, attr) and not recompute]: the cached value to return. *)
Definition cached {T : Type} (attr : option T) (recompute : bool) : option T :=
  if recompute then None else attr.

(** [Graph.is_directed]: the weight matrix is not symmetric. *)
Definition is_directed (recompute : bool) : method bool := fun self =>
  match cached (_directed self) recompute with
  | Some b => (Ok b, self)
  | None =>
      if negb ((shape (W self)).2 =? (shape (W self)).1) then (Raise ValueError, self)
      else
        let b := F64.neqb (ftotal (map (map F64.abs) (fmsub (W self) (transpose (W self))))) F64.zero in
        (Ok b, set_directed b self)
  end.

(** The inner [while len(stack)] loop of [is_connected]. *)
Fixpoint connected_loop (fuel : nat) (adj : matrix bool) (clock : nat)
    (visited : list bool) (stack : gset nat) : result (list bool * nat) :=
  match fuel with
  | O => OutOfFuel
  | S fuel' =>
      match set_pop choice clock stack with
      | None => Ok (visited, clock)
      | Some (v, stack') =>
          b ← getitem visited v;
          if negb b then
            let visited' := <[v := true]> visited in
            new ← unvisited_neighbours adj v visited';
            connected_loop fuel' adj (S clock) visited' (stack' ∪ list_to_set new)
          else connected_loop fuel' adj (S clock) visited stack'
      end
  end.

(** The [for adj_matrix in adj_matrices] loop of [is_connected]: [Ok false]
    is the early [return] of a traversal that misses a node. *)
Fixpoint connected_for (n : nat) (adj_matrices : list (matrix bool)) (clock : nat)
  : result bool :=
  match adj_matrices with
  | [] => Ok true
  | adj :: rest =>
      '(visited, clock') ← connected_loop (traversal_fuel n) adj clock (replicate n false) {[ 0 ]};
      if negb (forallb id visited) then Ok false
      else connected_for n rest clock'
  end.

(** [Graph.is_connected]. *)
Definition is_connected (recompute : bool) : method bool := fun self =>
  match cached (_connected self) recompute with
  | Some b => (Ok b, self)
  | None =>
      if negb ((shape (A self)).1 =? (shape (A self)).2)
      then (Ok false, set_connected false self)
      else
        (dir ← is_directed recompute;
         r ← lift (connected_for (shape (A self)).1
                     (if dir : bool then [A self; transpose (A self)] else [A self]) 0);
         _ ← modify (set_connected r);
         mret r) self
  end.

(** [Graph.compute_laplacian]. *)
Definition compute_laplacian (kind : string) : method unit :=
  if negb (bool_decide (kind ∈ ["combinatorial"; "normalized"]))
  then raise ValueError
  else
    _ ← modify (set_lap_type kind);
    dir ← is_directed false;
    w ← get W;
    n ← get N;
    if dir : bool then
      if bool_decide (kind = "combinatorial") then
        let D1 := fdiags (fcol_sums w) in
        let D2 := fdiags (frow_sums w) in
        modify (set_L (mscale F64.half (fmsub (fmsub (fmadd D1 D2) w) (transpose w))))
      else raise NotImplementedError
    else
      if bool_decide (kind = "combinatorial") then
        modify (set_L (laplacian_rowsum F64.zero F64.add F64.sub w))
      else
        (* sparse products only multiply the entries that are stored *)
        let stored x := F64.neqb x F64.zero in
        let dd := (fun x => np_power x (F64.div (F64.of_Z (-1)) (F64.of_Z 2))) <$> frow_sums w in
        let DWD :=
          imap (fun i row =>
            imap (fun j x =>
              let di := default F64.zero (dd !! i) in
              let dj := default F64.zero (dd !! j) in
              if stored di && stored x && stored dj
              then F64.mul (F64.mul di x) dj else F64.zero) row) w in
        modify (set_L (fmsub (fdiags (replicate n F64.one)) DWD)).

(** [Graph.__init__], with the defaults spelled out by the caller.  The
    degree [d] is [squeeze]d: for a single node nothing of its shape is
    left, and the assertion on [d.ndim] fails. *)
Definition __init__ (w : matrix float) (gtype : string) (lap_type : string)
    (coords : option (matrix float)) (perform_checks : bool) : result Graph :=
  if negb ((shape w).1 =? (shape w).2) then Raise ValueError
  else
    let a := map (map (fun x => F64.gtb x F64.zero)) w in
    let deg := (fun r => length (find_indices id r 0)) <$> a in
    if (shape w).1 =? 1 then Raise AssertionError
    else
      let self :=
        {| N := (shape w).1; W := w; A := a; Ne := nnz w; d := deg;
           gtype := gtype; lap_type := None; L := None; coords := coords;
           _directed := None; _connected := None; info_orig_idx := None |} in
      match compute_laplacian lap_type self with
      | (Ok _, self) =>
          if perform_checks then
            match is_connected false self with
            | (Ok _, self) => Ok self
            | (Raise e, _) => Raise e
            | (OutOfFuel, _) => OutOfFuel
            end
          else Ok self
      | (Raise e, _) => Raise e
      | (OutOfFuel, _) => OutOfFuel
      end.

(** [Graph.subgraph], for a list of indices. *)
Definition subgraph (ind : list nat) (self : Graph) : result Graph :=
  sub_W ← select ind (W self);
  __init__ sub_W ("sub-" +:+ gtype self) "combinatorial" None true.

(** The inner [while len(stack)] loop of [extract_components]. *)
Fixpoint component_loop (fuel : nat) (adj : matrix bool) (clock : nat)
    (visited : list bool) (stack : gset nat) (comp : list nat)
  : result (list bool * list nat * nat) :=
  match fuel with
  | O => OutOfFuel
  | S fuel' =>
      match set_pop choice clock stack with
      | None => Ok (visited, comp, clock)
      | Some (v, stack') =>
          b ← getitem visited v;
          if negb b then
            let visited' := <[v := true]> visited in
            new ← unvisited_neighbours adj v visited';
            component_loop fuel' adj (S clock) visited' (stack' ∪ list_to_set new) (comp ++ [v])
          else component_loop fuel' adj (S clock) visited stack' comp
      end
  end.

(** The outer [while not visited.all()] loop of [extract_components]. *)
Fixpoint components_while (fuel : nat) (self : Graph) (clock : nat)
    (visited : list bool) (graphs : list Graph) : result (list Graph) :=
  match fuel with
  | O => OutOfFuel
  | S fuel' =>
      if forallb id visited then Ok graphs
      else
        let stack : gset nat := list_to_set (find_indices negb visited 0) in
        '(visited', comp, clock') ←
          component_loop (traversal_fuel (length visited)) (A self) clock visited stack [];
        let comp := merge_sort le comp in
        G ← subgraph comp self;
        components_while fuel' self clock' visited' (graphs ++ [set_info comp G])
  end.

(** [Graph.extract_components]; [None] is the [return None] of the shape
    check. *)
Definition extract_components : method (option (list Graph)) := fun self =>
  if negb ((shape (A self)).1 =? (shape (A self)).2) then (Ok None, self)
  else
    (dir ← is_directed false;
     if dir : bool then raise NotImplementedError
     else
       graphs ← lift (components_while (S (shape (A self)).1) self 0
                        (replicate (shape (A self)).1 false) []);
       mret (Some graphs)) self.

(** [sparse.tril(W).nonzero()]: the stored entries on or below the diagonal,
    row after row. *)
Definition tril_nonzero (w : matrix float) : list (nat * nat) :=
  concat (imap (fun i row =>
    pair i <$> find_indices (fun x => F64.neqb x F64.zero) (take (S i) row) 0) w).

(** [Graph.get_edge_list]. *)
Definition get_edge_list : method (list nat * list nat * list float) :=
  dir ← is_directed false;
  if dir : bool then raise NotImplementedError
  else
    w ← get W;
    ne ← get Ne;
    let edges := tril_nonzero w in
    let v_in := fst <$> edges in
    let v_out := snd <$> edges in
    weights ← lift (mapR (fun e => row ← getitem w e.1; getitem row e.2) edges);
    if negb ((length v_in =? length v_out) && (length v_out =? length weights))
    then raise AssertionError
    else if negb (length v_in <=? ne) then raise AssertionError
    else mret (v_in, v_out, weights).

(** ** The spring layout *)

(** [ndarray.sum] and [ndarray.max] along one axis.  The reduction starts
    from the first element and proceeds in order; the maximum of an empty
    array raises. *)
Definition np_sum (l : list float) : float :=
  match l with
  | [] => F64.zero
  | x :: l' => foldl F64.add x l'
  end.

Definition np_max (l : list float) : result float :=
  match l with
  | [] => Raise ValueError
  | x :: l' => Ok (foldl F64.maximum x l')
  end.

(** [float(n)] of a Python integer. *)
Definition py_float (n : Z) : result float :=
  if F64.is_finite (F64.of_Z n) then Ok (F64.of_Z n) else Raise OverflowError.

(** The force on node [i]: the right-hand side of
    [displacement[:, i] += ...], one value per axis. *)
Definition node_force (dim nnodes : nat) (Ai : list bool) (k : float)
    (pos : matrix float) (pos_i : list float) : list float :=
  let delta := transpose_cols dim ((fun p => zip_with F64.sub pos_i p) <$> pos) in
  let distance :=
    (fun col => F64.sqrt (np_sum (F64.square <$> col)))
      <$> transpose_cols nnodes delta in
  let distance :=
    (fun x => if F64.ltb x F64.hundredth then F64.hundredth else x) <$> distance in
  let coef :=
    zip_with (fun (a : bool) x =>
      F64.sub (F64.div (F64.mul k k) (F64.square x))
              (F64.div (F64.mul (if a then F64.one else F64.zero) x) k))
      Ai distance in
  (fun row => np_sum (zip_with F64.mul row coef)) <$> delta.

(** The loop over the rows, [for i in range(nnodes)]. *)
Fixpoint fr_rows (dim nnodes : nat) (adj : matrix bool) (k : float)
    (fixed : list nat) (pos : matrix float) (rows : list nat)
    (displacement : matrix float) : result (matrix float) :=
  match rows with
  | [] => Ok displacement
  | i :: rows' =>
      if bool_decide (i ∈ fixed) then
        fr_rows dim nnodes adj k fixed pos rows' displacement
      else
        pos_i ← getitem pos i;
        Ai ← getitem adj i;
        let force := node_force dim nnodes Ai k pos pos_i in
        let displacement' :=
          zip_with (fun row f => alter (fun x => F64.add x f) i row) displacement force in
        fr_rows dim nnodes adj k fixed pos rows' displacement'
  end.

(** The loop [for iteration in range(iterations)]. *)
Fixpoint fr_iterate (iterations : nat) (dim nnodes : nat) (adj : matrix bool)
    (k : float) (fixed : list nat) (dt : float)
    (pos displacement : matrix float) (t : float) : result (matrix float) :=
  match iterations with
  | O => Ok pos
  | S iterations' =>
      let displacement := map (map (fun x => F64.mul x F64.zero)) displacement in
      displacement ← fr_rows dim nnodes adj k fixed pos (seq 0 nnodes) displacement;
      let length :=
        (fun col => F64.sqrt (np_sum (F64.square <$> col)))
          <$> transpose_cols nnodes displacement in
      let length :=
        (fun x => if F64.ltb x F64.hundredth then F64.tenth else x) <$> length in
      let step :=
        transpose_cols nnodes
          ((fun row => zip_with (fun x l => F64.div (F64.mul x t) l) row length)
             <$> displacement) in
      let pos := zip_with (zip_with F64.add) pos step in
      fr_iterate iterations' dim nnodes adj k fixed dt pos displacement (F64.sub t dt)
  end.

(** [_sparse_fruchterman_reingold]. *)
Definition _sparse_fruchterman_reingold (adj : matrix bool) (dim : nat)
    (k : option float) (pos : option (matrix float)) (fixed : list nat)
    (iterations : nat) : result (matrix float) :=
  let nnodes := (shape adj).1 in
  let pos := match pos with Some p => p | None => random_uniform nnodes dim end in
  k ← match k with
      | Some k => Ok k
      | None =>
          if nnodes =? 0 then Raise ZeroDivisionError
          else Ok (F64.sqrt (F64.div F64.one (F64.of_Z (Z.of_nat nnodes))))
      end;
  let t := F64.tenth in
  n ← py_float (Z.of_nat iterations + 1);
  let dt := F64.div t n in
  let displacement := replicate dim (replicate nnodes F64.zero) in
  fr_iterate iterations dim nnodes adj k fixed dt pos displacement t.

(** The limit of [_rescale_layout]: the integer 0 it starts from, or a
    double once an axis maximum has replaced it. *)
Inductive limit : Type :=
  | int_zero
  | double (x : float).

(** [max(m, lim)]: the second argument only when it is greater. *)
Definition max_limit (m : float) (lim : limit) : limit :=
  match lim with
  | int_zero => if F64.gtb F64.zero m then int_zero else double m
  | double l => if F64.gtb l m then double l else double m
  end.

(** The first loop of [_rescale_layout] over the axes, on the columns of
    [pos]: centre each axis at its mean and keep the largest maximum. *)
Fixpoint center_axes (columns : matrix float) (lim : limit)
  : result (matrix float * limit) :=
  match columns with
  | [] => Ok ([], lim)
  | col :: columns' =>
      let mean := F64.div (np_sum col) (F64.of_Z (Z.of_nat (length col))) in
      let col := (fun x => F64.sub x mean) <$> col in
      m ← np_max col;
      '(rest, lim') ← center_axes columns' (max_limit m lim);
      Ok (col :: rest, lim')
  end.

(** [_rescale_layout], for an array of [rows] rows and [cols] columns and a
    Python float [scale]. *)
Definition _rescale_layout (rows cols : nat) (pos : matrix float) (scale : float)
  : result (matrix float) :=
  '(columns, lim) ← center_axes (transpose_cols cols pos) int_zero;
  match columns with
  | [] => Ok (transpose_cols rows columns)
  | _ =>
      match lim with
      | int_zero => Raise ZeroDivisionError
      | double l =>
          Ok (transpose_cols rows (map (map (fun x => F64.mul x (F64.div scale l))) columns))
      end
  end.

(** The loop [for i in range(self.N): pos_arr[i] = np.asarray(pos[i])]: a
    row of one entry is broadcast, a row of another wrong length raises. *)
Fixpoint assign_rows (dim : nat) (pos : matrix float) (rows : list nat)
    (pos_arr : matrix float) : result (matrix float) :=
  match rows with
  | [] => Ok pos_arr
  | i :: rows' =>
      row ← getitem pos i;
      if length row =? dim then assign_rows dim pos rows' (<[i := row]> pos_arr)
      else
        match row with
        | [x] => assign_rows dim pos rows' (<[i := replicate dim x]> pos_arr)
        | _ => Raise ValueError
        end
  end.

(** The domain size and the initial array of positions. *)
Definition initial_positions (n dim : nat) (pos : option (matrix float))
    (center : list float) : result (float * option (matrix float)) :=
  match pos with
  | Some pos =>
      dom_size ← np_max (concat pos);
      let pos_arr : matrix float :=
        map (fun row : list float =>
               zip_with F64.add (map (fun x => F64.mul x dom_size) row) center)
            (random_uniform n dim) in
      pos_arr ← assign_rows dim pos (seq 0 n) pos_arr;
      Ok (dom_size, Some pos_arr)
  | None => Ok (F64.one, None)
  end.

(** The centre of the layout: an array of one row, given by that row; the
    origin when none is passed or when it has the wrong size. *)
Definition layout_center (dim : nat) (center : option (list float)) : list float :=
  let center := default (replicate dim F64.zero) center in
  if negb (length center =? dim) then replicate dim F64.zero else center.

(** [Graph._fruchterman_reingold_layout]. *)
Definition _fruchterman_reingold_layout (self : Graph) (dim : nat)
    (k : option float) (pos : option (matrix float)) (fixed : list nat)
    (iterations : nat) (scale : float) (center : option (list float))
  : result (matrix float) :=
  let center := layout_center dim center in
  '(dom_size, pos_arr) ← initial_positions (N self) dim pos center;
  let k :=
    match k with
    | None =>
        if 0 <? length fixed
        then Some (F64.div dom_size (F64.sqrt (F64.of_Z (Z.of_nat (N self)))))
        else None
    | Some k => Some k
    end in
  pos ← _sparse_fruchterman_reingold (A self) dim k pos_arr fixed iterations;
  if length fixed =? 0 then
    pos ← _rescale_layout (N self) dim pos scale;
    Ok (map (fun row : list float => zip_with F64.add row center) pos)
  else Ok pos.

End Methods.

(** * Properties *)

(** ** Shapes and entries *)

(** The entry [M[i, j]], zero where there is none. *)
Definition at_ (M : matrix float) (i j : nat) : float :=
  default F64.zero (entry M i j).

(** Column [j], as the list of its entries. *)
Definition column {T : Type} (j : nat) (M : matrix T) : list T := omap (.!! j) M.

Section ShapeLemmas.
Context {T : Type}.
Implicit Types (M : matrix T) (r : list T).

Lemma has_shape_cons rows cols r M :
  has_shape (S rows) cols (r :: M) <-> length r = cols /\ has_shape rows cols M.
Proof.
  unfold has_shape. simpl. rewrite Forall_cons. intuition lia.
Qed.

Lemma has_shape_lookup rows cols M i r :
  has_shape rows cols M -> M !! i = Some r -> length r = cols.
Proof.
  intros [_ HF] Hi. rewrite Forall_lookup in HF. eauto.
Qed.

Lemma shape_has_shape rows cols M :
  has_shape rows cols M -> 0 < rows -> shape M = (rows, cols).
Proof.
  intros [Hl HF] Hpos. unfold shape. destruct M as [|r M]; simpl in *; [lia|].
  apply Forall_cons in HF as [-> _]. by rewrite Hl.
Qed.

Lemma shape_fst M : (shape M).1 = length M.
Proof. done. Qed.

Lemma length_transpose_cols cols M : length (transpose_cols cols M) ≤ cols.
Proof.
  induction M as [|r M IH]; simpl.
  - by rewrite length_replicate.
  - rewrite length_zip_with. lia.
Qed.

Lemma lookup_transpose_cols rows cols M j :
  has_shape rows cols M -> j < cols ->
  transpose_cols cols M !! j = Some (column j M).
Proof.
  revert rows. induction M as [|r M IH]; intros rows HM Hj; simpl.
  - by apply lookup_replicate_2.
  - destruct rows as [|rows]; [destruct HM; done|].
    apply has_shape_cons in HM as [Hr HM].
    rewrite lookup_zip_with, (IH rows HM Hj).
    destruct (lookup_lt_is_Some_2 r j) as [x Hx]; [lia|].
    unfold column. simpl. by rewrite Hx.
Qed.

Lemma has_shape_transpose_cols rows cols M :
  has_shape rows cols M -> has_shape cols rows (transpose_cols cols M).
Proof.
  revert rows. induction M as [|r M IH]; intros rows HM; simpl.
  - destruct HM as [<- _]. split; [by rewrite length_replicate|].
    by apply Forall_replicate.
  - destruct rows as [|rows]; [destruct HM; done|].
    apply has_shape_cons in HM as [Hr HM].
    destruct (IH rows HM) as [Hl HF]. split.
    + rewrite length_zip_with. lia.
    + apply Forall_lookup. intros i l Hi.
      apply lookup_zip_with_Some in Hi as (x & y & -> & _ & Hy).
      rewrite Forall_lookup in HF. simpl. f_equal. eauto.
Qed.

Lemma lookup_column rows cols M i j :
  has_shape rows cols M -> j < cols -> column j M !! i = entry M i j.
Proof.
  revert rows i. induction M as [|r M IH]; intros rows i HM Hj.
  - by destruct i.
  - destruct rows as [|rows]; [destruct HM; done|].
    apply has_shape_cons in HM as [Hr HM].
    destruct (lookup_lt_is_Some_2 r j) as [x Hx]; [lia|].
    unfold column, entry in *. simpl. rewrite Hx.
    destruct i as [|i]; simpl; [by rewrite Hx|]. by apply (IH rows).
Qed.

Lemma entry_transpose n M i j :
  has_shape n n M -> i < n -> entry (transpose M) i j = entry M j i.
Proof.
  intros HM Hi. unfold transpose.
  rewrite (shape_has_shape n n M HM) by lia. simpl.
  unfold entry at 1. rewrite (lookup_transpose_cols n n M i HM Hi). simpl.
  by apply (lookup_column n n).
Qed.

Lemma has_shape_transpose n M : has_shape n n M -> has_shape n n (transpose M).
Proof.
  intros HM. destruct n as [|n].
  - destruct HM as [Hl _]. destruct M; [|done]. by split.
  - unfold transpose. rewrite (shape_has_shape (S n) (S n) M HM) by lia.
    by apply has_shape_transpose_cols.
Qed.

Lemma entry_Some rows cols M i j :
  has_shape rows cols M -> i < rows -> j < cols -> is_Some (entry M i j).
Proof.
  intros HM Hi Hj. unfold entry.
  destruct (lookup_lt_is_Some_2 M i) as [r Hr]; [destruct HM; lia|].
  rewrite Hr. simpl. apply lookup_lt_is_Some_2.
  by rewrite (has_shape_lookup _ _ _ _ _ HM Hr).
Qed.

End ShapeLemmas.

(** ** The Laplacian *)

(** The diagonal matrix of a vector, entry by entry. *)
Definition diag_at (v : nat -> float) (i j : nat) : float :=
  if decide (i = j) then v i else F64.zero.

(** Row and column sums of the weight matrix, by index. *)
Definition rowsum (w : matrix float) (i : nat) : float :=
  fsum (default [] (w !! i)).
Definition colsum (w : matrix float) (j : nat) : float :=
  fsum (column j w).

(** The graph is directed: [is_directed()] answers [True], from the cache or
    from the weights. *)
Definition directed (self : Graph) : Prop := (is_directed false self).1 = Ok true.
Definition undirected (self : Graph) : Prop := (is_directed false self).1 = Ok false.

Section NumericLemmas.
Context {T : Type} (zero : T) (add sub : T -> T -> T).

Lemma has_shape_diags (v : list T) : has_shape (length v) (length v) (diags zero v).
Proof.
  unfold diags. split; [by rewrite length_imap|].
  apply Forall_lookup. intros i r Hi.
  apply list_lookup_imap_Some in Hi as (x & _ & ->).
  by rewrite length_insert, length_replicate.
Qed.

Lemma entry_diags (v : list T) i j x :
  v !! i = Some x -> j < length v ->
  entry (diags zero v) i j = Some (if decide (i = j) then x else zero).
Proof.
  intros Hi Hj. unfold entry, diags. rewrite list_lookup_imap, Hi. simpl.
  destruct (decide (i = j)) as [->|Hne].
  - apply list_lookup_insert_eq. by rewrite length_replicate.
  - rewrite list_lookup_insert_ne by done. by apply lookup_replicate_2.
Qed.

Lemma entry_zip_with (f : T -> T -> T) (X Y : matrix T) i j :
  entry (zip_with (zip_with f) X Y) i j =
  x ← entry X i j; y ← entry Y i j; Some (f x y).
Proof.
  unfold entry. rewrite lookup_zip_with.
  destruct (X !! i) as [r|]; simpl; [|done].
  destruct (Y !! i) as [r'|]; simpl.
  - by rewrite lookup_zip_with.
  - by destruct (r !! j).
Qed.

Lemma has_shape_zip_with (f : T -> T -> T) rows cols (X Y : matrix T) :
  has_shape rows cols X -> has_shape rows cols Y ->
  has_shape rows cols (zip_with (zip_with f) X Y).
Proof.
  intros [HlX HX] [HlY HY]. split; [rewrite length_zip_with; lia|].
  apply Forall_lookup. intros i r Hi.
  apply lookup_zip_with_Some in Hi as (x & y & -> & Hx & Hy).
  rewrite Forall_lookup in HX, HY. rewrite length_zip_with.
  rewrite (HX _ _ Hx), (HY _ _ Hy). lia.
Qed.

End NumericLemmas.

Lemma has_shape_map {T U : Type} (f : T -> U) rows cols (M : matrix T) :
  has_shape rows cols M -> has_shape rows cols (map (map f) M).
Proof.
  intros [Hl HF]. split; [by rewrite length_map|].
  apply Forall_lookup. intros i r Hi.
  change (map (map f) M) with (map f <$> M) in Hi.
  rewrite list_lookup_fmap in Hi.
  destruct (M !! i) as [r'|] eqn:Hr; simplify_eq/=.
  rewrite length_map. rewrite Forall_lookup in HF. eauto.
Qed.

Lemma entry_map {T U : Type} (f : T -> U) (M : matrix T) i j :
  entry (map (map f) M) i j = f <$> entry M i j.
Proof.
  unfold entry. change (map (map f) M) with (map f <$> M).
  rewrite list_lookup_fmap. destruct (M !! i) as [r|]; simpl; [|done].
  change (map f r) with (f <$> r). by rewrite list_lookup_fmap.
Qed.

(** What [is_directed] answers does not depend on the Laplacian kind being
    recorded first, and the call leaves the weights as they are. *)
Lemma is_directed_set_lap_type k recompute self :
  is_directed recompute (set_lap_type k self) =
  ((is_directed recompute self).1, set_lap_type k (is_directed recompute self).2).
Proof.
  unfold is_directed. simpl.
  destruct (cached _ _); [done|]. by destruct (negb _).
Qed.

Lemma is_directed_W recompute self : W (is_directed recompute self).2 = W self.
Proof.
  unfold is_directed. destruct (cached _ _); [done|]. by destruct (negb _).
Qed.

Lemma is_directed_fields recompute self :
  let self' := (is_directed recompute self).2 in
  N self' = N self /\ A self' = A self /\ Ne self' = Ne self /\
  lap_type self' = lap_type self /\ L self' = L self.
Proof.
  unfold is_directed. destruct (cached _ _); [done|]. by destruct (negb _).
Qed.

Lemma lookup_row_sums (w : matrix float) i :
  frow_sums w !! i = fsum <$> w !! i.
Proof. unfold row_sums. by rewrite list_lookup_fmap. Qed.

Lemma lookup_col_sums n (w : matrix float) j :
  has_shape n n w -> j < n -> fcol_sums w !! j = Some (colsum w j).
Proof.
  intros Hw Hj. unfold col_sums, transpose.
  rewrite (shape_has_shape n n w Hw) by lia. simpl.
  by rewrite list_lookup_fmap, (lookup_transpose_cols n n w j Hw Hj).
Qed.

Lemma length_col_sums n (w : matrix float) :
  has_shape n n w -> length (fcol_sums w) = n.
Proof.
  intros Hw. unfold col_sums. rewrite length_fmap.
  by destruct (has_shape_transpose n w Hw).
Qed.

Lemma entry_at rows cols (M : matrix float) i j :
  has_shape rows cols M -> i < rows -> j < cols -> entry M i j = Some (at_ M i j).
Proof.
  intros HM Hi Hj. unfold at_.
  by destruct (entry_Some rows cols M i j HM Hi Hj) as [x ->].
Qed.

Lemma entry_diag_row_sums n (w : matrix float) i j :
  has_shape n n w -> i < n -> j < n ->
  entry (fdiags (frow_sums w)) i j = Some (diag_at (rowsum w) i j).
Proof.
  intros Hw Hi Hj.
  destruct (lookup_lt_is_Some_2 w i) as [r Hr]; [destruct Hw; lia|].
  rewrite (entry_diags F64.zero (frow_sums w) i j (fsum r)).
  - unfold diag_at, rowsum. by rewrite Hr.
  - by rewrite lookup_row_sums, Hr.
  - unfold row_sums. rewrite length_fmap. destruct Hw; lia.
Qed.

Lemma entry_diag_col_sums n (w : matrix float) i j :
  has_shape n n w -> i < n -> j < n ->
  entry (fdiags (fcol_sums w)) i j = Some (diag_at (colsum w) i j).
Proof.
  intros Hw Hi Hj.
  rewrite (entry_diags F64.zero (fcol_sums w) i j (colsum w i)).
  - done.
  - by apply (lookup_col_sums n).
  - by rewrite (length_col_sums n).
Qed.

Lemma has_shape_diag_row_sums n (w : matrix float) :
  has_shape n n w -> has_shape n n (fdiags (frow_sums w)).
Proof.
  intros Hw. pose proof (has_shape_diags F64.zero (frow_sums w)) as H.
  unfold row_sums in H at 1 2. rewrite length_fmap in H. by destruct Hw as [<- _].
Qed.

Lemma has_shape_diag_col_sums n (w : matrix float) :
  has_shape n n w -> has_shape n n (fdiags (fcol_sums w)).
Proof.
  intros Hw. pose proof (has_shape_diags F64.zero (fcol_sums w)) as H.
  by rewrite (length_col_sums n w Hw) in H.
Qed.

(** The formula of the directed combinatorial Laplacian, entry by entry:
    [L = 1/2 (D_out + D_in - W - W^T)] with [D_out] the diagonal of the column
    sums of [W] and [D_in] the diagonal of its row sums. *)
Definition spec_directed_laplacian (n : nat) (w Lm : matrix float) : Prop :=
  forall i j, i < n -> j < n ->
    at_ Lm i j =
    F64.mul F64.half
      (F64.sub
         (F64.sub (F64.add (diag_at (colsum w) i j) (diag_at (rowsum w) i j))
                  (at_ w i j))
         (at_ w j i)).

(** The formula of the undirected combinatorial Laplacian, entry by entry:
    [L = D - W] with [D] the diagonal of the row sums of [W]. *)
Definition spec_undirected_laplacian (n : nat) (w Lm : matrix float) : Prop :=
  forall i j, i < n -> j < n ->
    at_ Lm i j = F64.sub (diag_at (rowsum w) i j) (at_ w i j).

(** C4. On a directed graph the combinatorial Laplacian is
    [L = 1/2 (D_out + D_in - W - W^T)], where [D_out] is the diagonal of the
    column sums of [W] and [D_in] the diagonal of its row sums: the call
    succeeds, records the kind, and every entry of [L] is given by that
    formula. *)
Theorem compute_laplacian_directed_combinatorial
    (np_power : float -> float -> float) (self : Graph) (n : nat) :
  has_shape n n (W self) ->
  directed self ->
  let r := compute_laplacian np_power "combinatorial" self in
  r.1 = Ok tt /\
  lap_type r.2 = Some "combinatorial" /\
  exists Lm, L r.2 = Some Lm /\ has_shape n n Lm /\
    spec_directed_laplacian n (W self) Lm.
Proof.
  intros Hw Hdir. unfold directed in Hdir.
  unfold compute_laplacian. simpl.
  unfold mbind, method_bind, modify. simpl.
  rewrite is_directed_set_lap_type.
  destruct (is_directed false self) as [res self'] eqn:Hd.
  simpl in Hdir. subst res. simpl.
  pose proof (is_directed_W false self) as HW. rewrite Hd in HW. simpl in HW.
  unfold get. simpl. rewrite HW.
  split; [done|]. split; [done|].
  eexists. split; [done|]. split.
  - apply has_shape_map. repeat apply has_shape_zip_with;
      auto using has_shape_diag_col_sums, has_shape_diag_row_sums, has_shape_transpose.
  - intros i j Hi Hj. unfold at_ at 1. unfold mscale.
    rewrite entry_map. unfold msub, madd. rewrite !entry_zip_with.
    rewrite (entry_diag_col_sums n), (entry_diag_row_sums n) by done.
    rewrite (entry_transpose n) by done.
    rewrite (entry_at n n (W self) i j), (entry_at n n (W self) j i) by done.
    done.
Qed.

(** What the combinatorial Laplacian of an undirected graph is. *)
Lemma compute_laplacian_undirected_combinatorial
    (np_power : float -> float -> float) (self : Graph) (n : nat) :
  has_shape n n (W self) ->
  undirected self ->
  let r := compute_laplacian np_power "combinatorial" self in
  r.1 = Ok tt /\
  L r.2 = Some (fmsub (fdiags (frow_sums (W self))) (W self)) /\
  spec_undirected_laplacian n (W self) (fmsub (fdiags (frow_sums (W self))) (W self)).
Proof.
  intros Hw Hdir. unfold undirected in Hdir.
  unfold compute_laplacian. simpl.
  unfold mbind, method_bind, modify. simpl.
  rewrite is_directed_set_lap_type.
  destruct (is_directed false self) as [res self'] eqn:Hd.
  simpl in Hdir. subst res. simpl.
  pose proof (is_directed_W false self) as HW. rewrite Hd in HW. simpl in HW.
  unfold get. simpl. rewrite HW.
  split; [done|]. split; [done|].
  intros i j Hi Hj. unfold at_ at 1. unfold msub. rewrite entry_zip_with.
  rewrite (entry_diag_row_sums n) by done.
  by rewrite (entry_at n n (W self) i j).
Qed.

(** ** Row sums in exact arithmetic *)

Section ExactArithmetic.
Context {T : Type} (zero : T) (add sub : T -> T -> T).
Hypothesis add_assoc : forall x y z, add x (add y z) = add (add x y) z.
Hypothesis add_comm : forall x y, add x y = add y x.
Hypothesis add_zero : forall x, add zero x = x.
Hypothesis sub_add : forall x y, add (sub x y) y = x.








End ExactArithmetic.

(** ** Example graphs *)

(** One behaviour of [set.pop]: the first element of the enumeration. *)
Definition pop_first : nat -> nat := fun _ => 0.

(** A stand-in for [np.power] where its value plays no part. *)
Definition power_unused : float -> float -> float := fun x _ => x.

Definition empty_graph : Graph :=
  {| N := 0; W := []; A := []; Ne := 0; d := []; gtype := "unknown";
     lap_type := None; L := None; coords := None; _directed := None;
     _connected := None; info_orig_idx := None |}.

(** [Graph(w)], with the defaults of the constructor. *)
Definition graph_of (w : matrix float) : Graph :=
  match __init__ pop_first power_unused w "unknown" "combinatorial" None true with
  | Ok g => g
  | _ => empty_graph
  end.

Definition fl (z : Z) : float := F64.of_Z z.

(** The directed edge [0 -> 1]. *)
Definition W_arrow : matrix float := Eval vm_compute in map (map fl) [[0; 1]; [0; 0]]%Z.
Definition G_arrow : Graph := Eval vm_compute in graph_of W_arrow.

(** The undirected edge [0 - 1]. *)
Definition W_edge : matrix float := Eval vm_compute in map (map fl) [[0; 1]; [1; 0]]%Z.
Definition G_edge : Graph := Eval vm_compute in graph_of W_edge.

(** A star whose weights 0.1, 0.2 and 0.3 do not add up exactly. *)
Definition W_star : matrix float := Eval vm_compute in
  let w1 := F64.tenth in
  let w2 := F64.div (fl 2) (fl 10) in
  let w3 := F64.div (fl 3) (fl 10) in
  let o := F64.zero in
  [[o; w1; w2; w3]; [w1; o; o; o]; [w2; o; o; o]; [w3; o; o; o]].
Definition G_star : Graph := Eval vm_compute in graph_of W_star.

(** Two disjoint cliques, on the nodes 0, 1, 2 and on the nodes 3, 4. *)
Definition W_cliques : matrix float := Eval vm_compute in
  map (map fl)
    [[0; 1; 1; 0; 0]; [1; 0; 1; 0; 0]; [1; 1; 0; 0; 0]; [0; 0; 0; 0; 1]; [0; 0; 0; 1; 0]]%Z.

(** The exact value of a finite double, as a multiple of [2^-1074]. *)
Definition scaled (x : float) : Z :=
  match x with
  | S754_finite s m e => (if s then -1 else 1) * Z.pos m * 2 ^ (e + 1074)
  | _ => 0
  end%Z.

(** ** C3: the undirected combinatorial Laplacian *)


Lemma has_shape_check {T : Type} (rows cols : nat) (M : matrix T) :
  (length M =? rows) && forallb (fun r => length r =? cols) M = true ->
  has_shape rows cols M.
Proof.
  intros H. apply andb_prop in H as [Hl HF]. apply Nat.eqb_eq in Hl.
  split; [done|]. apply Forall_forall. intros r Hr.
  rewrite forallb_forall in HF. apply Nat.eqb_eq, HF. by apply list_elem_of_In.
Qed.



(** ** C4: witness *)

Lemma compute_laplacian_directed_combinatorial_on_arrow :
  let r := compute_laplacian power_unused "combinatorial" G_arrow in
  r.1 = Ok tt /\
  lap_type r.2 = Some "combinatorial" /\
  exists Lm, L r.2 = Some Lm /\ has_shape 2 2 Lm /\
    spec_directed_laplacian 2 (W G_arrow) Lm.
Proof.
  apply (compute_laplacian_directed_combinatorial power_unused G_arrow 2).
  - apply has_shape_check. reflexivity.
  - reflexivity.
Defined.

(** ** C6: what is not implemented for directed graphs *)

(** C6. On a directed graph the normalized Laplacian, the extraction of
    components and the edge list each raise [NotImplementedError]. *)
Theorem directed_not_implemented
    (choice : nat -> nat) (np_power : float -> float -> float) (self : Graph) :
  directed self ->
  (shape (A self)).1 = (shape (A self)).2 ->
  (compute_laplacian np_power "normalized" self).1 = Raise NotImplementedError /\
  (extract_components choice np_power self).1 = Raise NotImplementedError /\
  (get_edge_list self).1 = Raise NotImplementedError.
Proof.
  intros Hdir Hsq. unfold directed in Hdir. repeat split.
  - unfold compute_laplacian. simpl.
    unfold mbind, method_bind, modify. simpl.
    rewrite is_directed_set_lap_type.
    destruct (is_directed false self) as [res self'].
    simpl in Hdir. by subst res.
  - unfold extract_components. rewrite Hsq, Nat.eqb_refl. simpl.
    unfold mbind, method_bind.
    destruct (is_directed false self) as [res self'].
    simpl in Hdir. by subst res.
  - unfold get_edge_list, mbind, method_bind.
    destruct (is_directed false self) as [res self'].
    simpl in Hdir. by subst res.
Qed.

Lemma directed_not_implemented_on_arrow :
  (compute_laplacian power_unused "normalized" G_arrow).1 = Raise NotImplementedError /\
  (extract_components pop_first power_unused G_arrow).1 = Raise NotImplementedError /\
  (get_edge_list G_arrow).1 = Raise NotImplementedError.
Proof.
  apply (directed_not_implemented pop_first power_unused G_arrow); reflexivity.
Defined.

(** ** C10: the edge list *)

Section FindIndices.
Context {T : Type} (p : T -> bool).

Lemma elem_of_find_indices (r : list T) (s k : nat) :
  k ∈ find_indices p r s <-> s ≤ k /\ exists x, r !! (k - s) = Some x /\ p x = true.
Proof.
  revert s. induction r as [|x r IH]; intros s; simpl.
  - split; [by intros ?%elem_of_nil|]. by intros (_ & y & ? & _).
  - assert (Htail : k ∈ find_indices p r (S s) <->
                    S s ≤ k /\ exists y, (x :: r) !! (k - s) = Some y /\ p y = true).
    { rewrite IH. split; intros (Hle & y & Hy & Hp); (split; [done|]); exists y;
        (split; [|done]); replace (k - s) with (S (k - S s)) in * by lia; done. }
    destruct (p x) eqn:Hpx.
    + rewrite elem_of_cons, Htail. split.
      * intros [->|(Hle & y & Hy & Hp)].
        -- split; [lia|]. exists x. by rewrite Nat.sub_diag.
        -- split; [lia|]. eauto.
      * intros (Hle & y & Hy & Hp). destruct (decide (k = s)) as [->|Hne]; [by left|].
        right. split; [lia|]. eauto.
    + rewrite Htail. split.
      * intros (Hle & y & Hy & Hp). split; [lia|]. eauto.
      * intros (Hle & y & Hy & Hp). split; [|by eauto].
        destruct (decide (k = s)) as [->|Hne]; [|lia].
        rewrite Nat.sub_diag in Hy. simplify_eq/=. congruence.
Qed.

Lemma NoDup_find_indices (r : list T) (s : nat) : NoDup (find_indices p r s).
Proof.
  revert s. induction r as [|x r IH]; intros s; simpl; [constructor|].
  destruct (p x); [|done]. constructor; [|done].
  rewrite elem_of_find_indices. lia.
Qed.

Lemma length_find_indices_take (r : list T) (m s : nat) :
  length (find_indices p (take m r) s) ≤ length (find_indices p r s).
Proof.
  revert m s. induction r as [|x r IH]; intros [|m] s; simpl; try lia.
  destruct (p x); simpl; [apply le_n_S|]; apply IH.
Qed.

End FindIndices.

Lemma mapR_Ok {T U : Type} (f : T -> result U) (l : list T) (ys : list U) :
  mapR f l = Ok ys <-> Forall2 (fun x y => f x = Ok y) l ys.
Proof.
  revert ys. induction l as [|x l IH]; intros ys; simpl.
  - split; [intros [= <-]; constructor|]. by intros ->%Forall2_nil_inv_l.
  - unfold mbind, result_bind. destruct (f x) as [y| |] eqn:Hfx.
    + destruct (mapR f l) as [ys'| |] eqn:Hl.
      * split.
        -- intros [= <-]. constructor; [done|]. by apply IH.
        -- intros (y' & ys'' & Hy & Hys & ->)%Forall2_cons_inv_l.
           apply IH in Hys. congruence.
      * split; [done|]. intros (y' & ys'' & Hy & Hys & ->)%Forall2_cons_inv_l.
        apply IH in Hys. done.
      * split; [done|]. intros (y' & ys'' & Hy & Hys & ->)%Forall2_cons_inv_l.
        apply IH in Hys. done.
    + split; [done|]. intros (y' & ys'' & Hy & Hys & ->)%Forall2_cons_inv_l. congruence.
    + split; [done|]. intros (y' & ys'' & Hy & Hys & ->)%Forall2_cons_inv_l. congruence.
Qed.

Lemma mapR_total {T U : Type} (f : T -> result U) (l : list T) :
  Forall (fun x => exists y, f x = Ok y) l -> exists ys, mapR f l = Ok ys.
Proof.
  induction 1 as [|x l [y Hy] _ [ys Hys]]; simpl; [by eexists|].
  rewrite Hy. simpl. rewrite Hys. by eexists.
Qed.

(** The stored entries on or below the diagonal, for any numbering of the
    rows. *)
Definition tril_rows (c : nat -> nat) (w : matrix float) : list (nat * nat) :=
  concat (imap (fun i row =>
    pair (c i) <$> find_indices (fun x => F64.neqb x F64.zero) (take (S (c i)) row) 0) w).

Lemma tril_nonzero_rows w : tril_nonzero w = tril_rows id w.
Proof. done. Qed.

Lemma tril_rows_cons c row w :
  tril_rows c (row :: w) =
  (pair (c 0) <$> find_indices (fun x => F64.neqb x F64.zero) (take (S (c 0)) row) 0)
    ++ tril_rows (c ∘ S) w.
Proof. done. Qed.

Lemma elem_of_tril_rows c w a j :
  (a, j) ∈ tril_rows c w <->
  exists i row x, a = c i /\ w !! i = Some row /\ j ≤ c i /\
                  row !! j = Some x /\ F64.neqb x F64.zero = true.
Proof.
  revert c. induction w as [|r w IH]; intros c.
  - split; [by intros ?%elem_of_nil|]. by intros (i & row & x & _ & ? & _).
  - rewrite tril_rows_cons, elem_of_app, IH, list_elem_of_fmap. split.
    + intros [(k & [= -> ->] & Hk)|(i & row & x & -> & Hi & Hle & Hx & Hp)].
      * apply elem_of_find_indices in Hk as (_ & x & Hx & Hp).
        rewrite Nat.sub_0_r in Hx. apply lookup_take_Some in Hx as [Hx Hlt].
        exists 0, r, x. repeat split; try done. lia.
      * exists (S i), row, x. done.
    + intros (i & row & x & -> & Hi & Hle & Hx & Hp). destruct i as [|i].
      * left. simplify_eq/=. exists j. split; [done|].
        apply elem_of_find_indices. split; [lia|]. exists x.
        rewrite Nat.sub_0_r. split; [|done]. apply lookup_take_Some. split; [done|lia].
      * right. exists i, row, x. done.
Qed.

Lemma NoDup_tril_rows c w : Inj eq eq c -> NoDup (tril_rows c w).
Proof.
  revert c. induction w as [|r w IH]; intros c Hc; [constructor|].
  rewrite tril_rows_cons. apply NoDup_app. repeat split.
  - apply (NoDup_fmap_2 _). apply NoDup_find_indices.
  - intros [a j] (k & [= -> ->] & _)%list_elem_of_fmap
                 (i & row & x & Heq & _)%elem_of_tril_rows.
    simpl in Heq. by apply Hc in Heq.
  - apply IH. intros x y Hxy. apply Hc in Hxy. by injection Hxy.
Qed.

Lemma length_tril_rows c w : length (tril_rows c w) ≤ nnz w.
Proof.
  revert c. induction w as [|r w IH]; intros c; [done|].
  rewrite tril_rows_cons, length_app, length_fmap.
  change (nnz (r :: w))
    with (length (find_indices (fun x => F64.neqb x F64.zero) r 0) + nnz w).
  pose proof (length_find_indices_take (fun x => F64.neqb x F64.zero) r (S (c 0)) 0).
  specialize (IH (c ∘ S)). lia.
Qed.

(** C10. On an undirected graph the edge list holds the stored entries on or
    below the diagonal and nothing else: every returned pair has
    [v_in >= v_out] and carries the non-zero weight [W[v_in, v_out]], every
    such entry is returned, no pair is returned twice, and there are at most
    [Ne] of them. *)
Theorem get_edge_list_lower_triangle (self : Graph) (n : nat) :
  has_shape n n (W self) ->
  undirected self ->
  Ne self = nnz (W self) ->
  exists v_in v_out weights,
    (get_edge_list self).1 = Ok (v_in, v_out, weights) /\
    length v_in = length v_out /\ length v_out = length weights /\
    (forall k i j x,
        v_in !! k = Some i -> v_out !! k = Some j -> weights !! k = Some x ->
        j ≤ i /\ entry (W self) i j = Some x /\ F64.neqb x F64.zero = true) /\
    (forall i j x,
        j ≤ i -> entry (W self) i j = Some x -> F64.neqb x F64.zero = true ->
        (i, j) ∈ zip v_in v_out) /\
    NoDup (zip v_in v_out) /\
    length v_in ≤ Ne self.
Proof.
  intros Hw Hund HNe. unfold undirected in Hund.
  set (edges := tril_nonzero (W self)).
  set (f := fun e : nat * nat => row ← getitem (W self) e.1; getitem row e.2).
  assert (Hf : forall i j, (i, j) ∈ edges ->
            exists x, f (i, j) = Ok x /\ j ≤ i /\ entry (W self) i j = Some x /\
                      F64.neqb x F64.zero = true).
  { intros i j Hin. unfold edges in Hin. rewrite tril_nonzero_rows in Hin.
    apply elem_of_tril_rows in Hin as (i' & row & x & -> & Hrow & Hle & Hx & Hp).
    exists x. unfold f, getitem, entry. simpl. rewrite Hrow. simpl. by rewrite Hx. }
  destruct (mapR_total f edges) as [weights Hweights].
  { apply Forall_forall. intros [i j] Hin.
    destruct (Hf i j Hin) as (x & Hx & _). eauto. }
  pose proof Hweights as HF2. apply mapR_Ok in HF2.
  pose proof (Forall2_length _ _ _ HF2) as Hlen.
  assert (Hlen_edges : length edges ≤ Ne self).
  { rewrite HNe. unfold edges. rewrite tril_nonzero_rows. apply length_tril_rows. }
  exists (edges.*1), (edges.*2), weights.
  rewrite !length_fmap, zip_fst_snd. repeat split; try done.
  - unfold get_edge_list, mbind, method_bind.
    pose proof (is_directed_W false self) as HW.
    pose proof (is_directed_fields false self) as (_ & _ & HNe' & _).
    destruct (is_directed false self) as [res self'].
    simpl in *. subst res. unfold get. simpl. rewrite HW, HNe'.
    fold edges. unfold lift. change (mapR _ edges) with (mapR f edges).
    rewrite Hweights. simpl.
    rewrite !length_fmap, <- Hlen, !Nat.eqb_refl. simpl.
    apply Nat.leb_le in Hlen_edges. by rewrite Hlen_edges.
  - rewrite list_lookup_fmap in H, H0.
    destruct (edges !! k) as [[i' j']|] eqn:Hk; simplify_eq/=.
    destruct (Hf i j) as (x' & Hx' & Hle & _); [by eapply list_elem_of_lookup_2|].
    done.
  - rewrite list_lookup_fmap in H, H0.
    destruct (edges !! k) as [[i' j']|] eqn:Hk; simplify_eq/=.
    destruct (Hf i j) as (x' & Hx' & Hle & He & Hp); [by eapply list_elem_of_lookup_2|].
    pose proof (Forall2_lookup_lr _ _ _ _ _ _ HF2 Hk H1) as Hfx. congruence.
  - rewrite list_lookup_fmap in H, H0.
    destruct (edges !! k) as [[i' j']|] eqn:Hk; simplify_eq/=.
    destruct (Hf i j) as (x' & Hx' & Hle & He & Hp); [by eapply list_elem_of_lookup_2|].
    pose proof (Forall2_lookup_lr _ _ _ _ _ _ HF2 Hk H1) as Hfx. congruence.
  - intros i j x Hle He Hp. unfold edges. rewrite tril_nonzero_rows.
    apply elem_of_tril_rows. unfold entry in He.
    destruct (W self !! i) as [row|] eqn:Hrow; simplify_eq/=.
    exists i, row, x. done.
  - unfold edges. rewrite tril_nonzero_rows. apply NoDup_tril_rows. apply _.
Qed.

Lemma get_edge_list_lower_triangle_on_edge :
  exists v_in v_out weights,
    (get_edge_list G_edge).1 = Ok (v_in, v_out, weights) /\
    length v_in = length v_out /\ length v_out = length weights /\
    (forall k i j x,
        v_in !! k = Some i -> v_out !! k = Some j -> weights !! k = Some x ->
        j ≤ i /\ entry (W G_edge) i j = Some x /\ F64.neqb x F64.zero = true) /\
    (forall i j x,
        j ≤ i -> entry (W G_edge) i j = Some x -> F64.neqb x F64.zero = true ->
        (i, j) ∈ zip v_in v_out) /\
    NoDup (zip v_in v_out) /\
    length v_in ≤ Ne G_edge.
Proof.
  apply (get_edge_list_lower_triangle G_edge 2).
  - apply has_shape_check. reflexivity.
  - reflexivity.
  - reflexivity.
Defined.

(** ** Popping from a set *)

Lemma set_pop_None choice clock (s : gset nat) :
  set_pop choice clock s = None <-> s = ∅.
Proof.
  unfold set_pop. destruct (elements s) as [|x l] eqn:Hs.
  - split; [|done]. intros _. by apply elements_empty_inv, leibniz_equiv in Hs.
  - split; [done|]. intros ->. by rewrite elements_empty in Hs.
Qed.

Lemma set_pop_Some choice clock (s : gset nat) v s' :
  set_pop choice clock s = Some (v, s') -> v ∈ s /\ s' = s ∖ {[ v ]}.
Proof.
  unfold set_pop. destruct (elements s) as [|x l] eqn:Hs; [done|].
  assert (Hin : nth (choice clock `mod` length (x :: l)) (x :: l) x ∈ s).
  { apply elem_of_elements. rewrite Hs. apply list_elem_of_In, nth_In.
    by apply Nat.mod_upper_bound. }
  intros Heq. injection Heq as <- <-. split; [exact Hin|reflexivity].
Qed.

Lemma set_pop_singleton choice clock v :
  set_pop choice clock {[ v ]} = Some (v, ∅).
Proof.
  unfold set_pop. rewrite elements_singleton.
  change (length [v]) with 1. rewrite Nat.mod_1_r.
  change (nth 0 [v] v) with v. by rewrite difference_diag_L.
Qed.

(** ** C2: connectivity of the smallest graphs *)

Lemma connected_loop_single_node choice a clock :
  connected_loop choice (traversal_fuel 1) [[a]] clock [false] {[ 0 ]}
  = Ok ([true], S clock).
Proof.
  change (traversal_fuel 1) with 5.
  cbn [connected_loop]. rewrite set_pop_singleton.
  change (getitem [false] 0) with (Ok false : result bool).
  cbn [mbind result_bind negb].
  assert (unvisited_neighbours [[a]] 0 (<[0:=true]> [false]) = Ok []) as ->
    by by destruct a.
  cbn [mbind result_bind].
  assert ((∅ : gset nat) ∪ list_to_set [] = ∅) as -> by set_solver.
  assert (set_pop choice (S clock) ∅ = None) as -> by by apply set_pop_None.
  done.
Qed.

Lemma is_directed_single_node recompute self w :
  W self = [[w]] -> exists b, (is_directed recompute self).1 = Ok b.
Proof.
  intros HW. unfold is_directed. destruct (cached _ _); [by eexists|].
  rewrite HW. simpl. by eexists.
Qed.

(** C2 (as amended). On a graph of one node [is_connected], when it computes
    its answer rather than returning a cached one, returns [True] without
    error, whatever the weight of the node's self-loop and whatever is
    cached about directedness. *)
Theorem is_connected_single_node
    (choice : nat -> nat) (recompute : bool) (self : Graph) (a : bool) (w : float) :
  A self = [[a]] ->
  W self = [[w]] ->
  cached (_connected self) recompute = None ->
  (is_connected choice recompute self).1 = Ok true.
Proof.
  intros HA HW Hcache. unfold is_connected. rewrite Hcache, HA. simpl.
  unfold mbind, method_bind.
  destruct (is_directed_single_node recompute self w HW) as [b Hb].
  destruct (is_directed recompute self) as [res self']. simpl in Hb. subst res.
  unfold lift.
  assert (connected_for choice 1 (if b then [[[a]]; transpose [[a]]] else [[[a]]]) 0
          = Ok true) as ->; [|reflexivity].
  change (transpose [[a]]) with [[a]].
  destruct b; cbn [connected_for]; change (replicate 1 false) with [false];
    repeat (rewrite connected_loop_single_node;
            cbn [mbind result_bind forallb id andb negb connected_for]);
    reflexivity.
Qed.

(** A state of one node, with nothing cached. *)
Definition G_single : Graph :=
  {| N := 1; W := [[F64.zero]]; A := [[false]]; Ne := 0; d := [0];
     gtype := "unknown"; lap_type := None; L := None; coords := None;
     _directed := None; _connected := None; info_orig_idx := None |}.

Lemma is_connected_single_node_example :
  (is_connected pop_first false G_single).1 = Ok true.
Proof.
  apply (is_connected_single_node pop_first false G_single false F64.zero);
    reflexivity.
Defined.

(** The graph of no node, as the constructor builds it when told to skip
    its checks. *)
Definition G_empty : Graph := Eval vm_compute in
  match __init__ pop_first power_unused [] "unknown" "combinatorial" None false with
  | Ok g => g
  | _ => empty_graph
  end.

(** On the graph of no node the traversal starts from node 0 all the same,
    and reading [visited[0]] raises [IndexError], with any [set.pop]. *)
Lemma is_connected_no_node choice recompute self :
  A self = [] ->
  W self = [] ->
  cached (_connected self) recompute = None ->
  (is_connected choice recompute self).1 = Raise IndexError.
Proof.
  intros HA HW Hcache. unfold is_connected. rewrite Hcache, HA. simpl.
  unfold mbind, method_bind.
  assert (exists b, (is_directed recompute self).1 = Ok b) as [b Hb].
  { unfold is_directed. destruct (cached (_directed self) recompute) as [b|].
    - by exists b.
    - rewrite HW. simpl. by eexists. }
  destruct (is_directed recompute self) as [res self']. simpl in Hb. subst res.
  unfold lift.
  assert (connected_for choice 0 (if b then [[]; transpose []] else [[]]) 0
          = Raise IndexError) as ->; [|reflexivity].
  destruct b; cbn [connected_for]; change (traversal_fuel 0) with 2;
    cbn [connected_loop]; rewrite set_pop_singleton; reflexivity.
Qed.

(** The claim fails on the graph of no node: the constructor builds it when
    its checks are off, [is_connected] raises on it, and with the checks on
    the constructor itself raises. *)
Lemma is_connected_empty_graph_raises :
  __init__ pop_first power_unused [] "unknown" "combinatorial" None false = Ok G_empty /\
  (is_connected pop_first false G_empty).1 = Raise IndexError /\
  __init__ pop_first power_unused [] "unknown" "combinatorial" None true
    = Raise IndexError.
Proof.
  split; [reflexivity|]. split.
  - by apply is_connected_no_node.
  - vm_compute. reflexivity.
Qed.

(** The constructor refuses a weight matrix of one node: the squeezed degree
    has no dimension left and the assertion on it fails. *)
Lemma init_single_node_asserts choice np_power w gtype lap_type coords checks :
  __init__ choice np_power [[w]] gtype lap_type coords checks = Raise AssertionError.
Proof. done. Qed.

(** ** The layout at rest *)

(** A matrix of zeros, of either sign. *)
Definition zeros (M : matrix float) : Prop :=
  Forall (Forall (fun x => F64.is_zero x = true)) M.

(** The temperature of the [j]-th iteration of a run of [iterations]. *)
Definition cooling (iterations j : nat) : float :=
  Nat.iter j
    (fun t => F64.sub t (F64.div F64.tenth (F64.of_Z (Z.of_nat iterations + 1))))
    F64.tenth.

(** The cooling schedule stays within the doubles: [float(iterations + 1)]
    does not overflow and every temperature is finite. *)
Definition cooling_ok (iterations : nat) : bool :=
  F64.is_finite (F64.of_Z (Z.of_nat iterations + 1))
  && forallb (fun j => F64.is_finite (cooling iterations j)) (seq 0 iterations).

Section FloatFacts.
Implicit Types (x y z t : float).

Lemma same_number_refl x : F64.same_number x x.
Proof. by left. Qed.

Lemma same_number_trans x y z :
  F64.same_number x y -> F64.same_number y z -> F64.same_number x z.
Proof.
  intros [->|[Hx Hy]] [->|[Hy' Hz]]; try (by left); try (by right).
Qed.

Lemma mul_zero_r_is_zero z : F64.is_zero z = true -> F64.is_zero (F64.mul z F64.zero) = true.
Proof. by destruct z. Qed.

Lemma mul_zero_finite z t :
  F64.is_zero z = true -> F64.is_finite t = true -> F64.is_zero (F64.mul z t) = true.
Proof. by destruct z, t. Qed.

Lemma div_zero_tenth z : F64.is_zero z = true -> F64.is_zero (F64.div z F64.tenth) = true.
Proof. by destruct z. Qed.

Lemma add_zero_same x z : F64.is_zero z = true -> F64.same_number (F64.add x z) x.
Proof.
  destruct z as [s| | |]; try done. intros _.
  destruct x as [s'| | |]; try (by left).
  right. by destruct s', s.
Qed.

Lemma add_zero_zero x z :
  F64.is_zero x = true -> F64.is_zero z = true -> F64.is_zero (F64.add x z) = true.
Proof. destruct x as [[]| | |], z as [[]| | |]; done. Qed.

Lemma square_zero z : F64.is_zero z = true -> F64.is_zero (F64.square z) = true.
Proof. by destruct z. Qed.

Lemma np_sum_zeros (l : list float) :
  Forall (fun x => F64.is_zero x = true) l -> F64.is_zero (np_sum l) = true.
Proof.
  destruct l as [|x l]; [done|]. intros [Hx Hl]%Forall_cons. simpl.
  revert x Hx. induction Hl as [|y l Hy _ IH]; intros x Hx; [done|].
  simpl. apply IH. by apply add_zero_zero.
Qed.

Lemma sqrt_zero z : F64.is_zero z = true -> F64.is_zero (F64.sqrt z) = true.
Proof. by destruct z. Qed.

Lemma zero_below_hundredth z : F64.is_zero z = true -> F64.ltb z F64.hundredth = true.
Proof. by destruct z. Qed.

End FloatFacts.

Lemma zeros_transpose_cols cols (M : matrix float) :
  zeros M -> zeros (transpose_cols cols M).
Proof.
  induction 1 as [|r M Hr _ IH]; simpl.
  - by apply Forall_replicate.
  - apply Forall_lookup. intros i col Hi.
    apply lookup_zip_with_Some in Hi as (x & c & -> & Hx & Hc).
    constructor.
    + rewrite Forall_lookup in Hr. eauto.
    + unfold zeros in IH. rewrite Forall_lookup in IH. eauto.
Qed.

Lemma fmap_constant {X Y : Type} (f : X -> Y) (c : Y) (P : X -> Prop) (l : list X) :
  Forall P l -> (forall x, P x -> f x = c) -> f <$> l = replicate (length l) c.
Proof.
  intros Hl Hf. induction Hl as [|x l Hx _ IH]; [done|].
  by rewrite fmap_cons, IH, (Hf x Hx).
Qed.

(** The positions after an iteration in which no force has acted: the
    body of the loop of [fr_iterate] after the loop over the rows. *)
Definition moved (n : nat) (pos displacement : matrix float) (t : float) : matrix float :=
  let length :=
    (fun col => F64.sqrt (np_sum (F64.square <$> col)))
      <$> transpose_cols n displacement in
  let length :=
    (fun x => if F64.ltb x F64.hundredth then F64.tenth else x) <$> length in
  let step :=
    transpose_cols n
      ((fun row => zip_with (fun x l => F64.div (F64.mul x t) l) row length)
         <$> displacement) in
  zip_with (zip_with F64.add) pos step.

Lemma moved_at_rest n dim (pos displacement : matrix float) t :
  has_shape n dim pos ->
  has_shape dim n displacement ->
  zeros displacement ->
  F64.is_finite t = true ->
  has_shape n dim (moved n pos displacement t) /\
  Forall2 (Forall2 F64.same_number) (moved n pos displacement t) pos.
Proof.
  intros Hpos Hdisp Hz Ht. unfold moved.
  set (len := _ <$> (_ <$> transpose_cols n displacement)).
  set (scaled := _ <$> displacement).
  assert (Hlen : len = replicate n F64.tenth).
  { unfold len. rewrite <- list_fmap_compose.
    pose proof (has_shape_transpose_cols dim n displacement Hdisp) as [Hl _].
    pose proof (zeros_transpose_cols n displacement Hz) as Hzt.
    rewrite (fmap_constant _ F64.tenth _ _ Hzt), Hl; [done|].
    intros col Hcol. simpl.
    rewrite zero_below_hundredth; [done|].
    apply sqrt_zero, np_sum_zeros. apply Forall_fmap.
    eapply Forall_impl; [exact Hcol|]. intros x Hx. by apply square_zero. }
  assert (Hscaled : has_shape dim n scaled /\ zeros scaled).
  { unfold scaled. rewrite Hlen. destruct Hdisp as [Hl HF]. split; [split|].
    - by rewrite length_fmap.
    - apply Forall_fmap. eapply Forall_impl; [exact HF|]. intros r Hr. simpl in *.
      rewrite length_zip_with, length_replicate. lia.
    - apply Forall_fmap. unfold zeros in Hz.
      eapply Forall_impl; [exact Hz|]. intros r Hr. simpl.
      apply Forall_lookup. intros i y Hi.
      apply lookup_zip_with_Some in Hi as (x & l & -> & Hx & Hl').
      apply lookup_replicate in Hl' as [-> _].
      apply div_zero_tenth, mul_zero_finite; [|done].
      rewrite Forall_lookup in Hr. eauto. }
  destruct Hscaled as [Hshape Hzs].
  pose proof (has_shape_transpose_cols dim n scaled Hshape) as Hstep.
  pose proof (zeros_transpose_cols n scaled Hzs) as Hzstep.
  set (step := transpose_cols n scaled) in *.
  split; [by apply has_shape_zip_with|].
  destruct Hpos as [Hlp HFp], Hstep as [Hls HFs].
  apply Forall2_same_length_lookup. split; [rewrite length_zip_with; lia|].
  intros i r' r Hr' Hr.
  apply lookup_zip_with_Some in Hr' as (r0 & s & -> & Hr0 & Hs).
  rewrite Hr in Hr0. injection Hr0 as <-.
  rewrite Forall_lookup in HFp, HFs. unfold zeros in Hzstep. rewrite Forall_lookup in Hzstep.
  pose proof (HFp _ _ Hr) as Hlr. pose proof (HFs _ _ Hs) as Hlsr.
  pose proof (Hzstep _ _ Hs) as Hzr.
  apply Forall2_same_length_lookup. split; [rewrite length_zip_with; lia|].
  intros j x' x Hx' Hx.
  apply lookup_zip_with_Some in Hx' as (x0 & z & -> & Hx0 & Hz0).
  rewrite Hx in Hx0. injection Hx0 as <-. apply add_zero_same.
  rewrite Forall_lookup in Hzr. eauto.
Qed.

#[global] Instance same_number_reflexive : Reflexive F64.same_number := same_number_refl.
#[global] Instance same_number_transitive : Transitive F64.same_number := same_number_trans.

Lemma fr_iterate_S iterations dim n adj k fixed dt pos displacement t :
  fr_iterate (S iterations) dim n adj k fixed dt pos displacement t =
  (displacement' ←
     fr_rows dim n adj k fixed pos (seq 0 n)
       (map (map (fun x => F64.mul x F64.zero)) displacement);
   fr_iterate iterations dim n adj k fixed dt
     (moved n pos displacement' t) displacement' (F64.sub t dt)).
Proof. done. Qed.

Lemma zeros_times_zero (M : matrix float) :
  zeros M -> zeros (map (map (fun x => F64.mul x F64.zero)) M).
Proof.
  intros HM. apply Forall_fmap. eapply Forall_impl; [exact HM|].
  intros r Hr. apply Forall_fmap. eapply Forall_impl; [exact Hr|].
  intros x Hx. by apply mul_zero_r_is_zero.
Qed.

(** As long as the loop over the rows leaves the displacement at zero, and
    the temperature stays finite, the iterations leave every position where
    it is, up to the sign of a zero. *)
Lemma fr_iterate_at_rest (Inv : matrix float -> Prop) dim n adj k fixed dt :
  (forall pos pos', Inv pos -> has_shape n dim pos' ->
     Forall2 (Forall2 F64.same_number) pos' pos -> Inv pos') ->
  (forall pos displacement,
     Inv pos -> has_shape n dim pos -> has_shape dim n displacement ->
     zeros displacement ->
     exists displacement',
       fr_rows dim n adj k fixed pos (seq 0 n) displacement = Ok displacement' /\
       has_shape dim n displacement' /\ zeros displacement') ->
  forall iterations pos displacement t,
    Inv pos -> has_shape n dim pos -> has_shape dim n displacement ->
    zeros displacement ->
    (forall j, j < iterations ->
       F64.is_finite (Nat.iter j (fun t => F64.sub t dt) t) = true) ->
    exists pos',
      fr_iterate iterations dim n adj k fixed dt pos displacement t = Ok pos' /\
      has_shape n dim pos' /\ Forall2 (Forall2 F64.same_number) pos' pos.
Proof.
  intros Hclosed Hrows. induction iterations as [|iterations IH];
    intros pos displacement t HInv Hpos Hdisp Hz Ht.
  - exists pos. split; [done|]. split; [done|reflexivity].
  - rewrite fr_iterate_S.
    destruct (Hrows pos (map (map (fun x => F64.mul x F64.zero)) displacement))
      as (displacement' & -> & Hdisp' & Hz');
      [done|done|by apply has_shape_map|by apply zeros_times_zero|].
    cbn [mbind result_bind].
    destruct (moved_at_rest n dim pos displacement' t) as [Hshape Hsame];
      [done|done|done|apply (Ht 0); lia|].
    destruct (IH (moved n pos displacement' t) displacement' (F64.sub t dt))
      as (pos' & -> & Hpos' & Hsame'); try done.
    + by apply (Hclosed pos).
    + intros j Hj. specialize (Ht (S j)). rewrite Nat.iter_succ_r in Ht.
      apply Ht. lia.
    + exists pos'. split; [done|]. split; [done|]. by etrans.
Qed.

Lemma fr_rows_all_fixed dim n adj k fixed pos rows displacement :
  Forall (fun i => i ∈ fixed) rows ->
  fr_rows dim n adj k fixed pos rows displacement = Ok displacement.
Proof.
  induction 1 as [|i rows Hi _ IH]; [done|].
  simpl. by rewrite bool_decide_eq_true_2.
Qed.

Lemma assign_rows_all dim n (pos arr : matrix float) :
  has_shape n dim pos -> length arr = n ->
  assign_rows dim pos (seq 0 n) arr = Ok pos.
Proof.
  intros [Hlen HF] Harr.
  assert (H : forall m s arr, s + m = n -> length arr = n ->
            (forall i, i < s -> arr !! i = pos !! i) ->
            assign_rows dim pos (seq s m) arr = Ok pos).
  { clear arr Harr. induction m as [|m IH]; intros s arr Hsm Harr Hsame.
    - simpl. f_equal. apply list_eq. intros i.
      destruct (decide (i < n)) as [Hi|Hi]; [apply Hsame; lia|].
      rewrite !lookup_ge_None_2 by lia. done.
    - simpl. destruct (lookup_lt_is_Some_2 pos s) as [row Hrow]; [lia|].
      unfold getitem. rewrite Hrow. cbn [mbind result_bind].
      rewrite Forall_lookup in HF. rewrite (HF _ _ Hrow), Nat.eqb_refl.
      apply IH; [lia|by rewrite length_insert|].
      intros i Hi. destruct (decide (i = s)) as [->|Hne].
      + rewrite list_lookup_insert_eq by lia. done.
      + rewrite list_lookup_insert_ne by done. apply Hsame. lia. }
  apply H; [lia|done|lia].
Qed.

Lemma length_random_uniform rand rows cols :
  length (random_uniform rand rows cols) = rows.
Proof. unfold random_uniform. by rewrite length_fmap, length_seq. Qed.

Lemma cooling_ok_spec iterations :
  cooling_ok iterations = true ->
  py_float (Z.of_nat iterations + 1) = Ok (F64.of_Z (Z.of_nat iterations + 1)) /\
  forall j, j < iterations ->
    F64.is_finite
      (Nat.iter j
         (fun t => F64.sub t (F64.div F64.tenth (F64.of_Z (Z.of_nat iterations + 1))))
         F64.tenth) = true.
Proof.
  unfold cooling_ok. intros [Hn Hall]%andb_prop. split.
  - unfold py_float. by rewrite Hn.
  - intros j Hj. rewrite forallb_forall in Hall. apply (Hall j).
    apply in_seq. lia.
Qed.

(** The layout before its final step: the initial positions and the
    iterations. *)
Definition simulate (rand : nat -> float) (self : Graph) (dim : nat)
    (k : option float) (pos : option (matrix float)) (fixed : list nat)
    (iterations : nat) (center : option (list float)) : result (matrix float) :=
  '(dom_size, pos_arr) ← initial_positions rand (N self) dim pos (layout_center dim center);
  let k :=
    match k with
    | None =>
        if 0 <? length fixed
        then Some (F64.div dom_size (F64.sqrt (F64.of_Z (Z.of_nat (N self)))))
        else None
    | Some k => Some k
    end in
  _sparse_fruchterman_reingold rand (A self) dim k pos_arr fixed iterations.

(** The final step: rescale, then translate by the centre. *)
Definition rescale_and_center (rows dim : nat) (scale : float)
    (center : option (list float)) (pos : matrix float) : result (matrix float) :=
  pos ← _rescale_layout rows dim pos scale;
  Ok (map (fun row : list float => zip_with F64.add row (layout_center dim center)) pos).

Lemma layout_rescales rand self dim k pos iterations scale center :
  _fruchterman_reingold_layout rand self dim k pos [] iterations scale center =
  simulate rand self dim k pos [] iterations center
    ≫= rescale_and_center (N self) dim scale center.
Proof.
  unfold _fruchterman_reingold_layout, simulate, rescale_and_center.
  destruct (initial_positions _ _ _ _ _) as [[dom_size pos_arr]| |]; [|done..].
  cbn [mbind result_bind]. by destruct (_sparse_fruchterman_reingold _ _ _ _ _ _ _).
Qed.

Lemma layout_skips_rescale rand self dim k pos fixed iterations scale center :
  fixed <> [] ->
  _fruchterman_reingold_layout rand self dim k pos fixed iterations scale center =
  simulate rand self dim k pos fixed iterations center.
Proof.
  intros Hfixed. unfold _fruchterman_reingold_layout, simulate.
  destruct (initial_positions _ _ _ _ _) as [[dom_size pos_arr]| |]; [|done..].
  cbn [mbind result_bind].
  destruct (_sparse_fruchterman_reingold _ _ _ _ _ _ _); [|done..].
  cbn [mbind result_bind]. by destruct fixed.
Qed.

(** ** C8: every node fixed *)

Lemma has_shape_replicate {T : Type} rows cols (x : T) :
  has_shape rows cols (replicate rows (replicate cols x)).
Proof.
  split; [by rewrite length_replicate|].
  apply Forall_replicate. by rewrite length_replicate.
Qed.

Lemma sparse_all_fixed rand adj dim k pos fixed iterations n :
  (shape adj).1 = n ->
  has_shape n dim pos ->
  (forall i, i < n -> i ∈ fixed) ->
  cooling_ok iterations = true ->
  exists coords,
    _sparse_fruchterman_reingold rand adj dim (Some k) (Some pos) fixed iterations
      = Ok coords /\
    has_shape n dim coords /\ Forall2 (Forall2 F64.same_number) coords pos.
Proof.
  intros Hn Hpos Hfixed Hcool.
  destruct (cooling_ok_spec iterations Hcool) as [Hfloat Htemp].
  unfold _sparse_fruchterman_reingold. rewrite Hn, Hfloat.
  cbn [mbind result_bind].
  apply (fr_iterate_at_rest (fun _ => True)); try done.
  - intros pos0 displacement _ _ Hdisp Hz. exists displacement.
    split; [|done]. apply fr_rows_all_fixed.
    apply Forall_forall. intros i Hi%list_elem_of_In%in_seq. apply Hfixed. lia.
  - apply has_shape_replicate.
  - apply Forall_replicate, Forall_replicate. done.
Qed.

(** C8. With initial positions supplied for the [n >= 1] nodes and every
    node index in [fixed], the spring layout returns the supplied positions:
    each coordinate is the number it was (a negative zero may come back as a
    positive zero), for every [k], [scale], [center] and draw of the random
    generator, as long as the cooling schedule stays finite.  The final
    rescaling and centring is skipped exactly when [fixed] is not empty. *)
Theorem spring_layout_all_fixed
    (rand : nat -> float) (self : Graph) (dim : nat) (k : option float)
    (pos : matrix float) (fixed : list nat) (iterations : nat)
    (scale : float) (center : option (list float)) (n : nat) :
  N self = n ->
  (shape (A self)).1 = n ->
  0 < n -> 0 < dim ->
  has_shape n dim pos ->
  (forall i, i < n -> i ∈ fixed) ->
  cooling_ok iterations = true ->
  (exists coords,
     _fruchterman_reingold_layout rand self dim k (Some pos) fixed iterations scale center
       = Ok coords /\
     has_shape n dim coords /\ Forall2 (Forall2 F64.same_number) coords pos) /\
  (forall k' pos' fixed' iterations',
     fixed' <> [] ->
     _fruchterman_reingold_layout rand self dim k' pos' fixed' iterations' scale center =
     simulate rand self dim k' pos' fixed' iterations' center) /\
  (forall k' pos' iterations',
     _fruchterman_reingold_layout rand self dim k' pos' [] iterations' scale center =
     simulate rand self dim k' pos' [] iterations' center
       ≫= rescale_and_center (N self) dim scale center).
Proof.
  intros HN HA Hn Hdim Hpos Hfixed Hcool.
  split; [|split; [intros; by apply layout_skips_rescale
                  |intros; by apply layout_rescales]].
  assert (Hne : fixed <> []).
  { intros ->. specialize (Hfixed 0 Hn). by apply elem_of_nil in Hfixed. }
  rewrite (layout_skips_rescale _ _ _ _ _ _ _ _ _ Hne).
  unfold simulate, initial_positions.
  assert (exists m, np_max (concat pos) = Ok m) as [m ->].
  { destruct Hpos as [Hl HF]. destruct pos as [|r pos]; [simpl in Hl; lia|].
    apply Forall_cons in HF as [Hr _]. destruct r as [|x r]; [simpl in Hr; lia|].
    by eexists. }
  cbn [mbind result_bind]. rewrite HN.
  rewrite (assign_rows_all dim n pos) by
    (done || by rewrite length_map, length_random_uniform).
  cbn [mbind result_bind].
  assert (exists k0,
    match k with
    | Some k0 => Some k0
    | None =>
        if 0 <? length fixed
        then Some (F64.div m (F64.sqrt (F64.of_Z (Z.of_nat n))))
        else None
    end = Some k0) as [k0 ->].
  { destruct k; [by eexists|]. destruct fixed; [done|]. by eexists. }
  by apply sparse_all_fixed.
Qed.

(** Two nodes, both fixed, with the default 50 iterations. *)
Lemma spring_layout_all_fixed_on_edge :
  exists coords,
    _fruchterman_reingold_layout (fun _ => F64.half) G_edge 2 None
      (Some [[F64.zero; F64.one]; [F64.two; F64.one]]) [0; 1] 50 F64.one None
      = Ok coords /\
    has_shape 2 2 coords /\
    Forall2 (Forall2 F64.same_number) coords [[F64.zero; F64.one]; [F64.two; F64.one]].
Proof.
  refine (proj1 (spring_layout_all_fixed (fun _ => F64.half) G_edge 2 None
            [[F64.zero; F64.one]; [F64.two; F64.one]] [0; 1] 50 F64.one None 2
            _ _ _ _ _ _ _)).
  - reflexivity.
  - reflexivity.
  - lia.
  - lia.
  - apply has_shape_check. reflexivity.
  - intros i Hi. destruct i as [|[|i]]; [set_solver|set_solver|lia].
  - vm_compute. reflexivity.
Defined.

(** ** Dividing by one, subtracting from itself *)


(** A valid finite double is normal, with a mantissa of 53 bits, or has the
    least exponent. *)
Lemma valid_finite_cases s m e :
  F64.valid (S754_finite s m e) = true ->
  (e <= 971)%Z /\
  ((-1074 < e)%Z /\ Z.pos (digits2_pos m) = 53%Z \/
   e = (-1074)%Z /\ (Z.pos (digits2_pos m) <= 53)%Z).
Proof.
  unfold F64.valid, valid_binary, bounded, canonical_mantissa, fexp, emin,
    F64.prec, F64.emax.
  intros [Hc He]%andb_prop. apply Z.eqb_eq in Hc. apply Z.leb_le in He.
  split; [done|]. lia.
Qed.


(** [x - x] is [+0.0] for a finite [x]. *)
Lemma sub_diag x : F64.is_finite x = true -> F64.sub x x = F64.zero.
Proof.
  destruct x as [[]| | |s m e]; try done. intros _.
  unfold F64.sub, SFsub. by rewrite Z.sub_diag.
Qed.


Lemma add_nan_l x : F64.add S754_nan x = S754_nan.
Proof. done. Qed.

(** ** C1: zero iterations *)






(** ** C9: rescaling by a zero limit *)






Lemma length_layout_center dim center : length (layout_center dim center) = dim.
Proof.
  unfold layout_center. destruct (length _ =? dim) eqn:H; simpl.
  - by apply Nat.eqb_eq in H.
  - by rewrite length_replicate.
Qed.













(** The same on a graph that the constructor builds: two nodes placed on
    the same point, no iteration. *)
Lemma rescale_layout_coinciding_nodes :
  _fruchterman_reingold_layout (fun _ => F64.half) G_edge 2 None
    (Some [[F64.half; F64.half]; [F64.half; F64.half]]) [] 0 F64.one None
  = Ok [[S754_nan; S754_nan]; [S754_nan; S754_nan]].
Proof. vm_compute. reflexivity. Qed.

(** ** Traversals *)

(** The nodes not visited yet: [np.nonzero(~visited)[0]] as a set. *)
Definition unvisited (visited : list bool) : gset nat :=
  list_to_set (find_indices negb visited 0).

Lemma elem_of_unvisited visited i :
  i ∈ unvisited visited <-> visited !! i = Some false.
Proof.
  unfold unvisited. rewrite elem_of_list_to_set, elem_of_find_indices, Nat.sub_0_r.
  split.
  - intros (_ & b & Hb & Hn). by destruct b.
  - intros Hi. split; [lia|]. by exists false.
Qed.

Lemma unvisited_insert visited v :
  unvisited (<[v := true]> visited) = unvisited visited ∖ {[ v ]}.
Proof.
  apply set_eq. intros i.
  rewrite elem_of_difference, !elem_of_unvisited, elem_of_singleton.
  destruct (decide (i = v)) as [->|Hne].
  - split; [|by intros [_ ?]]. intros Hv.
    apply list_lookup_insert_Some in Hv as [(_ & ? & _)|[? _]]; done.
  - rewrite list_lookup_insert_ne by done. tauto.
Qed.

Lemma size_unvisited_insert visited v :
  visited !! v = Some false ->
  S (size (unvisited (<[v := true]> visited))) = size (unvisited visited).
Proof.
  intros Hv. apply elem_of_unvisited in Hv. rewrite unvisited_insert.
  rewrite (union_difference_singleton_L v (unvisited visited) Hv) at 2.
  pose proof (size_union ({[v]} : gset nat) (unvisited visited ∖ {[v]})) as Hsize.
  rewrite Hsize by set_solver. by rewrite size_singleton.
Qed.

Lemma unvisited_empty_all visited :
  unvisited visited = ∅ -> forallb id visited = true.
Proof.
  intros He. apply forallb_forall. intros b Hb.
  apply list_elem_of_In, list_elem_of_lookup in Hb as [i Hi].
  destruct b; [done|]. apply elem_of_unvisited in Hi. set_solver.
Qed.

Lemma unvisited_replicate n : unvisited (replicate n false) = list_to_set (seq 0 n).
Proof.
  unfold unvisited. f_equal. generalize 0.
  induction n as [|n IH]; intros s; [done|]. simpl. by rewrite IH.
Qed.

Lemma unvisited_neighbours_spec n (adj : matrix bool) v visited :
  has_shape n n adj -> v < n -> length visited = n ->
  exists new,
    unvisited_neighbours adj v visited = Ok new /\
    forall idx, idx ∈ new -> visited !! idx = Some false.
Proof.
  intros Hadj Hv Hlen. unfold unvisited_neighbours.
  destruct (lookup_lt_is_Some_2 adj v) as [row Hrow]; [destruct Hadj; lia|].
  assert (getitem adj v = Ok row) as -> by (unfold getitem; by rewrite Hrow).
  cbn [mbind result_bind].
  pose proof (has_shape_lookup _ _ _ _ _ Hadj Hrow) as Hlr.
  set (f := fun idx : nat => getitem visited idx ≫= fun b : bool => Ok (negb b)).
  destruct (mapR_total f (find_indices id row 0)) as [keep Hkeep].
  { apply Forall_forall. intros idx (_ & x & Hx & _)%elem_of_find_indices.
    apply lookup_lt_Some in Hx.
    destruct (lookup_lt_is_Some_2 visited idx) as [b Hb]; [lia|].
    exists (negb b). unfold f, getitem. by rewrite Hb. }
  rewrite Hkeep. cbn [mbind result_bind]. eexists. split; [done|].
  intros idx Hidx. apply mapR_Ok in Hkeep.
  apply list_elem_of_fmap in Hidx as ([idx' b] & -> & Hin).
  apply list_elem_of_filter in Hin as [Hb Hin]. simpl in Hb. subst b.
  apply list_elem_of_lookup in Hin as [i Hi].
  apply lookup_zip_Some in Hi as [Hi1 Hi2].
  pose proof (Forall2_lookup_lr _ _ _ _ _ _ Hkeep Hi1 Hi2) as Hf.
  unfold f, getitem in Hf. simpl.
  destruct (visited !! idx') as [[]|]; done.
Qed.

(** The traversal of [is_connected] ends: every pop visits a node. *)
Lemma connected_loop_ends choice n (adj : matrix bool) :
  has_shape n n adj ->
  forall fuel clock visited (stack : gset nat),
    length visited = n ->
    stack ⊆ unvisited visited ->
    size (unvisited visited) < fuel ->
    exists visited' clock',
      connected_loop choice fuel adj clock visited stack = Ok (visited', clock') /\
      length visited' = n.
Proof.
  intros Hadj. induction fuel as [|fuel IH]; intros clock visited stack Hlen Hsub Hfuel;
    [lia|].
  cbn [connected_loop].
  destruct (set_pop choice clock stack) as [[v stack']|] eqn:Hpop; [|by eauto].
  apply set_pop_Some in Hpop as [Hv ->].
  pose proof (Hsub v Hv) as Hun. apply elem_of_unvisited in Hun.
  unfold getitem. rewrite Hun. cbn [mbind result_bind negb].
  destruct (unvisited_neighbours_spec n adj v (<[v := true]> visited))
    as (new & -> & Hnew); [done|apply lookup_lt_Some in Hun; lia|by rewrite length_insert|].
  cbn [mbind result_bind].
  apply IH.
  - by rewrite length_insert.
  - rewrite unvisited_insert. intros i [[Hi Hne]%elem_of_difference|Hi%elem_of_list_to_set]%elem_of_union.
    + apply elem_of_difference. split; [by apply Hsub|done].
    + rewrite <- unvisited_insert. by apply elem_of_unvisited, Hnew.
  - pose proof (size_unvisited_insert visited v Hun). lia.
Qed.

(** The traversal of [extract_components], started as the code starts it,
    from the set of all the unvisited nodes: it visits every one of them and
    puts them all in the component. *)
Lemma component_loop_takes_all choice n (adj : matrix bool) :
  has_shape n n adj ->
  forall fuel clock visited (stack : gset nat) comp,
    length visited = n ->
    stack = unvisited visited ->
    size stack < fuel ->
    exists visited' comp' clock',
      component_loop choice fuel adj clock visited stack comp
        = Ok (visited', comp', clock') /\
      length visited' = n /\
      unvisited visited' = ∅ /\
      comp' ≡ₚ comp ++ elements stack.
Proof.
  intros Hadj. induction fuel as [|fuel IH];
    intros clock visited stack comp Hlen Hstack Hfuel; [lia|].
  cbn [component_loop].
  destruct (set_pop choice clock stack) as [[v stack']|] eqn:Hpop.
  - apply set_pop_Some in Hpop as [Hv ->].
    pose proof Hv as Hun. rewrite Hstack in Hun. apply elem_of_unvisited in Hun.
    unfold getitem. rewrite Hun. cbn [mbind result_bind negb].
    destruct (unvisited_neighbours_spec n adj v (<[v := true]> visited))
      as (new & -> & Hnew);
      [done|apply lookup_lt_Some in Hun; lia|by rewrite length_insert|].
    cbn [mbind result_bind].
    assert (Hstack' : stack ∖ {[v]} ∪ list_to_set new = unvisited (<[v := true]> visited)).
    { rewrite unvisited_insert, <- Hstack. apply set_eq. intros i.
      rewrite elem_of_union, elem_of_list_to_set. split; [|by left].
      intros [Hi|Hi]; [done|].
      rewrite Hstack, <- unvisited_insert. by apply elem_of_unvisited, Hnew. }
    destruct (IH (S clock) (<[v := true]> visited)
                 (stack ∖ {[v]} ∪ list_to_set new) (comp ++ [v]))
      as (visited' & comp' & clock' & -> & Hlen' & Hall & Hperm).
    + by rewrite length_insert.
    + done.
    + rewrite Hstack'. pose proof (size_unvisited_insert visited v Hun).
      rewrite Hstack in Hfuel. lia.
    + exists visited', comp', clock'. repeat split; try done.
      rewrite Hperm, Hstack', unvisited_insert, <- Hstack, <- app_assoc.
      apply Permutation_app_head.
      rewrite (union_difference_singleton_L v stack Hv) at 2.
      symmetry. apply elements_union_singleton. set_solver.
  - apply set_pop_None in Hpop. subst stack. rewrite Hpop.
    exists visited, comp, clock. repeat split; try done.
    by rewrite elements_empty, app_nil_r.
Qed.

Lemma size_unvisited visited : size (unvisited visited) ≤ length visited.
Proof.
  pose proof (subseteq_size (unvisited visited) (set_seq 0 (length visited) : gset nat))
    as Hsub.
  pose proof (size_set_seq (C := gset nat) 0 (length visited)) as Hseq.
  rewrite Hseq in Hsub. apply Hsub. intros i Hi%elem_of_unvisited.
  apply elem_of_set_seq. apply lookup_lt_Some in Hi. lia.
Qed.

(** The loop of [is_connected] over its adjacency matrices ends with an
    answer. *)
Lemma connected_for_ends choice n (mats : list (matrix bool)) clock :
  0 < n ->
  Forall (has_shape n n) mats ->
  exists r, connected_for choice n mats clock = Ok r.
Proof.
  intros Hn Hmats. revert clock.
  induction Hmats as [|adj mats Hadj _ IH]; intros clock; [by eexists|].
  cbn [connected_for].
  destruct (connected_loop_ends choice n adj Hadj (traversal_fuel n) clock
              (replicate n false) {[ 0 ]}) as (visited & clock' & -> & _).
  - by rewrite length_replicate.
  - intros i ->%elem_of_singleton. apply elem_of_unvisited.
    by apply lookup_replicate_2.
  - pose proof (size_unvisited (replicate n false)) as Hs.
    rewrite length_replicate in Hs. unfold traversal_fuel. nia.
  - cbn [mbind result_bind]. destruct (negb _); [by eexists|]. apply IH.
Qed.

(** The adjacency matrix of a weight matrix, [W > 0]. *)
Definition adjacency (w : matrix float) : matrix bool :=
  map (map (fun x => F64.gtb x F64.zero)) w.

(** The constructor succeeds on a square weight matrix of two nodes or
    more, with the combinatorial Laplacian, and records the weights, their
    adjacency and their count. *)
Lemma init_succeeds choice np_power (w : matrix float) n gtype coords checks :
  has_shape n n w -> 2 ≤ n ->
  exists G,
    __init__ choice np_power w gtype "combinatorial" coords checks = Ok G /\
    N G = n /\ W G = w /\ A G = adjacency w /\ Ne G = nnz w /\
    info_orig_idx G = None /\
    _directed G =
      Some (F64.neqb (ftotal (map (map F64.abs) (fmsub w (transpose w)))) F64.zero).
Proof.
  intros Hw Hn. unfold __init__.
  rewrite (shape_has_shape n n w Hw) by lia. cbn [fst snd].
  rewrite Nat.eqb_refl. cbn [negb].
  destruct (n =? 1) eqn:Hn1; [apply Nat.eqb_eq in Hn1; lia|].
  set (self0 := {| N := n; W := w |}).
  set (b := F64.neqb (ftotal (map (map F64.abs) (fmsub w (transpose w)))) F64.zero).
  assert (Hd0 : is_directed false self0 = (Ok b, set_directed b self0)).
  { unfold is_directed. cbn [cached _directed self0 W].
    rewrite (shape_has_shape n n w Hw) by lia. cbn [fst snd].
    by rewrite Nat.eqb_refl. }
  assert (exists Lm, compute_laplacian np_power "combinatorial" self0
            = (Ok tt, set_L Lm (set_lap_type "combinatorial" (set_directed b self0))))
    as [Lm ->].
  { unfold compute_laplacian. simpl.
    unfold mbind, method_bind, modify. simpl.
    rewrite is_directed_set_lap_type, Hd0. unfold get. simpl.
    destruct b; by eexists. }
  set (self1 := set_L Lm _).
  destruct checks; [|by exists self1].
  assert (exists r, is_connected choice false self1 = (Ok r, set_connected r self1))
    as [r ->]; [|by eexists].
  unfold is_connected. cbn [cached _connected self1 set_L set_directed set_lap_type self0 A].
  fold (adjacency w).
  assert (HA : has_shape n n (adjacency w)) by by apply has_shape_map.
  rewrite (shape_has_shape n n _ HA) by lia. cbn [fst snd].
  rewrite Nat.eqb_refl. cbn [negb].
  unfold mbind at 1, method_bind at 1.
  assert (is_directed false self1 = (Ok b, self1)) as -> by done.
  destruct (connected_for_ends choice n
              (if b then [adjacency w; transpose (adjacency w)] else [adjacency w]) 0)
    as [r Hr]; [lia| |].
  { destruct b; repeat (apply Forall_cons; split);
      auto using has_shape_transpose, Forall_nil_2. }
  exists r. unfold mbind, method_bind, lift. rewrite Hr. done.
Qed.

(** ** C7: the components *)

Lemma mapR_getitem_seq {T : Type} (l : list T) :
  mapR (getitem l) (seq 0 (length l)) = Ok l.
Proof.
  apply mapR_Ok. apply Forall2_same_length_lookup.
  split; [by rewrite length_seq|].
  intros i x y Hx Hy. apply lookup_seq in Hx as [-> _].
  unfold getitem. change (0 + i) with i. by rewrite Hy.
Qed.

Lemma mapR_fixed {T : Type} (f : T -> result T) (l : list T) :
  Forall (fun x => f x = Ok x) l -> mapR f l = Ok l.
Proof.
  intros Hl. apply mapR_Ok. induction Hl; by constructor.
Qed.

Lemma select_all {T : Type} n (M : matrix T) :
  has_shape n n M -> select (seq 0 n) M = Ok M.
Proof.
  intros [Hl HF]. unfold select. rewrite <- Hl at 1.
  rewrite mapR_getitem_seq. cbn [mbind result_bind].
  apply mapR_fixed. eapply Forall_impl; [exact HF|].
  intros r Hr. simpl in Hr. rewrite <- Hr. apply mapR_getitem_seq.
Qed.

Lemma StronglySorted_seq s n : StronglySorted le (seq s n).
Proof.
  revert s. induction n as [|n IH]; intros s; simpl; constructor; [done|].
  apply Forall_forall. intros i Hi%list_elem_of_In%in_seq. lia.
Qed.

Lemma sorted_all_nodes comp n : comp ≡ₚ seq 0 n -> merge_sort le comp = seq 0 n.
Proof.
  intros Hperm. apply (StronglySorted_unique le).
  - apply StronglySorted_merge_sort; apply _.
  - apply StronglySorted_seq.
  - by rewrite merge_sort_Permutation.
Qed.

(** What [extract_components] returns on an undirected graph of two nodes
    or more: one subgraph, on all the nodes, whatever the edges are.  The
    stack of the first traversal is seeded with every unvisited node, so the
    traversal takes them all. *)
Lemma extract_components_single choice np_power self n :
  2 ≤ n ->
  has_shape n n (W self) ->
  A self = adjacency (W self) ->
  undirected self ->
  exists G1,
    (extract_components choice np_power self).1 = Ok (Some [G1]) /\
    info_orig_idx G1 = Some (seq 0 n) /\ N G1 = n /\ W G1 = W self.
Proof.
  intros Hn Hw HA Hund. unfold undirected in Hund.
  assert (Hadj : has_shape n n (A self)) by (rewrite HA; by apply has_shape_map).
  unfold extract_components.
  rewrite (shape_has_shape n n _ Hadj) by lia. cbn [fst snd].
  rewrite Nat.eqb_refl. cbn [negb]. unfold mbind, method_bind.
  destruct (is_directed false self) as [res self']. simpl in Hund. subst res.
  unfold lift.
  assert (exists G1, components_while choice np_power (S n) self 0 (replicate n false) []
                     = Ok [G1] /\
                     info_orig_idx G1 = Some (seq 0 n) /\ N G1 = n /\ W G1 = W self)
    as (G1 & -> & HG1); [|by exists G1].
  cbn [components_while].
  assert (forallb id (replicate n false) = false) as ->.
  { destruct n as [|n']; [lia|done]. }
  fold (unvisited (replicate n false)). rewrite length_replicate.
  destruct (component_loop_takes_all choice n (A self) Hadj (traversal_fuel n) 0
              (replicate n false) (unvisited (replicate n false)) [])
    as (visited & comp & clock & -> & Hlen & Hall & Hperm).
  { by rewrite length_replicate. }
  { done. }
  { pose proof (size_unvisited (replicate n false)) as Hs.
    rewrite length_replicate in Hs. unfold traversal_fuel. nia. }
  cbn [mbind result_bind].
  assert (merge_sort le comp = seq 0 n) as ->.
  { apply sorted_all_nodes. rewrite Hperm, app_nil_l, unvisited_replicate.
    apply elements_list_to_set, NoDup_seq. }
  unfold subgraph. rewrite (select_all n (W self) Hw). cbn [mbind result_bind].
  destruct (init_succeeds choice np_power (W self) n ("sub-" +:+ gtype self) None true
              Hw Hn) as (G1 & -> & HN & HW & _).
  cbn [mbind result_bind].
  destruct n as [|n']; [lia|]. cbn [components_while].
  rewrite (unvisited_empty_all visited Hall).
  exists (set_info (seq 0 (S n')) G1). done.
Qed.

(** C7 (the code at the failing input). On the graph of two disjoint cliques
    of sizes 3 and 2, an undirected graph that the constructor builds,
    [extract_components] returns one subgraph, not two: its [orig_idx] is
    [0, 1, 2, 3, 4] and it has all 5 nodes, whichever element each
    [set.pop] takes. *)
Theorem extract_components_merges_cliques
    (choice : nat -> nat) (np_power : float -> float -> float) :
  exists G G1,
    __init__ choice np_power W_cliques "unknown" "combinatorial" None true = Ok G /\
    undirected G /\
    (extract_components choice np_power G).1 = Ok (Some [G1]) /\
    info_orig_idx G1 = Some [0; 1; 2; 3; 4] /\
    N G1 = 5.
Proof.
  assert (Hw : has_shape 5 5 W_cliques) by (apply has_shape_check; reflexivity).
  destruct (init_succeeds choice np_power W_cliques 5 "unknown" None true Hw)
    as (G & HG & HN & HW & HA & _ & _ & Hd); [lia|].
  assert (Hund : undirected G).
  { unfold undirected, is_directed. rewrite Hd. reflexivity. }
  destruct (extract_components_single choice np_power G 5) as (G1 & HG1 & Hinfo & HN1 & _);
    [lia|by rewrite HW|by rewrite HA, HW|done|].
  by exists G, G1.
Qed.

(** * Directedness: the sign of [sum(|W - W^T|)]

    The sum of [is_directed] adds terms that are zero, positive or NaN.
    Binary64 addition never rounds the sum of a positive term and of such a
    term down to zero, and the difference of two doubles that are not equal
    is not zero (gradual underflow). The lemmas below follow [SpecFloat]'s
    rounding to state this. *)
Section FloatOrder.
Local Open Scope Z_scope.

Lemma digits2_pos_lower (m : positive) :
  2 ^ (Z.pos (digits2_pos m) - 1) <= Z.pos m.
Proof.
  induction m as [m IH|m IH|]; simpl digits2_pos.
  - rewrite Pos2Z.inj_succ. replace (Z.succ (Z.pos (digits2_pos m)) - 1)
      with (Z.succ (Z.pos (digits2_pos m) - 1)) by lia.
    rewrite Z.pow_succ_r by lia. lia.
  - rewrite Pos2Z.inj_succ. replace (Z.succ (Z.pos (digits2_pos m)) - 1)
      with (Z.succ (Z.pos (digits2_pos m) - 1)) by lia.
    rewrite Z.pow_succ_r by lia. lia.
  - done.
Qed.

Lemma shr_1_m rec : 0 <= shr_m rec -> shr_m (shr_1 rec) = shr_m rec / 2.
Proof.
  destruct rec as [m r s]. simpl. intros Hm.
  destruct m as [|[p|p|]|p]; simpl shr_m.
  - reflexivity.
  - apply Z.div_unique with 1; lia.
  - apply Z.div_unique with 0; lia.
  - reflexivity.
  - lia.
Qed.

Lemma iter_shr_1_m (p : positive) rec :
  0 <= shr_m rec ->
  shr_m (SpecFloat.iter_pos shr_1 p rec) = shr_m rec / 2 ^ Z.pos p.
Proof.
  revert rec. induction p as [p IH|p IH|]; intros rec Hm; simpl SpecFloat.iter_pos.
  - assert (H1 : 0 <= shr_m (shr_1 rec)) by (rewrite shr_1_m by done; apply Z.div_pos; lia).
    assert (H2 : 0 <= shr_m (SpecFloat.iter_pos shr_1 p (shr_1 rec))).
    { rewrite IH by done. apply Z.div_pos; lia. }
    rewrite IH, IH, shr_1_m by done.
    rewrite !Z.div_div by lia. f_equal.
    rewrite Pos2Z.inj_xI, Z.pow_add_r, Z.pow_mul_r by lia.
    change (2 ^ 2) with 4. rewrite <- Z.pow_add_r by lia.
    replace (Z.pos p + Z.pos p) with (2 * Z.pos p) by lia.
    rewrite Z.pow_mul_r by lia. change (2 ^ 2) with 4. lia.
  - assert (H2 : 0 <= shr_m (SpecFloat.iter_pos shr_1 p rec)).
    { rewrite IH by done. apply Z.div_pos; lia. }
    rewrite IH, IH by done. rewrite Z.div_div by lia. f_equal.
    rewrite Pos2Z.inj_xO, <- Z.pow_add_r by lia. f_equal. lia.
  - rewrite shr_1_m by done. done.
Qed.

(** Rounding a positive mantissa at an exponent no less than emin: the
    mantissa stays positive and the exponent above emin. *)
Lemma shr_fexp_positive (m : positive) e l :
  -1074 <= e ->
  exists m' r s e',
    shr_fexp 53 1024 (Z.pos m) e l =
      ({| shr_m := Z.pos m'; shr_r := r; shr_s := s |}, e') /\ -1074 <= e'.
Proof.
  intros He. unfold shr_fexp, shr, Zdigits2, fexp, emin.
  set (d := Z.pos (digits2_pos m)).
  destruct (Z.max (d + e - 53) (3 - 1024 - 53) - e) as [|p|p] eqn:Hn.
  - destruct l as [|[]]; simpl; eauto 10.
  - pose proof (digits2_pos_lower m) as Hlow. fold d in Hlow.
    assert (Hp : Z.pos p = d - 53) by lia.
    set (rec := shr_record_of_loc (Z.pos m) l).
    assert (Hrec : shr_m rec = Z.pos m) by (unfold rec; by destruct l as [|[]]).
    pose proof (iter_shr_1_m p rec) as Hit. rewrite Hrec in Hit.
    specialize (Hit ltac:(lia)).
    assert (0 < Z.pos m / 2 ^ Z.pos p).
    { apply Z.div_str_pos. split; [lia|].
      etrans; [|exact Hlow]. apply Z.pow_le_mono_r; lia. }
    destruct (SpecFloat.iter_pos shr_1 p rec) as [m' r s]. simpl in Hit.
    destruct m' as [|m'|m']; try lia.
    exists m', r, s, (e + Z.pos p). split; [done|lia].
  - destruct l as [|[]]; simpl; eauto 10.
Qed.

(** A number that is not zero, with sign [s], at an exponent no less than
    emin; or the infinity of sign [s]. *)
Definition signed_above (s : bool) (x : float) : Prop :=
  match x with
  | S754_finite s' _ e => s' = s /\ -1074 <= e
  | S754_infinity s' => s' = s
  | _ => False
  end.

Lemma binary_round_aux_signed sx (m : positive) e l :
  -1074 <= e -> signed_above sx (binary_round_aux 53 1024 sx (Z.pos m) e l).
Proof.
  intros He. unfold binary_round_aux.
  destruct (shr_fexp_positive m e l He) as (m1 & r & s & e1 & -> & He1).
  cbn [shr_m].
  assert (exists m2, round_nearest_even (Z.pos m1)
            (loc_of_shr_record {| shr_m := Z.pos m1; shr_r := r; shr_s := s |})
            = Z.pos m2) as [m2 ->].
  { destruct r, s; unfold loc_of_shr_record, round_nearest_even.
    - by exists (m1 + 1)%positive.
    - destruct (Z.even (Z.pos m1)); [by exists m1|by exists (m1 + 1)%positive].
    - by exists m1.
    - by exists m1. }
  destruct (shr_fexp_positive m2 e1 loc_Exact He1) as (m3 & r3 & s3 & e3 & -> & He3).
  cbn [shr_m]. destruct (e3 <=? 1024 - 53); simpl; [by split|reflexivity].
Qed.

Lemma binary_round_signed sx (m : positive) e :
  -1074 <= e -> signed_above sx (binary_round 53 1024 sx m e).
Proof.
  intros He. unfold binary_round, shl_align, fexp, emin.
  destruct (Z.max (Z.pos (digits2_pos m) + e - 53) (3 - 1024 - 53) - e) eqn:Hd;
    apply binary_round_aux_signed; lia.
Qed.

Lemma binary_normalize_signed z e :
  z <> 0 -> -1074 <= e ->
  signed_above (z <? 0) (binary_normalize 53 1024 z e false).
Proof.
  intros Hz He. destruct z as [|m|m]; [done|..]; by apply binary_round_signed.
Qed.

(** Zero or positive, or NaN; and positive or NaN. *)
Definition nonneg_or_nan (x : float) : Prop :=
  x = S754_nan \/ F64.is_zero x = true \/ signed_above false x.
Definition positive_or_nan (x : float) : Prop :=
  x = S754_nan \/ signed_above false x.

Lemma positive_nonneg x : positive_or_nan x -> nonneg_or_nan x.
Proof. intros [?|?]; [by left|by right; right]. Qed.

Lemma positive_neq_zero x : positive_or_nan x -> F64.neqb x F64.zero = true.
Proof. intros [->|H]; [done|]. by destruct x as [|[]| |[] ? ?]; destruct H. Qed.

Lemma add_finite_positive ma ea mb eb :
  -1074 <= ea -> -1074 <= eb ->
  signed_above false (F64.add (S754_finite false ma ea) (S754_finite false mb eb)).
Proof.
  intros Ha Hb. unfold F64.add, SFadd. cbn [cond_Zopp].
  apply (binary_normalize_signed (Z.pos _ + Z.pos _)); lia.
Qed.

Lemma add_nonneg a b :
  nonneg_or_nan a -> nonneg_or_nan b ->
  nonneg_or_nan (F64.add a b) /\
  (positive_or_nan a \/ positive_or_nan b -> positive_or_nan (F64.add a b)).
Proof.
  unfold nonneg_or_nan, positive_or_nan. intros Ha Hb.
  destruct a as [[]|[]| |[] ma ea], b as [[]|[]| |[] mb eb];
    simpl in Ha, Hb;
    try (exfalso; clear -Ha; intuition (discriminate || lia); fail);
    try (exfalso; clear -Hb; intuition (discriminate || lia); fail);
    try (simpl; intuition (discriminate || auto); fail).
  assert (-1074 <= ea) by (clear -Ha; intuition (discriminate || lia)).
  assert (-1074 <= eb) by (clear -Hb; intuition (discriminate || lia)).
  pose proof (add_finite_positive ma ea mb eb). tauto.
Qed.

Lemma digits2_pos_upper (m : positive) :
  Z.pos m < 2 ^ Z.pos (digits2_pos m).
Proof.
  induction m as [m IH|m IH|]; simpl digits2_pos; [| |done];
    rewrite Pos2Z.inj_succ, Z.pow_succ_r by lia; lia.
Qed.

Lemma pos_iter_xO (m d : positive) :
  Z.pos (Pos.iter xO m d) = Z.pos m * 2 ^ Z.pos d.
Proof.
  induction d as [|d IH] using Pos.peano_ind.
  - simpl. lia.
  - rewrite Pos.iter_succ, Pos2Z.inj_succ, Z.pow_succ_r by lia.
    rewrite Pos2Z.inj_xO, IH. lia.
Qed.

Lemma shl_align_value (m : positive) e ez :
  ez <= e -> Z.pos (fst (shl_align m e ez)) = Z.pos m * 2 ^ (e - ez).
Proof.
  intros Hle. unfold shl_align. destruct (ez - e) as [|d|d] eqn:Hd; cbn [fst].
  - replace (e - ez) with 0 by lia. lia.
  - lia.
  - rewrite pos_iter_xO. f_equal. f_equal. lia.
Qed.

(** Two valid doubles of the same magnitude have the same mantissa and the
    same exponent. *)
Lemma valid_same_magnitude sx mx ex sy my ey :
  F64.valid (S754_finite sx mx ex) = true ->
  F64.valid (S754_finite sy my ey) = true ->
  Z.pos mx * 2 ^ (ex - Z.min ex ey) = Z.pos my * 2 ^ (ey - Z.min ex ey) ->
  mx = my /\ ex = ey.
Proof.
  intros (_ & Hx)%valid_finite_cases (_ & Hy)%valid_finite_cases Heq.
  pose proof (digits2_pos_lower mx). pose proof (digits2_pos_upper mx).
  pose proof (digits2_pos_lower my). pose proof (digits2_pos_upper my).
  set (dx := Z.pos (digits2_pos mx)) in *. set (dy := Z.pos (digits2_pos my)) in *.
  destruct (Z.lt_trichotomy ex ey) as [Hlt|[->|Hlt]].
  - exfalso. rewrite Z.min_l in Heq by lia. rewrite Z.sub_diag, Z.mul_1_r in Heq.
    assert (dy = 53) by lia. assert (dx <= 53) by lia.
    assert (2 ^ (dy - 1) * 2 ^ (ey - ex) <= Z.pos mx).
    { rewrite Heq. apply Z.mul_le_mono_nonneg_r; [apply Z.pow_nonneg|]; lia. }
    rewrite <- Z.pow_add_r in * by lia.
    assert (Hpow : 2 ^ (dy - 1 + (ey - ex)) < 2 ^ dx) by lia.
    apply Z.pow_lt_mono_r_iff in Hpow; lia.
  - rewrite Z.min_id, Z.sub_diag, !Z.mul_1_r in Heq. split; [lia|done].
  - exfalso. rewrite Z.min_r in Heq by lia. rewrite Z.sub_diag, Z.mul_1_r in Heq.
    assert (dx = 53) by lia. assert (dy <= 53) by lia.
    assert (2 ^ (dx - 1) * 2 ^ (ex - ey) <= Z.pos my).
    { rewrite <- Heq. apply Z.mul_le_mono_nonneg_r; [apply Z.pow_nonneg|]; lia. }
    rewrite <- Z.pow_add_r in * by lia.
    assert (Hpow : 2 ^ (dx - 1 + (ex - ey)) < 2 ^ dy) by lia.
    apply Z.pow_lt_mono_r_iff in Hpow; lia.
Qed.

Lemma eqb_finite_refl s m e : F64.eqb (S754_finite s m e) (S754_finite s m e) = true.
Proof.
  unfold F64.eqb, SFeqb, SFcompare.
  destruct s; rewrite Z.compare_refl, Pos.compare_cont_refl; done.
Qed.

Lemma valid_above s m e : F64.valid (S754_finite s m e) = true -> -1074 <= e.
Proof. intros (_ & H)%valid_finite_cases. lia. Qed.

(** The difference of two valid doubles that are not equal is not zero. *)
Lemma sub_finite_signed sx mx ex sy my ey :
  F64.valid (S754_finite sx mx ex) = true ->
  F64.valid (S754_finite sy my ey) = true ->
  F64.eqb (S754_finite sx mx ex) (S754_finite sy my ey) = false ->
  exists s, signed_above s (F64.sub (S754_finite sx mx ex) (S754_finite sy my ey)).
Proof.
  intros Hx Hy Hne. unfold F64.sub, SFsub.
  set (z := cond_Zopp sx _ - cond_Zopp sy _).
  exists (z <? 0). apply binary_normalize_signed.
  - unfold z. rewrite !shl_align_value by lia. intros Hz.
    destruct sx, sy; cbn [cond_Zopp] in Hz; try lia.
    + destruct (valid_same_magnitude true mx ex true my ey Hx Hy) as [-> ->]; [lia|].
      by rewrite eqb_finite_refl in Hne.
    + destruct (valid_same_magnitude false mx ex false my ey Hx Hy) as [-> ->]; [lia|].
      by rewrite eqb_finite_refl in Hne.
  - apply valid_above in Hx, Hy. lia.
Qed.

Lemma sub_finite_zero_or_signed sx mx ex sy my ey :
  F64.valid (S754_finite sx mx ex) = true ->
  F64.valid (S754_finite sy my ey) = true ->
  F64.is_zero (F64.sub (S754_finite sx mx ex) (S754_finite sy my ey)) = true \/
  exists s, signed_above s (F64.sub (S754_finite sx mx ex) (S754_finite sy my ey)).
Proof.
  intros Hx Hy. unfold F64.sub, SFsub.
  set (z := cond_Zopp sx _ - cond_Zopp sy _).
  destruct (decide (z = 0)) as [->|Hz]; [by left|].
  right. exists (z <? 0). apply binary_normalize_signed; [done|].
  apply valid_above in Hx, Hy. lia.
Qed.

Lemma abs_signed s x : signed_above s x -> signed_above false (F64.abs x).
Proof. destruct x; simpl; intuition. Qed.

(** [|x - y|] is zero, positive or NaN; it is positive or NaN when [x != y]. *)
Lemma abs_sub_nonneg x y :
  F64.valid x = true -> F64.valid y = true ->
  nonneg_or_nan (F64.abs (F64.sub x y)) /\
  (F64.eqb x y = false -> positive_or_nan (F64.abs (F64.sub x y))).
Proof.
  intros Hx Hy. unfold nonneg_or_nan, positive_or_nan.
  destruct x as [sx|sx| |sx mx ex], y as [sy|sy| |sy my ey];
    try (destruct sx, sy; simpl; intuition (discriminate || auto); fail);
    try (destruct sx; simpl; intuition (discriminate || auto); fail);
    try (destruct sy; simpl; intuition (discriminate || auto); fail);
    try (simpl; intuition (discriminate || auto); fail).
  - pose proof (valid_above _ _ _ Hy). simpl. intuition (discriminate || auto).
  - pose proof (valid_above _ _ _ Hx). simpl. intuition (discriminate || auto).
  - split.
    + destruct (sub_finite_zero_or_signed sx mx ex sy my ey Hx Hy) as [Hz|[s Hs]].
      * right. left. by destruct (F64.sub _ _).
      * right. right. by eapply abs_signed.
    + intros Hne. right.
      destruct (sub_finite_signed sx mx ex sy my ey Hx Hy Hne) as [s Hs].
      by eapply abs_signed.
Qed.

Lemma foldl_add_nonneg (l : list float) a :
  nonneg_or_nan a -> Forall nonneg_or_nan l ->
  nonneg_or_nan (foldl F64.add a l) /\
  (positive_or_nan a \/ Exists positive_or_nan l -> positive_or_nan (foldl F64.add a l)).
Proof.
  intros Ha Hl. revert a Ha. induction Hl as [|x l Hx _ IH]; intros a Ha.
  - split; [done|]. intros [?|?%Exists_nil]; done.
  - destruct (add_nonneg a x Ha Hx) as [Hn Hp]. cbn [foldl].
    destruct (IH (F64.add a x) Hn) as [Hn' Hp']. split; [done|].
    intros [Hpa|[Hpx|Hpl]%Exists_cons]; apply Hp'; auto.
Qed.

Lemma fsum_nonneg (l : list float) :
  Forall nonneg_or_nan l ->
  nonneg_or_nan (fsum l) /\ (Exists positive_or_nan l -> positive_or_nan (fsum l)).
Proof.
  intros Hl. destruct (foldl_add_nonneg l F64.zero) as [Hn Hp];
    [by right; left|done|].
  split; [done|]. intros He. apply Hp. by right.
Qed.

Lemma fsum_zeros (l : list float) :
  Forall (fun x => x = F64.zero) l -> fsum l = F64.zero.
Proof.
  unfold sum. induction 1 as [|x l -> _ IH]; [done|]. exact IH.
Qed.

Lemma eqb_finite_true sx mx ex sy my ey :
  F64.eqb (S754_finite sx mx ex) (S754_finite sy my ey) = true ->
  sx = sy /\ mx = my /\ ex = ey.
Proof.
  unfold F64.eqb, SFeqb, SFcompare.
  destruct sx, sy; try done;
    destruct (Z.compare_spec ex ey) as [->| |]; try done;
    destruct (Pos.compare_cont Eq mx my) eqn:Hm; try done;
    apply Pos.compare_eq in Hm; by subst.
Qed.

(** [|x - y|] is [+0.0] when [x == y] and both are finite. *)
Lemma abs_sub_equal x y :
  F64.is_finite x = true -> F64.is_finite y = true -> F64.eqb x y = true ->
  F64.abs (F64.sub x y) = F64.zero.
Proof.
  destruct x as [sx| | |sx mx ex], y as [sy| | |sy my ey]; try done.
  - by destruct sx, sy.
  - by destruct sy.
  - by destruct sx.
  - intros _ _ (-> & -> & ->)%eqb_finite_true. by rewrite sub_diag.
Qed.

End FloatOrder.

(** [|W - W^T|], the matrix that [is_directed] sums. *)
Definition asymmetry (w : matrix float) : matrix float :=
  map (map F64.abs) (fmsub w (transpose w)).

Definition valid_matrix (w : matrix float) : Prop :=
  Forall (Forall (fun x => F64.valid x = true)) w.

Lemma has_shape_asymmetry n w : has_shape n n w -> has_shape n n (asymmetry w).
Proof.
  intros Hw. apply has_shape_map, has_shape_zip_with; [done|].
  by apply has_shape_transpose.
Qed.

Lemma at_asymmetry n w i j :
  has_shape n n w -> i < n -> j < n ->
  at_ (asymmetry w) i j = F64.abs (F64.sub (at_ w i j) (at_ w j i)).
Proof.
  intros Hw Hi Hj. unfold at_ at 1, asymmetry, msub.
  rewrite entry_map, entry_zip_with, (entry_transpose n) by done.
  by rewrite (entry_at n n w i j), (entry_at n n w j i).
Qed.

Lemma valid_at n w i j :
  has_shape n n w -> valid_matrix w -> i < n -> j < n -> F64.valid (at_ w i j) = true.
Proof.
  intros Hw Hv Hi Hj. pose proof (entry_at n n w i j Hw Hi Hj) as He.
  unfold entry in He. destruct (w !! i) as [row|] eqn:Hrow; [|done].
  simpl in He. unfold valid_matrix in Hv. rewrite Forall_lookup in Hv.
  specialize (Hv _ _ Hrow). rewrite Forall_lookup in Hv. eauto.
Qed.

(** A property of every entry is a property of the matrix. *)
Lemma Forall_entries n (M : matrix float) (P : float -> Prop) :
  has_shape n n M ->
  (forall i j, i < n -> j < n -> P (at_ M i j)) ->
  Forall (Forall P) M.
Proof.
  intros HM HP. apply Forall_lookup. intros i row Hrow.
  apply Forall_lookup. intros j x Hx.
  assert (Hi : i < n) by (apply lookup_lt_Some in Hrow; destruct HM; lia).
  assert (Hj : j < n).
  { apply lookup_lt_Some in Hx. by rewrite (has_shape_lookup _ _ _ _ _ HM Hrow) in Hx. }
  specialize (HP i j Hi Hj). unfold at_, entry in HP. rewrite Hrow in HP.
  simpl in HP. by rewrite Hx in HP.
Qed.

Lemma shape_square n {T : Type} (M : matrix T) :
  has_shape n n M -> (shape M).2 = (shape M).1.
Proof.
  intros HM. destruct n as [|n].
  - destruct HM as [Hl _]. by destruct M.
  - by rewrite (shape_has_shape (S n) (S n) M HM) by lia.
Qed.

Lemma total_zero n (M : matrix float) :
  has_shape n n M ->
  (forall i j, i < n -> j < n -> at_ M i j = F64.zero) ->
  ftotal M = F64.zero.
Proof.
  intros HM Hz. unfold total. apply fsum_zeros.
  unfold row_sums. apply Forall_fmap.
  eapply Forall_impl; [exact (Forall_entries n M (fun x => x = F64.zero) HM Hz)|].
  intros row Hrow. simpl. by apply fsum_zeros.
Qed.

Lemma total_positive n (M : matrix float) i j :
  has_shape n n M ->
  (forall i j, i < n -> j < n -> nonneg_or_nan (at_ M i j)) ->
  i < n -> j < n -> positive_or_nan (at_ M i j) ->
  positive_or_nan (ftotal M).
Proof.
  intros HM Hn Hi Hj Hp. unfold total.
  pose proof (Forall_entries n M nonneg_or_nan HM Hn) as HF.
  apply fsum_nonneg.
  - unfold row_sums. apply Forall_fmap.
    eapply Forall_impl; [exact HF|]. intros row Hrow. simpl. by apply fsum_nonneg.
  - pose proof (entry_at n n M i j HM Hi Hj) as He. unfold entry in He.
    destruct (M !! i) as [row|] eqn:Hrow; [|done]. simpl in He.
    apply Exists_exists. exists (fsum row). split.
    + unfold row_sums. apply list_elem_of_fmap. exists row. split; [done|].
      by eapply list_elem_of_lookup_2.
    + rewrite Forall_lookup in HF. apply fsum_nonneg; [by eapply HF|].
      apply Exists_exists. exists (at_ M i j). split; [|done].
      by eapply list_elem_of_lookup_2.
Qed.





Section FloatBounds.
Local Open Scope Z_scope.

(** Zero, or a finite number of magnitude at most [2^K] at an exponent no
    less than emin. *)
Definition within (K : Z) (x : float) : Prop :=
  match x with
  | S754_zero _ => True
  | S754_finite _ m e => -1074 <= e /\ Z.pos m * 2 ^ (e + 1074) <= 2 ^ (K + 1074)
  | _ => False
  end.

Lemma within_finite K x : within K x -> F64.is_finite x = true.
Proof. by destruct x. Qed.

Lemma within_mono K K' x : K <= K' -> within K x -> within K' x.
Proof.
  intros HK. destruct x as [| | |s m e]; try done. intros [He Hm]. split; [done|].
  etrans; [exact Hm|]. apply Z.pow_le_mono_r; lia.
Qed.

Lemma iter_pos_iter {A : Type} (f : A -> A) (p : positive) (x : A) :
  SpecFloat.iter_pos f p x = Pos.iter f x p.
Proof.
  revert x. induction p as [p IH|p IH|]; intros x; simpl; [|by rewrite !IH|done].
  by rewrite !IH, <- !Pos.iter_swap.
Qed.

Lemma shr_1_r rec : 0 <= shr_m rec -> shr_r (shr_1 rec) = Z.odd (shr_m rec).
Proof. destruct rec as [[|[p|p|]|p] r s]; simpl; try done; lia. Qed.

(** The rounding bit after [p] shifts is bit [p - 1] of the mantissa. *)
Lemma iter_shr_1_r (p : positive) rec :
  0 <= shr_m rec ->
  shr_r (SpecFloat.iter_pos shr_1 p rec) = Z.odd (shr_m rec / 2 ^ (Z.pos p - 1)).
Proof.
  intros Hm. destruct (Pos.eq_dec p 1%positive) as [->|Hp].
  - simpl. rewrite shr_1_r by done. by rewrite Z.div_1_r.
  - rewrite <- (Pos.succ_pred p Hp) at 1. rewrite iter_pos_iter, Pos.iter_succ.
    rewrite <- iter_pos_iter, shr_1_r.
    + rewrite iter_shr_1_m by done. do 2 f_equal.
      rewrite Pos2Z.inj_pred by done. lia.
    + rewrite iter_shr_1_m by done. apply Z.div_pos; lia.
Qed.

(** [shr_fexp]: the exponent it reaches and the mantissa it leaves. *)
Lemma shr_fexp_value m e l :
  0 <= m ->
  exists rec e',
    shr_fexp 53 1024 m e l = (rec, e') /\
    e' = Z.max e (Z.max (Zdigits2 m + e - 53) (-1074)) /\
    shr_m rec = m / 2 ^ (e' - e) /\
    (e < e' -> l = loc_Exact -> shr_r rec = Z.odd (m / 2 ^ (e' - e - 1))).
Proof.
  intros Hm. unfold shr_fexp, shr, fexp, emin.
  set (d := Zdigits2 m).
  change (3 - 1024 - 53) with (-1074).
  destruct (Z.max (d + e - 53) (-1074) - e) as [|p|p] eqn:Hn.
  - eexists _, _. split; [done|]. split; [lia|]. split; [|lia].
    replace (e - e) with 0 by lia. rewrite Z.div_1_r. by destruct l as [|[]].
  - set (rec := shr_record_of_loc m l).
    assert (Hrec : shr_m rec = m) by (unfold rec; by destruct l as [|[]]).
    eexists _, _. split; [done|]. split; [lia|].
    replace (e + Z.pos p - e) with (Z.pos p) by lia.
    split.
    + by rewrite iter_shr_1_m, Hrec by lia.
    + intros _ ->. rewrite iter_shr_1_r by (rewrite Hrec; lia).
      rewrite Hrec. do 3 f_equal; lia.
  - eexists _, _. split; [done|]. split; [lia|]. split; [|lia].
    replace (e - e) with 0 by lia. rewrite Z.div_1_r. by destruct l as [|[]].
Qed.

Lemma round_nearest_even_bounds m l :
  m <= round_nearest_even m l <= m + 1.
Proof. destruct l as [|[]]; simpl; [lia| |lia|lia]. destruct (Z.even m); lia. Qed.

Lemma Zdigits2_bound m e K :
  0 <= m -> -1074 <= e -> e <= K ->
  m * 2 ^ (e + 1074) <= 2 ^ (K + 1074) -> Zdigits2 m + e - 53 <= K - 52.
Proof.
  intros Hm He HeK Hv. destruct m as [|p|p]; [simpl; lia| |lia].
  simpl Zdigits2. pose proof (digits2_pos_lower p) as Hlow.
  destruct (Z_lt_le_dec (K + 1) (Z.pos (digits2_pos p) + e)) as [Hlt|]; [|lia].
  exfalso.
  assert (2 ^ (K + 1 - e) <= Z.pos p).
  { etrans; [|exact Hlow]. apply Z.pow_le_mono_r; lia. }
  assert (2 ^ (K + 1 - e) * 2 ^ (e + 1074) <= Z.pos p * 2 ^ (e + 1074)).
  { apply Z.mul_le_mono_nonneg_r; [apply Z.pow_nonneg; lia|done]. }
  rewrite <- Z.pow_add_r in * by lia.
  replace (K + 1 - e + (e + 1074)) with (Z.succ (K + 1074)) in * by lia.
  rewrite Z.pow_succ_r in * by lia.
  assert (0 < 2 ^ (K + 1074)) by (apply Z.pow_pos_nonneg; lia). lia.
Qed.

Lemma div_pow_value m e e' :
  0 <= m -> -1074 <= e <= e' ->
  (m / 2 ^ (e' - e)) * 2 ^ (e' + 1074) <= m * 2 ^ (e + 1074).
Proof.
  intros Hm He.
  replace (e' + 1074) with ((e' - e) + (e + 1074)) by lia.
  rewrite Z.pow_add_r, Z.mul_assoc by lia.
  apply Z.mul_le_mono_nonneg_r; [apply Z.pow_nonneg; lia|].
  rewrite Z.mul_comm. apply Z.mul_div_le. apply Z.pow_pos_nonneg; lia.
Qed.

(** The exponent of a finite number is no less than [lo]. *)
Definition above (lo : Z) (x : float) : Prop :=
  match x with
  | S754_finite _ _ e => lo <= e <= 971
  | _ => True
  end.

(** The second half of [binary_round_aux]: after the mantissa is rounded. *)
Definition round_finish (s : bool) (m e : Z) : float :=
  let '(mrs, e') := shr_fexp 53 1024 m e loc_Exact in
  match shr_m mrs with
  | Z0 => S754_zero s
  | Zpos m => if e' <=? 1024 - 53 then S754_finite s m e' else S754_infinity s
  | _ => S754_nan
  end.

Lemma binary_round_aux_finish s m e l :
  binary_round_aux 53 1024 s m e l =
  round_finish s
    (round_nearest_even (shr_m (shr_fexp 53 1024 m e l).1)
                        (loc_of_shr_record (shr_fexp 53 1024 m e l).1))
    (shr_fexp 53 1024 m e l).2.
Proof. unfold binary_round_aux, round_finish. by destruct (shr_fexp 53 1024 m e l). Qed.

Lemma round_finish_within K s m e :
  0 <= m -> -1074 <= e <= 971 -> e <= K -> K <= 1023 ->
  m * 2 ^ (e + 1074) <= 2 ^ (K + 1074) ->
  within K (round_finish s m e) /\ above e (round_finish s m e).
Proof.
  intros Hm He HeK HK Hv. unfold round_finish.
  destruct (shr_fexp_value m e loc_Exact Hm) as (rec & e' & -> & He' & Hrec & _).
  pose proof (Zdigits2_bound m e K Hm ltac:(lia) HeK Hv) as Hd.
  assert (0 <= shr_m rec) by (rewrite Hrec; apply Z.div_pos; [lia|apply Z.pow_pos_nonneg; lia]).
  pose proof (div_pow_value m e e' Hm ltac:(lia)) as Hval. rewrite <- Hrec in Hval.
  destruct (shr_m rec) as [|m'|m'] eqn:Hm'; [done| |lia].
  destruct (Z.leb_spec e' (1024 - 53)); [|lia].
  simpl. split; [split|]; lia.
Qed.

(** Rounding a number below [2^K]: the result is at most [2^K]. *)
Lemma binary_round_aux_within K s m e l :
  0 <= m -> -1074 <= e <= 971 -> e <= K -> -1074 <= K <= 1023 ->
  m * 2 ^ (e + 1074) < 2 ^ (K + 1074) ->
  within K (binary_round_aux 53 1024 s m e l) /\ above e (binary_round_aux 53 1024 s m e l).
Proof.
  intros Hm He HeK HK Hv. rewrite binary_round_aux_finish.
  destruct (shr_fexp_value m e l Hm) as (rec & e' & -> & He' & Hrec & _).
  cbn [fst snd].
  pose proof (Zdigits2_bound m e K Hm ltac:(lia) HeK ltac:(lia)) as Hd.
  pose proof (round_nearest_even_bounds (shr_m rec) (loc_of_shr_record rec)) as Hr.
  assert (0 <= shr_m rec) by (rewrite Hrec; apply Z.div_pos; [lia|apply Z.pow_pos_nonneg; lia]).
  pose proof (div_pow_value m e e' Hm ltac:(lia)) as Hval. rewrite <- Hrec in Hval.
  set (m2 := round_nearest_even _ _) in *.
  assert (Hm2 : m2 * 2 ^ (e' + 1074) <= 2 ^ (K + 1074)).
  { assert (Hlt : shr_m rec * 2 ^ (e' + 1074) < 2 ^ (K + 1074)) by lia.
    assert (Hpow : 2 ^ (K + 1074) = 2 ^ (K - e') * 2 ^ (e' + 1074)).
    { rewrite <- Z.pow_add_r by lia. f_equal. lia. }
    rewrite Hpow in Hlt |- *.
    assert (0 < 2 ^ (e' + 1074)) by (apply Z.pow_pos_nonneg; lia).
    apply Z.mul_le_mono_nonneg_r; [lia|].
    apply Z.mul_lt_mono_pos_r in Hlt; [lia|done]. }
  destruct (round_finish_within K s m2 e') as [Hw Ha]; try lia.
  split; [done|]. destruct (round_finish s m2 e'); try done. simpl in *. lia.
Qed.

(** Rounding a number that exceeds [2^K] by less than a quarter of the
    spacing of the doubles there: the excess is rounded away. *)
Lemma binary_round_aux_absorb K s (m : positive) e :
  -1074 <= e <= 971 -> e <= K -> -1022 <= K <= 1023 ->
  Z.pos m * 2 ^ (e + 1074) * 2 ^ 54 <= 2 ^ (K + 1074) * (2 ^ 54 + 1) ->
  within K (binary_round_aux 53 1024 s (Z.pos m) e loc_Exact).
Proof.
  intros He HeK HK Hv.
  assert (HQ : 0 < 2 ^ (e + 1074)) by (apply Z.pow_pos_nonneg; lia).
  destruct (Z_lt_le_dec (Z.pos m * 2 ^ (e + 1074)) (2 ^ (K + 1074))) as [Hlt|Hge].
  { apply binary_round_aux_within; try done; lia. }
  assert (HKe : 2 ^ (K + 1074) = 2 ^ (K - e) * 2 ^ (e + 1074)).
  { rewrite <- Z.pow_add_r by lia. f_equal. lia. }
  assert (Hlow : 2 ^ (K - e) <= Z.pos m).
  { rewrite HKe in Hge. apply Z.mul_le_mono_pos_r in Hge; done. }
  assert (Hup : Z.pos m * 2 ^ 54 <= 2 ^ (K - e) * (2 ^ 54 + 1)).
  { rewrite HKe in Hv.
    replace (Z.pos m * 2 ^ (e + 1074) * 2 ^ 54)
      with (Z.pos m * 2 ^ 54 * 2 ^ (e + 1074)) in Hv by lia.
    replace (2 ^ (K - e) * 2 ^ (e + 1074) * (2 ^ 54 + 1))
      with (2 ^ (K - e) * (2 ^ 54 + 1) * 2 ^ (e + 1074)) in Hv by lia.
    apply Z.mul_le_mono_pos_r in Hv; done. }
  assert (HP : 0 < 2 ^ (K - e)) by (apply Z.pow_pos_nonneg; lia).
  assert (Hd : Z.pos (digits2_pos m) = K - e + 1).
  { pose proof (digits2_pos_lower m) as H1. pose proof (digits2_pos_upper m) as H2.
    assert (Hlt2 : Z.pos m < 2 ^ (K - e + 1)).
    { rewrite Z.pow_add_r by lia. change (2 ^ 1) with 2.
      change (2 ^ 54) with 18014398509481984 in Hup. lia. }
    assert (K - e < Z.pos (digits2_pos m)).
    { apply (Z.pow_lt_mono_r_iff 2); lia. }
    assert (Z.pos (digits2_pos m) - 1 < K - e + 1).
    { apply (Z.pow_lt_mono_r_iff 2); lia. }
    lia. }
  rewrite binary_round_aux_finish.
  destruct (shr_fexp_value (Z.pos m) e loc_Exact ltac:(lia))
    as (rec & e' & Hshr & He' & Hrec & Hr).
  rewrite Hshr. cbn [fst snd]. simpl Zdigits2 in He'. rewrite Hd in He'.
  destruct (Z_le_gt_dec (K - 52) e) as [Hno|Hshift].
  - (* no shift: the number is [2^K] itself *)
    assert (e' = e) by lia. clear He'. subst e'. rewrite Z.sub_diag in Hrec.
    change (2 ^ 0) with 1 in Hrec. rewrite Z.div_1_r in Hrec.
    assert (Hloc : round_nearest_even (shr_m rec) (loc_of_shr_record rec) = Z.pos m).
    { unfold shr_fexp, shr in Hshr.
      destruct (_ - e) eqn:Hn in Hshr.
      - by injection Hshr as <-.
      - unfold fexp, emin in Hn. simpl Zdigits2 in Hn. rewrite Hd in Hn. lia.
      - by injection Hshr as <-. }
    rewrite Hloc.
    assert (Hexact : Z.pos m = 2 ^ (K - e)).
    { assert (Ha : 2 ^ 52 = 2 ^ (K - e) * 2 ^ (e - (K - 52))).
      { rewrite <- Z.pow_add_r by lia. f_equal. lia. }
      assert (0 < 2 ^ (e - (K - 52))) by (apply Z.pow_pos_nonneg; lia).
      change (2 ^ 54) with (4 * 2 ^ 52) in Hup. nia. }
    apply round_finish_within; lia.
  - (* a shift: the mantissa is [2^52] and the rounding bit is clear *)
    assert (e' = K - 52) by lia. clear He'. subst e'.
    remember (K - 52 - e) as n eqn:Hndef.
    assert (Hn : 0 < n) by lia.
    assert (HPn : 2 ^ (K - e) = 2 ^ 52 * 2 ^ n).
    { rewrite <- Z.pow_add_r by lia. f_equal. lia. }
    assert (H2n : 2 ^ n = 2 * 2 ^ (n - 1)).
    { rewrite <- Z.pow_succ_r by lia. f_equal. lia. }
    assert (0 < 2 ^ (n - 1)) by (apply Z.pow_pos_nonneg; lia).
    remember (Z.pos m - 2 ^ 52 * 2 ^ n) as r0 eqn:Hr0def.
    assert (Hr0 : 0 <= r0 /\ 2 * r0 <= 2 ^ (n - 1)).
    { change (2 ^ 54) with (4 * 2 ^ 52) in Hup.
      change (2 ^ 52) with 4503599627370496 in *. nia. }
    assert (Hm1 : shr_m rec = 2 ^ 52).
    { rewrite Hrec. symmetry. apply (Z.div_unique_pos _ _ _ r0); lia. }
    assert (Hbit : shr_r rec = false).
    { rewrite (Hr ltac:(lia) eq_refl).
      replace (Z.pos m / 2 ^ (n - 1)) with (2 ^ 53); [done|].
      apply (Z.div_unique_pos _ _ _ r0); [lia|].
      change (2 ^ 53) with (2 * 2 ^ 52). lia. }
    assert (Hloc : round_nearest_even (shr_m rec) (loc_of_shr_record rec) = 2 ^ 52).
    { rewrite <- Hm1. destruct rec as [m1 [] []]; simpl in *; done. }
    rewrite Hloc.
    apply round_finish_within; try lia.
    rewrite <- Z.pow_add_r by lia. apply Z.pow_le_mono_r; lia.
Qed.

Lemma shl_align_spec (m : positive) e e2 :
  (shl_align m e e2).2 = Z.min e e2 /\
  Z.pos (shl_align m e e2).1 = Z.pos m * 2 ^ (e - Z.min e e2).
Proof.
  unfold shl_align. destruct (e2 - e) as [|d|d] eqn:Hd; cbn [fst snd].
  - replace (Z.min e e2) with e by lia. rewrite Z.sub_diag. lia.
  - replace (Z.min e e2) with e by lia. rewrite Z.sub_diag. lia.
  - replace (Z.min e e2) with e2 by lia. split; [done|].
    rewrite pos_iter_xO. do 2 f_equal. lia.
Qed.

Lemma shl_align_fexp_spec (m : positive) e :
  -1074 <= e ->
  let r := shl_align m e (fexp 53 1024 (Z.pos (digits2_pos m) + e)) in
  -1074 <= r.2 <= e /\ Z.min e (Z.pos (digits2_pos m) + e - 53) <= r.2 /\
  Z.pos r.1 * 2 ^ (r.2 + 1074) = Z.pos m * 2 ^ (e + 1074).
Proof.
  intros He r. destruct (shl_align_spec m e (fexp 53 1024 (Z.pos (digits2_pos m) + e)))
    as [H2 H1]. fold r in H1, H2.
  unfold fexp, emin in H2. change (3 - 1024 - 53) with (-1074) in H2.
  split; [lia|]. split; [lia|].
  rewrite H1, <- Z.mul_assoc, <- Z.pow_add_r by lia. do 2 f_equal.
  unfold fexp, emin. change (3 - 1024 - 53) with (-1074). lia.
Qed.

Lemma binary_round_within K s (m : positive) e :
  -1074 <= e <= 971 -> e <= K -> -1074 <= K <= 1023 ->
  Z.pos m * 2 ^ (e + 1074) < 2 ^ (K + 1074) ->
  within K (binary_round 53 1024 s m e) /\
  above (Z.min e (Z.pos (digits2_pos m) + e - 53)) (binary_round 53 1024 s m e).
Proof.
  intros He HeK HK Hv. unfold binary_round.
  destruct (shl_align_fexp_spec m e ltac:(lia)) as (H1 & H2 & H3).
  destruct (shl_align m e _) as [mz ez]. cbn [fst snd] in *.
  destruct (binary_round_aux_within K s (Z.pos mz) ez loc_Exact) as [Hw Ha]; try lia.
  split; [done|]. destruct (binary_round_aux _ _ _ _ _ _); try done. simpl in *. lia.
Qed.

Lemma binary_round_absorb K s (m : positive) e :
  -1074 <= e <= 971 -> e <= K -> -1022 <= K <= 1023 ->
  Z.pos m * 2 ^ (e + 1074) * 2 ^ 54 <= 2 ^ (K + 1074) * (2 ^ 54 + 1) ->
  within K (binary_round 53 1024 s m e).
Proof.
  intros He HeK HK Hv. unfold binary_round.
  destruct (shl_align_fexp_spec m e ltac:(lia)) as (H1 & H2 & H3).
  destruct (shl_align m e _) as [mz ez]. cbn [fst snd] in *.
  apply binary_round_aux_absorb; lia.
Qed.

(** [t - dt] stays within [2^K] when [dt] is small enough to be absorbed
    there. *)
Lemma sub_within K x y :
  -1020 <= K <= 971 -> within K x -> within (K - 54) y -> within K (F64.sub x y).
Proof.
  intros HK Hx Hy.
  destruct x as [sx| | |sx mx ex], y as [sy| | |sy my ey]; try done.
  - by destruct sx, sy.
  - apply (within_mono (K - 54) K (S754_finite (negb sy) my ey)); [lia|done].
  - destruct Hx as [Hex Hmx], Hy as [Hey Hmy].
    unfold F64.sub, SFsub.
    set (ez := Z.min ex ey).
    rewrite !shl_align_value by lia.
    set (X := Z.pos mx * 2 ^ (ex - ez)). set (Y := Z.pos my * 2 ^ (ey - ez)).
    assert (HQ : 0 < 2 ^ (ez + 1074)) by (apply Z.pow_pos_nonneg; lia).
    assert (HX : X * 2 ^ (ez + 1074) = Z.pos mx * 2 ^ (ex + 1074)).
    { unfold X. rewrite <- Z.mul_assoc, <- Z.pow_add_r by lia. do 2 f_equal. lia. }
    assert (HY : Y * 2 ^ (ez + 1074) = Z.pos my * 2 ^ (ey + 1074)).
    { unfold Y. rewrite <- Z.mul_assoc, <- Z.pow_add_r by lia. do 2 f_equal. lia. }
    assert (0 < X) by (unfold X; apply Z.mul_pos_pos; [lia|apply Z.pow_pos_nonneg; lia]).
    assert (0 < Y) by (unfold Y; apply Z.mul_pos_pos; [lia|apply Z.pow_pos_nonneg; lia]).
    assert (HKK : 2 ^ (K + 1074) = 2 ^ 54 * 2 ^ (K - 54 + 1074)).
    { rewrite <- Z.pow_add_r by lia. f_equal. lia. }
    assert (0 < 2 ^ (K - 54 + 1074)) by (apply Z.pow_pos_nonneg; lia).
    assert (HexK : ex <= K).
    { destruct (Z_le_gt_dec ex K); [done|]. exfalso.
      assert (2 ^ (K + 1074) < 2 ^ (ex + 1074)) by (apply Z.pow_lt_mono_r; lia).
      assert (2 ^ (ex + 1074) <= Z.pos mx * 2 ^ (ex + 1074)) by nia. lia. }
    clearbody X Y.
    set (z := cond_Zopp sx X - cond_Zopp sy Y).
    assert (Hz : Z.abs z <= X + Y) by (unfold z; destruct sx, sy; simpl; lia).
    assert (Hbound : Z.abs z * 2 ^ (ez + 1074) * 2 ^ 54
                     <= 2 ^ (K + 1074) * (2 ^ 54 + 1)).
    { assert (Z.abs z * 2 ^ (ez + 1074) <= (X + Y) * 2 ^ (ez + 1074)) by nia.
      change (2 ^ 54) with 18014398509481984 in *. lia. }
    clearbody z. unfold binary_normalize.
    destruct z as [|p|p]; [done|..]; apply binary_round_absorb; unfold ez; try lia;
      exact Hbound.
Qed.

(** The double of a positive integer below [2^1023]: a normal number. *)
Lemma of_Z_positive z :
  1 <= z < 2 ^ 1023 ->
  exists m e, F64.of_Z z = S754_finite false m e /\ -52 <= e <= 971.
Proof.
  intros Hz. unfold F64.of_Z, binary_normalize. destruct z as [|p|p]; try lia.
  pose proof (binary_round_signed false p 0 ltac:(lia)) as Hs.
  destruct (binary_round_within 1023 false p 0) as [Hw Ha]; try lia.
  unfold F64.prec, F64.emax.
  destruct (binary_round 53 1024 false p 0) as [| | |s m e]; try done.
  simpl in Hs, Ha. destruct Hs as [-> _]. exists m, e. split; [done|].
  pose proof (Pos2Z.is_pos (digits2_pos p)). lia.
Qed.

(** A quotient of doubles, bounded through the exponents. *)
Lemma div_within K sx (mx : positive) ex sy (my : positive) ey :
  -1074 <= ex - ey <= K -> -1074 <= K <= 971 ->
  Z.pos mx * 2 ^ (ex - ey + 1074) < 2 ^ (K + 1074) ->
  within K (F64.div (S754_finite sx mx ex) (S754_finite sy my ey)).
Proof.
  intros He HK Hv. unfold F64.div, SFdiv, SFdiv_core_binary.
  set (e' := Z.min _ (ex - ey)).
  assert (He' : -1074 <= e' <= ex - ey).
  { unfold e', fexp, emin, F64.prec, F64.emax. change (3 - 1024 - 53) with (-1074). lia. }
  set (s := ex - ey - e').
  set (m' := match s with Z0 => Z.pos mx | Zpos _ => Z.shiftl (Z.pos mx) s | Zneg _ => 0 end).
  assert (Hm' : m' = Z.pos mx * 2 ^ s).
  { unfold m'. destruct s as [|p|p] eqn:Hs; [lia| |lia].
    by rewrite Z.shiftl_mul_pow2. }
  pose proof (Z_div_mod m' (Z.pos my) ltac:(lia)) as Hdiv.
  destruct (Z.div_eucl m' (Z.pos my)) as [q r].
  assert (Hs : 0 <= s) by (unfold s; lia).
  assert (0 < 2 ^ s) by (apply Z.pow_pos_nonneg; lia).
  assert (Hq : 0 <= q <= m') by nia.
  apply binary_round_aux_within; try lia.
  assert (HQ : 0 < 2 ^ (e' + 1074)) by (apply Z.pow_pos_nonneg; lia).
  assert (m' * 2 ^ (e' + 1074) = Z.pos mx * 2 ^ (ex - ey + 1074)).
  { rewrite Hm', <- Z.mul_assoc, <- Z.pow_add_r by lia. do 2 f_equal. unfold s. lia. }
  nia.
Qed.

(** The step [dt = t / float(iterations + 1)] of the cooling. *)
Lemma cooling_step_within (iterations : nat) :
  Z.of_nat iterations + 1 < 2 ^ 1023 ->
  within 56 (F64.div F64.tenth (F64.of_Z (Z.of_nat iterations + 1))).
Proof.
  intros Hn.
  destruct (of_Z_positive (Z.of_nat iterations + 1)) as (m & e & -> & He); [lia|].
  apply (within_mono 50); [lia|]. unfold F64.tenth.
  apply div_within; [lia..|].
  assert (Hp : 2 ^ (-56 - e + 1074) <= 2 ^ 1070) by (apply Z.pow_le_mono_r; lia).
  assert (0 < 2 ^ (-56 - e + 1074)) by (apply Z.pow_pos_nonneg; lia).
  eapply Z.le_lt_trans; [apply Z.mul_le_mono_nonneg_l; [lia|exact Hp]|].
  by vm_compute.
Qed.

Lemma cooling_within (iterations j : nat) :
  Z.of_nat iterations + 1 < 2 ^ 1023 -> within 110 (cooling iterations j).
Proof.
  intros Hn. induction j as [|j IH].
  - split; [lia|]. apply Z.leb_le. by vm_compute.
  - change (cooling iterations (S j))
      with (F64.sub (cooling iterations j)
              (F64.div F64.tenth (F64.of_Z (Z.of_nat iterations + 1)))).
    apply sub_within; [lia|done|]. by apply cooling_step_within.
Qed.
End FloatBounds.

(** The temperatures are finite doubles. *)
Lemma cooling_finite (iterations : nat) :
  (Z.of_nat iterations + 1 < 2 ^ 1023)%Z ->
  cooling_ok iterations = true /\
  py_float (Z.of_nat iterations + 1) = Ok (F64.of_Z (Z.of_nat iterations + 1)) /\
  forall j, F64.is_finite (cooling iterations j) = true.
Proof.
  intros Hn.
  assert (Hall : forall j, F64.is_finite (cooling iterations j) = true).
  { intros j. by apply (within_finite 110), cooling_within. }
  assert (Hfin : F64.is_finite (F64.of_Z (Z.of_nat iterations + 1)) = true).
  { destruct (of_Z_positive (Z.of_nat iterations + 1)) as (m & e & -> & _); [lia|done]. }
  split; [|split; [|done]].
  - unfold cooling_ok. rewrite Hfin. apply forallb_forall. intros j _. apply Hall.
  - unfold py_float. by rewrite Hfin.
Qed.

(** X1. The cooling of the spring layout stays within the doubles: for every
    number of iterations below [2^1023 - 1] the conversion
    [float(iterations + 1)] succeeds and the temperature [t], which starts at
    [0.1] and loses [dt = 0.1 / float(iterations + 1)] at every iteration, is
    a finite double at every iteration, however many there are. *)
Theorem cooling_stays_finite (iterations : nat) :
  (Z.of_nat iterations + 1 < 2 ^ 1023)%Z ->
  cooling_ok iterations = true /\
  py_float (Z.of_nat iterations + 1) = Ok (F64.of_Z (Z.of_nat iterations + 1)) /\
  forall j, F64.is_finite (cooling iterations j) = true.
Proof. apply cooling_finite. Qed.

Lemma cooling_stays_finite_default :
  (Z.of_nat 50 + 1 < 2 ^ 1023)%Z /\
  cooling_ok 50 = true /\
  py_float (Z.of_nat 50 + 1) = Ok (F64.of_Z (Z.of_nat 50 + 1)) /\
  forall j, F64.is_finite (cooling 50 j) = true.
Proof.
  assert (H : (Z.of_nat 50 + 1 < 2 ^ 1023)%Z) by (by vm_compute).
  split; [exact H|]. exact (cooling_stays_finite 50 H).
Defined.

(** ** Symmetry, exactly *)

Lemma positive_not_zero x : positive_or_nan x -> F64.is_zero x = false.
Proof. intros [->|H]; [done|]. by destruct x. Qed.

Lemma nonneg_not_zero x :
  nonneg_or_nan x -> F64.is_zero x = false -> positive_or_nan x.
Proof. intros [?|[Hz|?]] Hnz; [by left|congruence|by right]. Qed.

(** [|x - y|] is a zero only if [x == y] and both are finite. *)
Lemma abs_sub_zero x y :
  F64.valid x = true -> F64.valid y = true ->
  F64.is_zero (F64.abs (F64.sub x y)) = true ->
  F64.is_finite x = true /\ F64.is_finite y = true /\ F64.eqb x y = true.
Proof.
  intros Hx Hy Hz.
  destruct (F64.eqb x y) eqn:He.
  - destruct x as [sx|sx| |sx mx ex], y as [sy|sy| |sy my ey]; try done.
    by destruct sx, sy.
  - destruct (abs_sub_nonneg x y Hx Hy) as [_ Hp].
    apply Hp, positive_not_zero in He. congruence.
Qed.

(** When [is_directed] computes [False]. *)
Lemma symmetric_iff (self : Graph) (n : nat) (recompute : bool) :
  has_shape n n (W self) ->
  valid_matrix (W self) ->
  cached (_directed self) recompute = None ->
  ((is_directed recompute self).1 = Ok false <->
   forall i j, i < n -> j < n ->
     F64.is_finite (at_ (W self) i j) = true /\
     F64.eqb (at_ (W self) i j) (at_ (W self) j i) = true).
Proof.
  intros Hw Hv Hcache.
  assert (Hres : (is_directed recompute self).1
                 = Ok (F64.neqb (ftotal (asymmetry (W self))) F64.zero)).
  { unfold is_directed. rewrite Hcache, (shape_square n _ Hw), Nat.eqb_refl. done. }
  pose proof (has_shape_asymmetry n _ Hw) as HM.
  assert (Hnn : forall i j, i < n -> j < n -> nonneg_or_nan (at_ (asymmetry (W self)) i j)).
  { intros i j Hi Hj. rewrite (at_asymmetry n) by done.
    apply abs_sub_nonneg; by apply (valid_at n). }
  rewrite Hres. split.
  - intros Hfalse i j Hi Hj.
    assert (Hz : F64.is_zero (at_ (asymmetry (W self)) i j) = true).
    { destruct (F64.is_zero _) eqn:Hnz; [done|]. exfalso.
      pose proof (total_positive n _ i j HM Hnn Hi Hj
                    (nonneg_not_zero _ (Hnn i j Hi Hj) Hnz)) as Hp.
      apply positive_neq_zero in Hp. congruence. }
    rewrite (at_asymmetry n) in Hz by done.
    apply abs_sub_zero in Hz; [tauto|by apply (valid_at n)..].
  - intros Hsym. do 2 f_equal.
    rewrite (total_zero n _ HM); [done|].
    intros i j Hi Hj. rewrite (at_asymmetry n) by done.
    destruct (Hsym i j Hi Hj) as [Hf He]. destruct (Hsym j i Hj Hi) as [Hf' _].
    by apply abs_sub_equal.
Qed.

(** X2. On a square matrix of doubles, [is_directed], when it computes its
    answer, returns [False] exactly when every weight is finite and
    [W[i, j] == W[j, i]] for every pair: a NaN or an infinite weight makes
    the graph directed, and no rounding of the sum hides or invents an
    asymmetry. *)
Theorem is_directed_false_iff (self : Graph) (n : nat) (recompute : bool) :
  has_shape n n (W self) ->
  valid_matrix (W self) ->
  cached (_directed self) recompute = None ->
  ((is_directed recompute self).1 = Ok false <->
   forall i j, i < n -> j < n ->
     F64.is_finite (at_ (W self) i j) = true /\
     F64.eqb (at_ (W self) i j) (at_ (W self) j i) = true).
Proof. apply symmetric_iff. Qed.

Lemma is_directed_false_iff_on_edge :
  has_shape 2 2 (W G_edge) /\ valid_matrix (W G_edge) /\
  cached (_directed G_edge) true = None /\
  ((is_directed true G_edge).1 = Ok false <->
   forall i j, i < 2 -> j < 2 ->
     F64.is_finite (at_ (W G_edge) i j) = true /\
     F64.eqb (at_ (W G_edge) i j) (at_ (W G_edge) j i) = true).
Proof.
  assert (He : has_shape 2 2 (W G_edge)) by (apply has_shape_check; reflexivity).
  assert (Hve : valid_matrix (W G_edge)) by (repeat constructor).
  split; [exact He|]. split; [exact Hve|]. split; [reflexivity|].
  exact (is_directed_false_iff G_edge 2 true He Hve eq_refl).
Defined.

(** ** The Laplacian is symmetric *)

(** [(0 - a) - b] and [(0 - b) - a] are the same double: the opposite of a
    double is exact, and the one rounding is that of [-(a + b)]. *)
Lemma sub_sub_comm a b :
  F64.sub (F64.sub F64.zero a) b = F64.sub (F64.sub F64.zero b) a.
Proof.
  destruct a as [sa|sa| |sa ma ea], b as [sb|sb| |sb mb eb];
    try (by destruct sa, sb); try (by destruct sa); try (by destruct sb); try done.
  unfold F64.sub, F64.zero. cbn [SFsub].
  rewrite (Z.min_comm eb ea). f_equal.
  destruct sa, sb; cbn [cond_Zopp negb]; lia.
Qed.

(** The opposites of two finite doubles that compare equal are the same
    number. *)
Lemma sub_zero_same x y :
  F64.valid x = true -> F64.valid y = true ->
  F64.is_finite x = true -> F64.eqb x y = true ->
  F64.same_number (F64.sub F64.zero x) (F64.sub F64.zero y).
Proof.
  intros Hx Hy Hf He.
  destruct x as [sx|sx| |sx mx ex], y as [sy|sy| |sy my ey];
    try done; try (by destruct sx, sy).
  apply eqb_finite_true in He as (-> & -> & ->). by left.
Qed.

(** The entries of the directed combinatorial Laplacian. *)
Lemma directed_laplacian_entries np_power self n :
  has_shape n n (W self) ->
  directed self ->
  exists Lm,
    L (compute_laplacian np_power "combinatorial" self).2 = Some Lm /\
    has_shape n n Lm /\ spec_directed_laplacian n (W self) Lm.
Proof.
  intros Hw Hdir. unfold directed in Hdir.
  unfold compute_laplacian. simpl.
  unfold mbind, method_bind, modify. simpl.
  rewrite is_directed_set_lap_type.
  destruct (is_directed false self) as [res self'] eqn:Hd.
  simpl in Hdir. subst res. simpl.
  pose proof (is_directed_W false self) as HW. rewrite Hd in HW. simpl in HW.
  unfold get. simpl. rewrite HW.
  eexists. split; [done|]. split.
  - apply has_shape_map. repeat apply has_shape_zip_with;
      auto using has_shape_diag_col_sums, has_shape_diag_row_sums, has_shape_transpose.
  - intros i j Hi Hj. unfold at_ at 1. unfold mscale.
    rewrite entry_map. unfold msub, madd. rewrite !entry_zip_with.
    rewrite (entry_diag_col_sums n), (entry_diag_row_sums n) by done.
    rewrite (entry_transpose n) by done.
    rewrite (entry_at n n (W self) i j), (entry_at n n (W self) j i) by done.
    done.
Qed.

(** X3. The combinatorial Laplacian that [compute_laplacian] stores is a
    symmetric matrix, for a directed graph as for an undirected one:
    [L[i, j]] and [L[j, i]] are the same number (up to the sign of a zero).
    The weights are any doubles; the cached directedness, if any, is the one
    of the weights. *)
Theorem combinatorial_laplacian_symmetric
    (np_power : float -> float -> float) (self : Graph) (n : nat) (dir : bool) :
  has_shape n n (W self) ->
  valid_matrix (W self) ->
  (is_directed false self).1 = Ok dir ->
  (is_directed true self).1 = Ok dir ->
  exists Lm,
    L (compute_laplacian np_power "combinatorial" self).2 = Some Lm /\
    has_shape n n Lm /\
    forall i j, i < n -> j < n -> F64.same_number (at_ Lm i j) (at_ Lm j i).
Proof.
  intros Hw Hv Hcached Hreal. destruct dir.
  - destruct (directed_laplacian_entries np_power self n Hw Hcached)
      as (Lm & HL & Hshape & Hspec).
    exists Lm. split; [done|]. split; [done|]. intros i j Hi Hj. left.
    destruct (decide (i = j)) as [->|Hne]; [done|].
    rewrite (Hspec i j), (Hspec j i) by done. unfold diag_at.
    rewrite !decide_False by done. f_equal.
    change (F64.add F64.zero F64.zero) with F64.zero. apply sub_sub_comm.
  - destruct (compute_laplacian_undirected_combinatorial np_power self n Hw Hcached)
      as (_ & HL & Hspec).
    eexists. split; [exact HL|]. split.
    { apply has_shape_zip_with; [apply has_shape_diag_row_sums|]; done. }
    intros i j Hi Hj.
    destruct (decide (i = j)) as [->|Hne]; [by left|].
    rewrite (Hspec i j), (Hspec j i) by done. unfold diag_at.
    rewrite !decide_False by done.
    destruct (proj1 (symmetric_iff self n true Hw Hv eq_refl) Hreal i j Hi Hj)
      as [Hf He].
    apply sub_zero_same; try done; by apply (valid_at n).
Qed.

Lemma combinatorial_laplacian_symmetric_on_arrow :
  has_shape 2 2 (W G_arrow) /\ valid_matrix (W G_arrow) /\
  (is_directed false G_arrow).1 = Ok true /\
  (is_directed true G_arrow).1 = Ok true /\
  exists Lm,
    L (compute_laplacian power_unused "combinatorial" G_arrow).2 = Some Lm /\
    has_shape 2 2 Lm /\
    forall i j, i < 2 -> j < 2 -> F64.same_number (at_ Lm i j) (at_ Lm j i).
Proof.
  assert (Hs : has_shape 2 2 (W G_arrow)) by (apply has_shape_check; reflexivity).
  assert (Hv : valid_matrix (W G_arrow)) by (repeat constructor).
  assert (H1 : (is_directed false G_arrow).1 = Ok true) by reflexivity.
  assert (H2 : (is_directed true G_arrow).1 = Ok true) by (vm_compute; reflexivity).
  split; [exact Hs|]. split; [exact Hv|]. split; [exact H1|]. split; [exact H2|].
  exact (combinatorial_laplacian_symmetric power_unused G_arrow 2 true Hs Hv H1 H2).
Defined.

(** ** The constructor *)

(** The combinatorial Laplacian of a weight matrix, by directedness. *)
Definition combinatorial_laplacian (w : matrix float) (dir : bool) : matrix float :=
  if dir
  then mscale F64.half
         (fmsub (fmsub (fmadd (fdiags (fcol_sums w)) (fdiags (frow_sums w))) w)
                (transpose w))
  else laplacian_rowsum F64.zero F64.add F64.sub w.

Lemma length_find_indices_map {T : Type} (f : T -> bool) (r : list T) (s : nat) :
  length (find_indices id (map f r) s) = length (filter (fun x => f x = true) r).
Proof.
  revert s. induction r as [|x r IH]; intros s; [done|].
  cbn [map find_indices]. rewrite filter_cons. unfold id at 1.
  destruct (f x) eqn:Hfx.
  - rewrite decide_True by done. simpl. by rewrite IH.
  - rewrite decide_False by congruence. apply IH.
Qed.

(** What the constructor builds from a square matrix of two nodes or more. *)
Lemma init_result
    (choice : nat -> nat) (np_power : float -> float -> float)
    (w : matrix float) (n : nat) (name : string)
    (xy : option (matrix float)) (checks : bool) :
  has_shape n n w -> 2 ≤ n ->
  exists G,
    __init__ choice np_power w name "combinatorial" xy checks = Ok G /\
    N G = n /\ W G = w /\ A G = adjacency w /\ Ne G = nnz w /\
    d G = (fun row => length (filter (fun x => F64.gtb x F64.zero = true) row)) <$> w /\
    gtype G = name /\ coords G = xy /\
    lap_type G = Some "combinatorial" /\
    _directed G = Some (F64.neqb (ftotal (asymmetry w)) F64.zero) /\
    L G = Some (combinatorial_laplacian w (F64.neqb (ftotal (asymmetry w)) F64.zero)) /\
    (if checks then is_Some (_connected G) else _connected G = None) /\
    info_orig_idx G = None.
Proof.
  intros Hw Hn. unfold __init__.
  rewrite (shape_has_shape n n w Hw) by lia. cbn [fst snd].
  rewrite Nat.eqb_refl. cbn [negb].
  destruct (n =? 1) eqn:Hn1; [apply Nat.eqb_eq in Hn1; lia|].
  set (self0 := {| N := n; W := w |}).
  set (b := F64.neqb (ftotal (asymmetry w)) F64.zero).
  assert (Hd0 : is_directed false self0 = (Ok b, set_directed b self0)).
  { unfold is_directed. cbn [cached _directed self0 W].
    rewrite (shape_has_shape n n w Hw) by lia. cbn [fst snd].
    by rewrite Nat.eqb_refl. }
  assert (compute_laplacian np_power "combinatorial" self0
          = (Ok tt, set_L (combinatorial_laplacian w b)
                      (set_lap_type "combinatorial" (set_directed b self0)))) as ->.
  { unfold compute_laplacian. simpl.
    unfold mbind, method_bind, modify. simpl.
    rewrite is_directed_set_lap_type, Hd0. unfold get. simpl.
    by destruct b. }
  set (self1 := set_L _ _).
  assert (Hdeg : d self1 =
    (fun row => length (filter (fun x => F64.gtb x F64.zero = true) row)) <$> w).
  { cbn [self1 set_L set_lap_type set_directed self0 d].
    rewrite <- list_fmap_compose. apply list_fmap_ext. intros i row _. simpl.
    apply length_find_indices_map. }
  destruct checks; [|by exists self1].
  assert (exists r, is_connected choice false self1 = (Ok r, set_connected r self1))
    as [r ->]; [|by exists (set_connected r self1)].
  unfold is_connected. cbn [cached _connected self1 set_L set_directed set_lap_type self0 A].
  fold (adjacency w).
  assert (HA : has_shape n n (adjacency w)) by by apply has_shape_map.
  rewrite (shape_has_shape n n _ HA) by lia. cbn [fst snd].
  rewrite Nat.eqb_refl. cbn [negb].
  unfold mbind at 1, method_bind at 1.
  assert (is_directed false self1 = (Ok b, self1)) as -> by done.
  destruct (connected_for_ends choice n
              (if b then [adjacency w; transpose (adjacency w)] else [adjacency w]) 0)
    as [r Hr]; [lia| |].
  { destruct b; repeat (apply Forall_cons; split);
      auto using has_shape_transpose, Forall_nil_2. }
  exists r. unfold mbind, method_bind, lift. rewrite Hr. done.
Qed.

(** X4. [Graph(W)] with the combinatorial Laplacian succeeds on every square
    weight matrix of two nodes or more, whatever the weights (NaN and
    infinities included) and whichever elements [set.pop] takes, and leaves
    the attributes as documented: [N] the size, [W] the weights, [A] the
    matrix [W > 0], [Ne] the number of stored weights, [d[i]] the number of
    positive weights of row [i], the Laplacian [L] of the computed
    directedness, and the connectivity cached exactly when the checks are
    performed. *)
Theorem init_postcondition
    (choice : nat -> nat) (np_power : float -> float -> float)
    (w : matrix float) (n : nat) (name : string)
    (xy : option (matrix float)) (checks : bool) :
  has_shape n n w -> 2 ≤ n ->
  exists G,
    __init__ choice np_power w name "combinatorial" xy checks = Ok G /\
    N G = n /\ W G = w /\ A G = adjacency w /\ Ne G = nnz w /\
    d G = (fun row => length (filter (fun x => F64.gtb x F64.zero = true) row)) <$> w /\
    gtype G = name /\ coords G = xy /\
    lap_type G = Some "combinatorial" /\
    _directed G = Some (F64.neqb (ftotal (asymmetry w)) F64.zero) /\
    L G = Some (combinatorial_laplacian w (F64.neqb (ftotal (asymmetry w)) F64.zero)) /\
    (if checks then is_Some (_connected G) else _connected G = None) /\
    info_orig_idx G = None.
Proof. apply init_result. Qed.

Lemma init_postcondition_on_edge :
  has_shape 2 2 W_edge /\ 2 ≤ 2 /\
  exists G,
    __init__ pop_first power_unused W_edge "unknown" "combinatorial" None true = Ok G /\
    N G = 2 /\ W G = W_edge /\ A G = adjacency W_edge /\ Ne G = nnz W_edge /\
    d G = (fun row => length (filter (fun x => F64.gtb x F64.zero = true) row)) <$> W_edge /\
    gtype G = "unknown" /\ coords G = None /\
    lap_type G = Some "combinatorial" /\
    _directed G = Some (F64.neqb (ftotal (asymmetry W_edge)) F64.zero) /\
    L G = Some (combinatorial_laplacian W_edge
                  (F64.neqb (ftotal (asymmetry W_edge)) F64.zero)) /\
    (if true then is_Some (_connected G) else _connected G = None) /\
    info_orig_idx G = None.
Proof.
  assert (Hs : has_shape 2 2 W_edge) by (apply has_shape_check; reflexivity).
  assert (Hn : 2 ≤ 2) by lia.
  split; [exact Hs|]. split; [exact Hn|].
  exact (init_postcondition pop_first power_unused W_edge 2 "unknown" None true Hs Hn).
Defined.

(** X5. What the constructor refuses: a weight matrix that is not square
    ([ValueError]); a single node, whose squeezed degree has no dimension
    left ([AssertionError], before the Laplacian is looked at); on two nodes
    or more, a Laplacian type that is neither of the two known
    ([ValueError]) and the normalized Laplacian of a directed weight matrix
    ([NotImplementedError]). *)
Theorem init_errors (choice : nat -> nat) (np_power : float -> float -> float) :
  (forall w name kind xy checks,
     (shape w).1 <> (shape w).2 ->
     __init__ choice np_power w name kind xy checks = Raise ValueError) /\
  (forall w name kind xy checks,
     has_shape 1 1 w ->
     __init__ choice np_power w name kind xy checks = Raise AssertionError) /\
  (forall w n name kind xy checks,
     has_shape n n w -> 2 ≤ n ->
     kind ∉ ["combinatorial"; "normalized"] ->
     __init__ choice np_power w name kind xy checks = Raise ValueError) /\
  (forall w n name xy checks,
     has_shape n n w -> 2 ≤ n ->
     F64.neqb (ftotal (asymmetry w)) F64.zero = true ->
     __init__ choice np_power w name "normalized" xy checks = Raise NotImplementedError).
Proof.
  repeat split.
  - intros w name kind xy checks Hne. unfold __init__.
    apply Nat.eqb_neq in Hne. by rewrite Hne.
  - intros w name kind xy checks Hw. unfold __init__.
    by rewrite (shape_has_shape 1 1 w Hw) by lia.
  - intros w n name kind xy checks Hw Hn Hkind. unfold __init__.
    rewrite (shape_has_shape n n w Hw) by lia. cbn [fst snd].
    rewrite Nat.eqb_refl. cbn [negb].
    destruct (n =? 1) eqn:Hn1; [apply Nat.eqb_eq in Hn1; lia|].
    unfold compute_laplacian. by rewrite bool_decide_false.
  - intros w n name xy checks Hw Hn Hdir. unfold __init__.
    rewrite (shape_has_shape n n w Hw) by lia. cbn [fst snd].
    rewrite Nat.eqb_refl. cbn [negb].
    destruct (n =? 1) eqn:Hn1; [apply Nat.eqb_eq in Hn1; lia|].
    set (self0 := {| N := n; W := w |}).
    assert (Hd0 : is_directed false self0 = (Ok true, set_directed true self0)).
    { unfold is_directed. cbn [cached _directed self0 W].
      rewrite (shape_has_shape n n w Hw) by lia. cbn [fst snd].
      rewrite Nat.eqb_refl. cbn [negb]. fold (asymmetry w). by rewrite Hdir. }
    unfold compute_laplacian. simpl.
    unfold mbind, method_bind, modify. simpl.
    by rewrite is_directed_set_lap_type, Hd0.
Qed.

(** ** Subgraphs *)

Lemma mapR_getitem {T : Type} (l : list T) (ind : list nat) :
  Forall (fun i => i < length l) ind ->
  exists ys, mapR (getitem l) ind = Ok ys /\
             length ys = length ind /\
             forall a i, ind !! a = Some i -> ys !! a = l !! i.
Proof.
  intros Hind.
  destruct (mapR_total (getitem l) ind) as [ys Hys].
  { eapply Forall_impl; [exact Hind|]. intros i Hi. simpl in Hi.
    destruct (lookup_lt_is_Some_2 l i Hi) as [x Hx]. exists x.
    unfold getitem. by rewrite Hx. }
  exists ys. split; [done|]. apply mapR_Ok in Hys.
  split; [symmetry; by eapply Forall2_length|].
  intros a i Ha.
  destruct (Forall2_lookup_l _ _ _ _ _ Hys Ha) as (y & Hy & Hget).
  unfold getitem in Hget. rewrite Hy.
  destruct (l !! i) as [x|]; congruence.
Qed.

Lemma mapR_getitem_out_of_range {T : Type} (l : list T) (ind : list nat) :
  Exists (fun i => length l ≤ i) ind -> mapR (getitem l) ind = Raise IndexError.
Proof.
  induction ind as [|i ind IH]; intros Hex; [by apply Exists_nil in Hex|].
  cbn [mapR]. destruct (l !! i) as [x|] eqn:Hx.
  - assert (getitem l i = Ok x) as -> by (unfold getitem; by rewrite Hx).
    apply Exists_cons in Hex as [Hi|Hex].
    { apply lookup_lt_Some in Hx. lia. }
    cbn [mbind result_bind]. by rewrite IH.
  - assert (getitem l i = Raise IndexError) as -> by (unfold getitem; by rewrite Hx).
    reflexivity.
Qed.

(** [M[ind, :][:, ind]] for indices in range. *)
Lemma select_spec {T : Type} n (M : matrix T) (ind : list nat) :
  has_shape n n M ->
  Forall (fun i => i < n) ind ->
  exists S,
    select ind M = Ok S /\
    has_shape (length ind) (length ind) S /\
    forall a b i j, ind !! a = Some i -> ind !! b = Some j ->
                    entry S a b = entry M i j.
Proof.
  intros [Hl HF] Hind. unfold select.
  destruct (mapR_getitem M ind) as (rows & -> & Hlen & Hrows); [by rewrite Hl|].
  cbn [mbind result_bind].
  assert (Hrow : forall a r, rows !! a = Some r -> length r = n).
  { intros a r Hr.
    destruct (lookup_lt_is_Some_2 ind a) as [i Hi];
      [apply lookup_lt_Some in Hr; lia|].
    rewrite (Hrows a i Hi) in Hr. rewrite Forall_lookup in HF. by eapply HF. }
  destruct (mapR_total (fun r => mapR (getitem r) ind) rows) as [S HS].
  { apply Forall_lookup. intros a r Hr.
    destruct (mapR_getitem r ind) as (ys & Hys & _); [by rewrite (Hrow a r Hr)|].
    by exists ys. }
  exists S. split; [done|]. apply mapR_Ok in HS.
  assert (HlS : length S = length ind).
  { rewrite <- Hlen. symmetry. by eapply Forall2_length. }
  split; [split; [done|]|].
  - apply Forall_lookup. intros a s Hs.
    destruct (Forall2_lookup_r _ _ _ _ _ HS Hs) as (r & Hr & Hsel).
    destruct (mapR_getitem r ind) as (ys & Hys & Hly & _); [by rewrite (Hrow a r Hr)|].
    simpl in Hsel. congruence.
  - intros a b i j Ha Hb. unfold entry.
    destruct (lookup_lt_is_Some_2 rows a) as [r Hr];
      [apply lookup_lt_Some in Ha; lia|].
    destruct (Forall2_lookup_l _ _ _ _ _ HS Hr) as (s & Hs & Hsel).
    destruct (mapR_getitem r ind) as (ys & Hys & _ & Hent); [by rewrite (Hrow a r Hr)|].
    simpl in Hsel. rewrite Hys in Hsel. injection Hsel as <-.
    rewrite Hs, <- (Hrows a i Ha), Hr. simpl. by apply Hent.
Qed.

(** What [subgraph] returns for indices in range. *)
Lemma subgraph_result
    (choice : nat -> nat) (np_power : float -> float -> float)
    (self : Graph) (n : nat) (ind : list nat) :
  has_shape n n (W self) ->
  2 ≤ length ind ->
  Forall (fun i => i < n) ind ->
  exists G,
    subgraph choice np_power ind self = Ok G /\
    N G = length ind /\
    has_shape (length ind) (length ind) (W G) /\
    (forall a b i j, ind !! a = Some i -> ind !! b = Some j ->
                     entry (W G) a b = entry (W self) i j) /\
    A G = adjacency (W G) /\ Ne G = nnz (W G) /\
    gtype G = "sub-" +:+ gtype self /\
    lap_type G = Some "combinatorial" /\
    coords G = None /\ info_orig_idx G = None.
Proof.
  intros Hw Hlen Hind. unfold subgraph.
  destruct (select_spec n (W self) ind Hw Hind) as (S & -> & HS & Hent).
  cbn [mbind result_bind].
  destruct (init_result choice np_power S (length ind)
              ("sub-" +:+ gtype self) None true HS Hlen)
    as (G & -> & HN & HW & HA & HNe & _ & Hg & Hc & Hlap & _ & _ & _ & Hinfo).
  exists G. rewrite HW. destruct HS. repeat split; done.
Qed.

(** X6. [subgraph(ind)] for two indices or more, all of them nodes of the
    graph (in any order, repeated or not): the call succeeds and returns a
    graph on [len(ind)] nodes whose weight [(a, b)] is the weight
    [(ind[a], ind[b])] of the parent.  It is built as a new graph: its type
    is the parent's prefixed by [sub-], its Laplacian is the combinatorial one
    whatever the parent's is, and neither the coordinates nor the component
    information of the parent are carried over. *)
Theorem subgraph_spec
    (choice : nat -> nat) (np_power : float -> float -> float)
    (self : Graph) (n : nat) (ind : list nat) :
  has_shape n n (W self) ->
  2 ≤ length ind ->
  Forall (fun i => i < n) ind ->
  exists G,
    subgraph choice np_power ind self = Ok G /\
    N G = length ind /\
    has_shape (length ind) (length ind) (W G) /\
    (forall a b i j, ind !! a = Some i -> ind !! b = Some j ->
                     entry (W G) a b = entry (W self) i j) /\
    A G = adjacency (W G) /\ Ne G = nnz (W G) /\
    gtype G = "sub-" +:+ gtype self /\
    lap_type G = Some "combinatorial" /\
    coords G = None /\ info_orig_idx G = None.
Proof. apply subgraph_result. Qed.

Lemma subgraph_spec_on_star :
  has_shape 4 4 (W G_star) /\ 2 ≤ length [1; 3] /\ Forall (fun i => i < 4) [1; 3] /\
  exists G,
    subgraph pop_first power_unused [1; 3] G_star = Ok G /\
    N G = length [1; 3] /\
    has_shape (length [1; 3]) (length [1; 3]) (W G) /\
    (forall a b i j, [1; 3] !! a = Some i -> [1; 3] !! b = Some j ->
                     entry (W G) a b = entry (W G_star) i j) /\
    A G = adjacency (W G) /\ Ne G = nnz (W G) /\
    gtype G = "sub-" +:+ gtype G_star /\
    lap_type G = Some "combinatorial" /\
    coords G = None /\ info_orig_idx G = None.
Proof.
  assert (Hs : has_shape 4 4 (W G_star)) by (apply has_shape_check; reflexivity).
  assert (Hl : 2 ≤ length [1; 3]) by (simpl; lia).
  assert (Hi : Forall (fun i => i < 4) [1; 3]) by (repeat constructor; lia).
  split; [exact Hs|]. split; [exact Hl|]. split; [exact Hi|].
  exact (subgraph_spec pop_first power_unused G_star 4 [1; 3] Hs Hl Hi).
Defined.

(** X7. What [subgraph] refuses: an index that is not a node of the graph
    raises [IndexError], wherever it stands in the list; and a single node
    cannot be extracted, since the constructor asserts on its degree
    ([AssertionError]). *)
Theorem subgraph_errors
    (choice : nat -> nat) (np_power : float -> float -> float)
    (self : Graph) (n : nat) :
  has_shape n n (W self) ->
  (forall ind, Exists (fun i => n ≤ i) ind ->
     subgraph choice np_power ind self = Raise IndexError) /\
  (forall i, i < n ->
     subgraph choice np_power [i] self = Raise AssertionError).
Proof.
  intros Hw. split.
  - intros ind Hex. unfold subgraph, select.
    rewrite mapR_getitem_out_of_range; [done|]. destruct Hw as [-> _]. done.
  - intros i Hi. unfold subgraph.
    destruct (select_spec n (W self) [i] Hw) as (S & -> & [Hl HF] & _);
      [by repeat constructor|].
    cbn [mbind result_bind].
    destruct S as [|r [|? ?]]; try done.
    apply Forall_cons in HF as [Hr _]. destruct r as [|x [|? ?]]; try done.
Qed.

Lemma subgraph_errors_on_star :
  has_shape 4 4 (W G_star) /\
  (forall ind, Exists (fun i => 4 ≤ i) ind ->
     subgraph pop_first power_unused ind G_star = Raise IndexError) /\
  (forall i, i < 4 ->
     subgraph pop_first power_unused [i] G_star = Raise AssertionError).
Proof.
  assert (Hs : has_shape 4 4 (W G_star)) by (apply has_shape_check; reflexivity).
  split; [exact Hs|].
  exact (subgraph_errors pop_first power_unused G_star 4 Hs).
Defined.

Lemma matrix_ext {T : Type} rows cols (X Y : matrix T) :
  has_shape rows cols X -> has_shape rows cols Y ->
  (forall a b, a < rows -> b < cols -> entry X a b = entry Y a b) ->
  X = Y.
Proof.
  intros HX HY Hent. apply list_eq_same_length with rows;
    [by destruct HY|by destruct HX|].
  intros a rx ry Ha Hrx Hry.
  pose proof (has_shape_lookup _ _ _ _ _ HX Hrx) as Hlx.
  pose proof (has_shape_lookup _ _ _ _ _ HY Hry) as Hly.
  apply list_eq_same_length with cols; [exact Hly|exact Hlx|].
  intros b x y Hb Hx Hy. specialize (Hent a b Ha Hb). unfold entry in Hent.
  rewrite Hrx, Hry in Hent. simpl in Hent. congruence.
Qed.

(** X8. Subgraphs compose: taking the nodes [ind2] of the subgraph on
    [ind1] gives the weights of the subgraph on the nodes
    [ind1[b] for b in ind2] of the graph itself; and the subgraph on all the
    nodes, in order, has the weights of the graph. *)
Theorem subgraph_compose
    (choice : nat -> nat) (np_power : float -> float -> float)
    (self : Graph) (n : nat) (ind1 ind2 : list nat) :
  has_shape n n (W self) -> 2 ≤ n ->
  2 ≤ length ind1 -> 2 ≤ length ind2 ->
  Forall (fun i => i < n) ind1 ->
  Forall (fun b => b < length ind1) ind2 ->
  (exists G1 G2 G12,
     subgraph choice np_power ind1 self = Ok G1 /\
     subgraph choice np_power ind2 G1 = Ok G2 /\
     subgraph choice np_power ((fun b => ind1 !!! b) <$> ind2) self = Ok G12 /\
     W G2 = W G12) /\
  (exists G, subgraph choice np_power (seq 0 n) self = Ok G /\ W G = W self).
Proof.
  intros Hw Hn Hl1 Hl2 Hind1 Hind2. split.
  - set (ind12 := (fun b => ind1 !!! b) <$> ind2).
    assert (H12 : forall a b, ind2 !! a = Some b ->
              exists i, ind1 !! b = Some i /\ ind12 !! a = Some i).
    { intros a b Hb. rewrite Forall_lookup in Hind2.
      destruct (lookup_lt_is_Some_2 ind1 b) as [i Hi]; [by eapply Hind2|].
      exists i. split; [done|]. unfold ind12. rewrite list_lookup_fmap, Hb. simpl.
      f_equal. by apply list_lookup_total_correct. }
    assert (Hind12 : Forall (fun i => i < n) ind12).
    { apply Forall_lookup. intros a i Ha.
      destruct (lookup_lt_is_Some_2 ind2 a) as [b Hb].
      { apply lookup_lt_Some in Ha. unfold ind12 in Ha. by rewrite length_fmap in Ha. }
      destruct (H12 a b Hb) as (i' & Hi' & Hi'').
      rewrite Ha in Hi''. injection Hi'' as ->.
      rewrite Forall_lookup in Hind1. by eapply Hind1. }
    destruct (subgraph_result choice np_power self n ind1 Hw Hl1 Hind1)
      as (G1 & HG1 & _ & HW1 & Hent1 & _).
    destruct (subgraph_result choice np_power G1 (length ind1) ind2 HW1 Hl2 Hind2)
      as (G2 & HG2 & _ & HW2 & Hent2 & _).
    assert (Hl12 : length ind12 = length ind2) by (unfold ind12; by rewrite length_fmap).
    destruct (subgraph_result choice np_power self n ind12 Hw ltac:(lia) Hind12)
      as (G12 & HG12 & _ & HW12 & Hent12 & _).
    exists G1, G2, G12. repeat split; try done.
    rewrite Hl12 in HW12.
    apply (matrix_ext (length ind2) (length ind2)); try done.
    intros a b Ha Hb.
    destruct (lookup_lt_is_Some_2 ind2 a Ha) as [a' Ha'].
    destruct (lookup_lt_is_Some_2 ind2 b Hb) as [b' Hb'].
    destruct (H12 a a' Ha') as (i & Hi & Hi12).
    destruct (H12 b b' Hb') as (j & Hj & Hj12).
    rewrite (Hent2 a b a' b' Ha' Hb'), (Hent1 a' b' i j Hi Hj).
    symmetry. by apply Hent12.
  - destruct (subgraph_result choice np_power self n (seq 0 n) Hw)
      as (G & HG & _ & HWG & Hent & _).
    { by rewrite length_seq. }
    { apply Forall_forall. intros i Hi%elem_of_seq. lia. }
    exists G. split; [done|]. rewrite length_seq in HWG.
    apply (matrix_ext n n); try done. intros a b Ha Hb.
    apply Hent; by apply lookup_seq.
Qed.

Lemma subgraph_compose_on_star :
  has_shape 4 4 (W G_star) /\ 2 ≤ 4 /\
  2 ≤ length [3; 1; 0] /\ 2 ≤ length [2; 0] /\
  Forall (fun i => i < 4) [3; 1; 0] /\
  Forall (fun b => b < length [3; 1; 0]) [2; 0] /\
  (exists G1 G2 G12,
     subgraph pop_first power_unused [3; 1; 0] G_star = Ok G1 /\
     subgraph pop_first power_unused [2; 0] G1 = Ok G2 /\
     subgraph pop_first power_unused ((fun b => [3; 1; 0] !!! b) <$> [2; 0]) G_star
       = Ok G12 /\
     W G2 = W G12) /\
  (exists G, subgraph pop_first power_unused (seq 0 4) G_star = Ok G /\ W G = W G_star).
Proof.
  assert (Hs : has_shape 4 4 (W G_star)) by (apply has_shape_check; reflexivity).
  assert (Hn : 2 ≤ 4) by lia.
  assert (Hl1 : 2 ≤ length [3; 1; 0]) by (simpl; lia).
  assert (Hl2 : 2 ≤ length [2; 0]) by (simpl; lia).
  assert (Hi1 : Forall (fun i => i < 4) [3; 1; 0]) by (repeat constructor; lia).
  assert (Hi2 : Forall (fun b => b < length [3; 1; 0]) [2; 0])
    by (repeat constructor; simpl; lia).
  repeat (split; [assumption|]).
  exact (subgraph_compose pop_first power_unused G_star 4 [3; 1; 0] [2; 0]
           Hs Hn Hl1 Hl2 Hi1 Hi2).
Defined.

(** ** Connectivity *)

(** [adj[u, v]] is set: there is an edge from [u] to [v]. *)
Definition edge (adj : matrix bool) (u v : nat) : Prop := entry adj u v = Some true.

(** [v] is reached from [u] along edges. *)
Definition reachable (adj : matrix bool) : nat -> nat -> Prop := rtc (edge adj).

Lemma edge_lt n adj u v : has_shape n n adj -> edge adj u v -> u < n /\ v < n.
Proof.
  intros Hadj He. unfold edge, entry in He.
  destruct (adj !! u) as [row|] eqn:Hrow; [|done]. simpl in He.
  pose proof (has_shape_lookup _ _ _ _ _ Hadj Hrow) as Hl.
  apply lookup_lt_Some in Hrow, He. destruct Hadj. lia.
Qed.

Lemma edge_transpose n adj u v :
  has_shape n n adj -> edge (transpose adj) u v <-> edge adj v u.
Proof.
  intros Hadj. split; intros He.
  - destruct (edge_lt n _ u v (has_shape_transpose n adj Hadj) He) as [Hu Hv].
    unfold edge in *. by rewrite (entry_transpose n) in He.
  - destruct (edge_lt n _ v u Hadj He) as [Hv Hu].
    unfold edge in *. by rewrite (entry_transpose n).
Qed.

Lemma reachable_transpose n adj u v :
  has_shape n n adj -> reachable (transpose adj) u v <-> reachable adj v u.
Proof.
  intros Hadj. unfold reachable. split.
  - induction 1 as [|x y z Hxy _ IH]; [done|].
    eapply rtc_r; [exact IH|]. by apply (edge_transpose n).
  - induction 1 as [|x y z Hxy _ IH]; [done|].
    eapply rtc_r; [exact IH|]. by apply (edge_transpose n).
Qed.

(** The indices that the traversal pushes: the neighbours of [v] that are
    not visited, all of them. *)
Lemma unvisited_neighbours_full n (adj : matrix bool) v visited :
  has_shape n n adj -> v < n -> length visited = n ->
  exists new,
    unvisited_neighbours adj v visited = Ok new /\
    forall idx, idx ∈ new <-> edge adj v idx /\ visited !! idx = Some false.
Proof.
  intros Hadj Hv Hlen. unfold unvisited_neighbours.
  destruct (lookup_lt_is_Some_2 adj v) as [row Hrow]; [destruct Hadj; lia|].
  assert (getitem adj v = Ok row) as -> by (unfold getitem; by rewrite Hrow).
  cbn [mbind result_bind].
  pose proof (has_shape_lookup _ _ _ _ _ Hadj Hrow) as Hlr.
  set (f := fun idx : nat => getitem visited idx ≫= fun b : bool => Ok (negb b)).
  destruct (mapR_total f (find_indices id row 0)) as [keep Hkeep].
  { apply Forall_forall. intros idx (_ & x & Hx & _)%elem_of_find_indices.
    apply lookup_lt_Some in Hx.
    destruct (lookup_lt_is_Some_2 visited idx) as [b Hb]; [lia|].
    exists (negb b). unfold f, getitem. by rewrite Hb. }
  rewrite Hkeep. cbn [mbind result_bind]. eexists. split; [done|].
  apply mapR_Ok in Hkeep.
  assert (Hedge : forall idx, idx ∈ find_indices id row 0 <-> edge adj v idx).
  { intros idx. rewrite elem_of_find_indices, Nat.sub_0_r. unfold edge, entry.
    rewrite Hrow. simpl. split.
    - intros (_ & x & Hx & Hid). unfold id in Hid. by subst x.
    - intros Hx. split; [lia|]. by exists true. }
  assert (Hf : forall idx b, f idx = Ok b -> visited !! idx = Some (negb b)).
  { intros idx b. unfold f, getitem.
    destruct (visited !! idx) as [b'|]; [|done]. simpl. intros [= <-].
    by rewrite negb_involutive. }
  intros idx. split.
  - intros Hidx.
    apply list_elem_of_fmap in Hidx as ([idx' b] & -> & Hin).
    apply list_elem_of_filter in Hin as [Hb Hin]. simpl in Hb. subst b.
    apply list_elem_of_lookup in Hin as [i Hi].
    apply lookup_zip_Some in Hi as [Hi1 Hi2].
    pose proof (Forall2_lookup_lr _ _ _ _ _ _ Hkeep Hi1 Hi2) as Hfi.
    simpl. split.
    + apply Hedge. by eapply list_elem_of_lookup_2.
    + by apply Hf in Hfi.
  - intros [He Hun]. apply Hedge in He.
    apply list_elem_of_lookup in He as [i Hi].
    destruct (Forall2_lookup_l _ _ _ _ _ Hkeep Hi) as (b & Hb & Hfi).
    apply Hf in Hfi. rewrite Hun in Hfi. injection Hfi as Hfi.
    destruct b; [|done].
    apply list_elem_of_fmap. exists (idx, true). split; [done|].
    apply list_elem_of_filter. split; [done|].
    apply list_elem_of_lookup. exists i. by apply lookup_zip_Some.
Qed.

(** The invariant of the traversal: what is visited or waiting on the stack
    is reached from the root, and every neighbour of a visited node is
    visited or waiting. *)
Lemma connected_loop_reach choice n (adj : matrix bool) (root : nat) :
  has_shape n n adj ->
  forall fuel clock visited (stack : gset nat),
    length visited = n ->
    stack ⊆ unvisited visited ->
    size (unvisited visited) < fuel ->
    (forall u, visited !! u = Some true -> reachable adj root u) ->
    (forall u, u ∈ stack -> reachable adj root u) ->
    (forall u w, visited !! u = Some true -> edge adj u w ->
                 visited !! w = Some true \/ w ∈ stack) ->
    exists visited' clock',
      connected_loop choice fuel adj clock visited stack = Ok (visited', clock') /\
      length visited' = n /\
      (forall u, visited' !! u = Some true -> reachable adj root u) /\
      (forall u w, visited' !! u = Some true -> edge adj u w ->
                   visited' !! w = Some true) /\
      (forall u, visited !! u = Some true \/ u ∈ stack -> visited' !! u = Some true).
Proof.
  intros Hadj. induction fuel as [|fuel IH];
    intros clock visited stack Hlen Hsub Hfuel Hreach Hstack Hclosed; [lia|].
  cbn [connected_loop].
  destruct (set_pop choice clock stack) as [[v stack']|] eqn:Hpop.
  - apply set_pop_Some in Hpop as [Hv ->].
    pose proof (Hsub v Hv) as Hun. apply elem_of_unvisited in Hun.
    unfold getitem. rewrite Hun. cbn [mbind result_bind negb].
    assert (Hvn : v < n) by (apply lookup_lt_Some in Hun; lia).
    destruct (unvisited_neighbours_full n adj v (<[v := true]> visited))
      as (new & -> & Hnew); [done|done|by rewrite length_insert|].
    cbn [mbind result_bind].
    assert (Hv' : (<[v := true]> visited) !! v = Some true).
    { apply list_lookup_insert_eq. lia. }
    destruct (IH (S clock) (<[v := true]> visited) (stack ∖ {[v]} ∪ list_to_set new))
      as (visited' & clock' & -> & Hlen' & Hreach' & Hclosed' & Hmono).
    + by rewrite length_insert.
    + rewrite unvisited_insert.
      intros i [[Hi Hne]%elem_of_difference|Hi%elem_of_list_to_set]%elem_of_union.
      * apply elem_of_difference. split; [by apply Hsub|done].
      * rewrite <- unvisited_insert. by apply elem_of_unvisited, Hnew.
    + pose proof (size_unvisited_insert visited v Hun). lia.
    + intros u Hu. destruct (decide (u = v)) as [->|Hne]; [by apply Hstack|].
      rewrite list_lookup_insert_ne in Hu by done. by apply Hreach.
    + intros u [[Hu _]%elem_of_difference|Hu%elem_of_list_to_set]%elem_of_union.
      * by apply Hstack.
      * apply Hnew in Hu as [He _]. eapply rtc_r; [by apply Hstack|done].
    + intros u w Hu He.
      destruct (edge_lt n adj u w Hadj He) as [_ Hw].
      destruct (decide (w = v)) as [->|Hwv]; [by left|].
      rewrite list_lookup_insert_ne by done.
      destruct (decide (u = v)) as [->|Hne].
      * destruct (lookup_lt_is_Some_2 visited w) as [[] Hb]; [lia|by left|].
        right. apply elem_of_union. right. apply elem_of_list_to_set, Hnew.
        split; [done|]. by rewrite list_lookup_insert_ne.
      * rewrite list_lookup_insert_ne in Hu by done.
        destruct (Hclosed u w Hu He) as [?|Hws]; [by left|].
        right. apply elem_of_union. left. apply elem_of_difference.
        split; [done|]. by apply not_elem_of_singleton.
    + exists visited', clock'. repeat split; try done.
      intros u [Hu|Hu]; apply Hmono.
      * left. destruct (decide (u = v)) as [->|Hne]; [done|].
        by rewrite list_lookup_insert_ne.
      * destruct (decide (u = v)) as [->|Hne]; [by left|].
        right. apply elem_of_union. left. apply elem_of_difference.
        split; [done|]. by apply not_elem_of_singleton.
  - apply set_pop_None in Hpop. subst stack.
    exists visited, clock. repeat split; try done.
    + intros u w Hu He. destruct (Hclosed u w Hu He) as [?|?]; [done|set_solver].
    + intros u [?|?]; [done|set_solver].
Qed.

(** One traversal from node 0 visits exactly the nodes reached from it. *)
Lemma traversal_visits_reachable choice n (adj : matrix bool) clock :
  has_shape n n adj -> 0 < n ->
  exists visited clock',
    connected_loop choice (traversal_fuel n) adj clock (replicate n false) {[ 0 ]}
      = Ok (visited, clock') /\
    (forallb id visited = true <-> forall v, v < n -> reachable adj 0 v).
Proof.
  intros Hadj Hn.
  destruct (connected_loop_reach choice n adj 0 Hadj (traversal_fuel n) clock
              (replicate n false) {[ 0 ]})
    as (visited & clock' & Hrun & Hlen & Hreach & Hclosed & Hmono).
  - by rewrite length_replicate.
  - intros i ->%elem_of_singleton. apply elem_of_unvisited. by apply lookup_replicate_2.
  - pose proof (size_unvisited (replicate n false)) as Hs.
    rewrite length_replicate in Hs. unfold traversal_fuel. nia.
  - intros u Hu. apply lookup_replicate in Hu as [? _]. done.
  - intros u ->%elem_of_singleton. apply rtc_refl.
  - intros u w Hu _. apply lookup_replicate in Hu as [? _]. done.
  - exists visited, clock'. split; [done|]. split.
    + intros Hall v Hv. apply Hreach.
      destruct (lookup_lt_is_Some_2 visited v) as [b Hb]; [lia|].
      rewrite forallb_forall in Hall.
      assert (Hid : id b = true).
      { apply Hall, list_elem_of_In. by eapply list_elem_of_lookup_2. }
      unfold id in Hid. by subst b.
    + intros Hall. apply forallb_forall. intros b Hb.
      apply list_elem_of_In, list_elem_of_lookup in Hb as [v Hv].
      assert (Hvn : v < n) by (apply lookup_lt_Some in Hv; lia).
      assert (Hroot : visited !! 0 = Some true) by (apply Hmono; right; set_solver).
      assert (Hvis : visited !! v = Some true).
      { specialize (Hall v Hvn). unfold reachable in Hall. clear Hv Hvn. revert v Hall.
        apply (rtc_ind_r (fun z => visited !! z = Some true) 0); [done|].
        intros y z _ Hyz Hy. by eapply Hclosed. }
      rewrite Hv in Hvis. by injection Hvis as ->.
Qed.

Lemma connected_for_spec choice n (mats : list (matrix bool)) clock :
  0 < n ->
  Forall (has_shape n n) mats ->
  exists r,
    connected_for choice n mats clock = Ok r /\
    (r = true <-> Forall (fun adj => forall v, v < n -> reachable adj 0 v) mats).
Proof.
  intros Hn Hmats. revert clock.
  induction Hmats as [|adj mats Hadj _ IH]; intros clock.
  - exists true. split; [done|]. split; [by constructor|done].
  - cbn [connected_for].
    destruct (traversal_visits_reachable choice n adj clock Hadj Hn)
      as (visited & clock' & -> & Hall).
    cbn [mbind result_bind].
    destruct (forallb id visited) eqn:Hv; cbn [negb].
    + destruct (IH clock') as (r & -> & Hr). exists r. split; [done|].
      rewrite Hr, Forall_cons. split; [|tauto]. intros ?. split; [|done].
      by apply Hall.
    + exists false. split; [done|]. split; [done|].
      intros [Hreach _]%Forall_cons. apply Hall in Hreach. congruence.
Qed.

(** X9. [is_connected], when it computes its answer on a graph of at least
    one node, returns [True] exactly when every node is reached from node 0
    along the edges of [A] and, if the graph is directed, node 0 is reached
    from every node as well; this whichever elements [set.pop] takes.  The
    traversal always ends, and the answer is cached in [_connected].  When
    the adjacency matrix of a graph found undirected is symmetric, the
    answer is [True] exactly when every node is reached from every node:
    connectivity for an undirected graph, strong connectivity for a
    directed one. *)
Theorem is_connected_reachable
    (choice : nat -> nat) (self : Graph) (n : nat) (recompute dir : bool) :
  has_shape n n (A self) -> 0 < n ->
  cached (_connected self) recompute = None ->
  (is_directed recompute self).1 = Ok dir ->
  exists r,
    (is_connected choice recompute self).1 = Ok r /\
    _connected (is_connected choice recompute self).2 = Some r /\
    (r = true <->
       (forall v, v < n -> reachable (A self) 0 v) /\
       (dir = true -> forall v, v < n -> reachable (A self) v 0)) /\
    ((dir = false -> forall u v, edge (A self) u v -> edge (A self) v u) ->
     (r = true <-> forall u v, u < n -> v < n -> reachable (A self) u v)).
Proof.
  intros HA Hn Hcache Hdir.
  cut (exists r,
    (is_connected choice recompute self).1 = Ok r /\
    _connected (is_connected choice recompute self).2 = Some r /\
    (r = true <->
       (forall v, v < n -> reachable (A self) 0 v) /\
       (dir = true -> forall v, v < n -> reachable (A self) v 0))).
  { intros (r & Hr & Hc & Hiff). exists r. split; [done|]. split; [done|].
    split; [done|]. intros Hsym. rewrite Hiff. split.
    - intros [Hfrom Hto] u v Hu Hv.
      unfold reachable. apply (rtc_trans u 0 v); [|by apply Hfrom].
      destruct dir; [by apply Hto|].
      specialize (Hfrom u Hu). clear -Hfrom Hsym. unfold reachable in *.
      induction Hfrom as [|x y z Hxy _ IH]; [done|].
      eapply rtc_r; [exact IH|]. by apply Hsym.
    - intros Hall. split; [intros v Hv; by apply Hall|].
      intros _ v Hv. by apply Hall. }
  destruct (is_directed recompute self) as [res self'] eqn:Hd.
  simpl in Hdir. subst res.
  destruct (connected_for_spec choice n
              (if dir then [A self; transpose (A self)] else [A self]) 0 Hn)
    as (r & Hr & Hiff).
  { destruct dir; repeat (apply Forall_cons; split);
      auto using has_shape_transpose, Forall_nil_2. }
  assert (Heq : is_connected choice recompute self = (Ok r, set_connected r self')).
  { unfold is_connected. rewrite Hcache.
    rewrite (shape_has_shape n n _ HA) by done. cbn [fst snd].
    rewrite Nat.eqb_refl. cbn [negb].
    unfold mbind, method_bind. rewrite Hd. unfold lift. by rewrite Hr. }
  rewrite Heq. exists r. split; [done|]. split; [done|].
  rewrite Hiff. destruct dir.
  - rewrite !Forall_cons. split.
    + intros (H1 & H2 & _). split; [done|]. intros _ v Hv.
      by apply (reachable_transpose n), H2.
    + intros [H1 H2]. split; [done|]. split; [|done]. intros v Hv.
      by apply (reachable_transpose n), H2.
  - rewrite Forall_cons. split.
    + intros [H1 _]. by split.
    + intros [H1 _]. by split.
Qed.

Lemma is_connected_reachable_on_arrow :
  has_shape 2 2 (A G_arrow) /\ 0 < 2 /\
  cached (_connected G_arrow) true = None /\
  (is_directed true G_arrow).1 = Ok true /\
  exists r,
    (is_connected pop_first true G_arrow).1 = Ok r /\
    _connected (is_connected pop_first true G_arrow).2 = Some r /\
    (r = true <->
       (forall v, v < 2 -> reachable (A G_arrow) 0 v) /\
       (true = true -> forall v, v < 2 -> reachable (A G_arrow) v 0)) /\
    ((true = false -> forall u v, edge (A G_arrow) u v -> edge (A G_arrow) v u) ->
     (r = true <-> forall u v, u < 2 -> v < 2 -> reachable (A G_arrow) u v)).
Proof.
  assert (Hs : has_shape 2 2 (A G_arrow)) by (apply has_shape_check; reflexivity).
  assert (Hn : 0 < 2) by lia.
  assert (Hd : (is_directed true G_arrow).1 = Ok true) by (vm_compute; reflexivity).
  split; [exact Hs|]. split; [exact Hn|]. split; [reflexivity|]. split; [exact Hd|].
  exact (is_connected_reachable pop_first G_arrow 2 true true Hs Hn eq_refl Hd).
Defined.

(** ** The checks on the weights *)

(** [np.isinf]. *)
Definition is_inf (x : float) : bool :=
  match x with S754_infinity _ => true | _ => false end.

(** [W.diagonal()]: the entries [W[i, i]], as many as the smaller side. *)
Definition diagonal (w : matrix float) : list float :=
  omap (fun i => entry w i i) (seq 0 (min (shape w).1 (shape w).2)).

(** The dictionary that [check_weights] returns. *)
Record weights_report : Type := {
  has_inf_val : bool;
  has_nan_value : bool;
  is_not_square : bool;
  diag_is_not_zero : bool
}.

(** [Graph.check_weights]; it only reads [W] (and logs). *)
Definition check_weights (self : Graph) : weights_report :=
  {| has_inf_val := is_inf (ftotal (W self));
     has_nan_value := F64.is_nan (ftotal (W self));
     is_not_square := negb ((shape (W self)).1 =? (shape (W self)).2);
     diag_is_not_zero := F64.neqb (fsum (F64.abs <$> diagonal (W self))) F64.zero |}.

Lemma diagonal_square n (w : matrix float) :
  has_shape n n w -> diagonal w = (fun i => at_ w i i) <$> seq 0 n.
Proof.
  intros Hw. unfold diagonal.
  assert (min (shape w).1 (shape w).2 = n) as ->.
  { destruct n as [|n]; [destruct Hw as [Hl _]; by destruct w|].
    rewrite (shape_has_shape (S n) (S n) w Hw) by lia. simpl. lia. }
  assert (Hall : Forall (fun i => i < n) (seq 0 n)).
  { apply Forall_forall. intros i Hi%elem_of_seq. lia. }
  induction Hall as [|i l Hi _ IH]; [done|].
  cbn [omap list_omap fmap list_fmap].
  rewrite (entry_at n n w i i Hw Hi Hi). by rewrite <- IH.
Qed.

Lemma abs_nonneg x : F64.valid x = true -> nonneg_or_nan (F64.abs x).
Proof.
  intros Hx. destruct x as [s|s| |s m e]; simpl.
  - right. by left.
  - by right; right.
  - by left.
  - right. right. split; [done|]. by apply (valid_above s m e).
Qed.

Lemma abs_is_zero x : F64.is_zero (F64.abs x) = F64.is_zero x.
Proof. by destruct x. Qed.

Lemma foldl_add_nan (l : list float) : foldl F64.add S754_nan l = S754_nan.
Proof. induction l as [|x l IH]; [done|]. simpl. exact IH. Qed.

Lemma add_nan_r x : F64.add x S754_nan = S754_nan.
Proof. by destruct x. Qed.

(** A sum with a NaN term is NaN. *)
Lemma fsum_nan (l : list float) : S754_nan ∈ l -> fsum l = S754_nan.
Proof.
  unfold sum. generalize F64.zero. induction l as [|x l IH]; intros a Hin.
  - by apply elem_of_nil in Hin.
  - apply elem_of_cons in Hin as [<-|Hin]; simpl.
    + rewrite add_nan_r. apply foldl_add_nan.
    + by apply IH.
Qed.

(** X10. [check_weights] on a square matrix of doubles: [is_not_square] is
    [False]; [diag_is_not_zero] is [False] exactly when every diagonal
    weight is a zero, no rounding of the sum of absolute values hiding a
    diagonal weight; a NaN weight anywhere sets [has_nan_value] and clears
    [has_inf_val], whatever infinite weights there are besides; and the two
    flags are never set together. *)
Theorem check_weights_spec (self : Graph) (n : nat) :
  has_shape n n (W self) ->
  valid_matrix (W self) ->
  is_not_square (check_weights self) = false /\
  (diag_is_not_zero (check_weights self) = false <->
   forall i, i < n -> F64.is_zero (at_ (W self) i i) = true) /\
  ((exists i j, i < n /\ j < n /\ F64.is_nan (at_ (W self) i j) = true) ->
   has_nan_value (check_weights self) = true /\
   has_inf_val (check_weights self) = false) /\
  has_inf_val (check_weights self) && has_nan_value (check_weights self) = false.
Proof.
  intros Hw Hv. unfold check_weights. cbn [is_not_square diag_is_not_zero
    has_nan_value has_inf_val].
  split; [|split; [|split]].
  - by rewrite <- (shape_square n _ Hw), Nat.eqb_refl.
  - rewrite (diagonal_square n _ Hw), <- list_fmap_compose.
    set (l := (F64.abs ∘ (fun i => at_ (W self) i i)) <$> seq 0 n).
    assert (Hnn : Forall nonneg_or_nan l).
    { apply Forall_fmap, Forall_forall. intros i Hi%elem_of_seq. simpl.
      apply abs_nonneg, (valid_at n); try done; lia. }
    split.
    + intros Hz i Hi.
      destruct (F64.is_zero (at_ (W self) i i)) eqn:Hnz; [done|]. exfalso.
      assert (Hp : positive_or_nan (fsum l)).
      { apply fsum_nonneg; [done|]. apply Exists_exists.
        exists (F64.abs (at_ (W self) i i)). split.
        - apply list_elem_of_fmap. exists i. split; [done|]. apply elem_of_seq. lia.
        - apply nonneg_not_zero; [|by rewrite abs_is_zero].
          apply abs_nonneg, (valid_at n); done. }
      apply positive_neq_zero in Hp. congruence.
    + intros Hz. rewrite fsum_zeros; [done|].
      apply Forall_fmap, Forall_forall. intros i Hi%elem_of_seq. simpl.
      specialize (Hz i ltac:(lia)). by destruct (at_ (W self) i i).
  - intros (i & j & Hi & Hj & Hnan).
    assert (ftotal (W self) = S754_nan) as ->; [|done].
    pose proof (entry_at n n _ i j Hw Hi Hj) as He. unfold entry in He.
    destruct (W self !! i) as [row|] eqn:Hrow; [|done]. simpl in He.
    unfold total. apply fsum_nan. unfold row_sums.
    apply list_elem_of_fmap. exists row. split; [|by eapply list_elem_of_lookup_2].
    symmetry. apply fsum_nan.
    destruct (at_ (W self) i j) eqn:Hx; try done. by eapply list_elem_of_lookup_2.
  - by destruct (ftotal (W self)).
Qed.

Lemma check_weights_spec_on_edge :
  has_shape 2 2 (W G_edge) /\ valid_matrix (W G_edge) /\
  is_not_square (check_weights G_edge) = false /\
  (diag_is_not_zero (check_weights G_edge) = false <->
   forall i, i < 2 -> F64.is_zero (at_ (W G_edge) i i) = true) /\
  ((exists i j, i < 2 /\ j < 2 /\ F64.is_nan (at_ (W G_edge) i j) = true) ->
   has_nan_value (check_weights G_edge) = true /\
   has_inf_val (check_weights G_edge) = false) /\
  has_inf_val (check_weights G_edge) && has_nan_value (check_weights G_edge) = false.
Proof.
  assert (Hs : has_shape 2 2 (W G_edge)) by (apply has_shape_check; reflexivity).
  assert (Hv : valid_matrix (W G_edge)) by (repeat constructor).
  split; [exact Hs|]. split; [exact Hv|].
  exact (check_weights_spec G_edge 2 Hs Hv).
Defined.

(** ** Cached answers *)

(** X11. [is_directed] and [is_connected] store every answer they return:
    after a call that returns, with or without [recompute], the attribute
    holds the answer, and a further call without [recompute] returns it and
    leaves the graph as it is, without looking at the weights or at the
    adjacency matrix again, whichever elements [set.pop] would take. *)
Theorem answers_are_cached (choice : nat -> nat) :
  (forall self recompute b self',
     is_directed recompute self = (Ok b, self') ->
     _directed self' = Some b /\ W self' = W self /\
     is_directed false self' = (Ok b, self')) /\
  (forall self recompute r self',
     is_connected choice recompute self = (Ok r, self') ->
     _connected self' = Some r /\ A self' = A self /\
     forall choice', is_connected choice' false self' = (Ok r, self')).
Proof.
  split.
  - intros self recompute b self'. unfold is_directed.
    destruct (cached (_directed self) recompute) as [b0|] eqn:Hc.
    + intros [= -> ->]. destruct recompute; [done|]. simpl in Hc.
      by rewrite Hc.
    + destruct (negb _); [done|]. by intros [= <- <-].
  - intros self recompute r self'. unfold is_connected.
    destruct (cached (_connected self) recompute) as [r0|] eqn:Hc.
    + intros [= -> ->]. destruct recompute; [done|]. simpl in Hc.
      repeat split; try done. intros choice'. by rewrite Hc.
    + destruct (negb _).
      { intros [= <- <-]. repeat split; done. }
      unfold mbind, method_bind.
      pose proof (is_directed_fields recompute self) as (_ & HA & _).
      destruct (is_directed recompute self) as [[dir| |] s1]; try done.
      simpl in HA. unfold lift.
      destruct (connected_for _ _ _ _) as [r1| |]; try done.
      unfold modify. cbn [mret method_ret]. intros [= <- <-].
      repeat split; done.
Qed.

(** ** The Laplacian that is not computed *)

(** X12. What [compute_laplacian] leaves behind when it raises: an unknown
    type raises [ValueError] with the graph untouched; the normalized
    Laplacian of a directed graph raises [NotImplementedError] after
    [lap_type] has been overwritten, so that the graph then says
    [normalized] while [L] is still the Laplacian it had. *)
Theorem compute_laplacian_failure_state
    (np_power : float -> float -> float) (self : Graph) :
  (forall kind, kind ∉ ["combinatorial"; "normalized"] ->
     compute_laplacian np_power kind self = (Raise ValueError, self)) /\
  (directed self ->
     (compute_laplacian np_power "normalized" self).1 = Raise NotImplementedError /\
     lap_type (compute_laplacian np_power "normalized" self).2 = Some "normalized" /\
     L (compute_laplacian np_power "normalized" self).2 = L self /\
     W (compute_laplacian np_power "normalized" self).2 = W self).
Proof.
  split.
  - intros kind Hkind. unfold compute_laplacian. by rewrite bool_decide_false.
  - intros Hdir. unfold directed in Hdir.
    assert (Heq : compute_laplacian np_power "normalized" self
                  = (Raise NotImplementedError,
                     set_lap_type "normalized" (is_directed false self).2)).
    { unfold compute_laplacian. simpl.
      unfold mbind, method_bind, modify. simpl.
      rewrite is_directed_set_lap_type.
      destruct (is_directed false self) as [res self'].
      simpl in Hdir. by subst res. }
    rewrite Heq. cbn [fst snd set_lap_type lap_type L W].
    pose proof (is_directed_fields false self) as (_ & _ & _ & _ & HL).
    pose proof (is_directed_W false self) as HW. done.
Qed.

Lemma compute_laplacian_failure_state_on_arrow :
  (compute_laplacian power_unused "normalized" G_arrow).1 = Raise NotImplementedError /\
  lap_type (compute_laplacian power_unused "normalized" G_arrow).2 = Some "normalized" /\
  L (compute_laplacian power_unused "normalized" G_arrow).2 = L G_arrow /\
  W (compute_laplacian power_unused "normalized" G_arrow).2 = W G_arrow.
Proof.
  apply (proj2 (compute_laplacian_failure_state power_unused G_arrow)). reflexivity.
Defined.

(** ** One component *)

(** X13. On every undirected graph of two nodes or more, connected or not,
    [extract_components] returns exactly one subgraph: it holds all the
    nodes, [orig_idx] is [0, ..., N-1] and its weights are those of the
    graph.  Each pass seeds its stack with every unvisited node, so the
    first pass takes them all, whichever elements [set.pop] takes. *)
Theorem extract_components_whole_graph
    (choice : nat -> nat) (np_power : float -> float -> float)
    (self : Graph) (n : nat) :
  2 ≤ n ->
  has_shape n n (W self) ->
  A self = adjacency (W self) ->
  undirected self ->
  exists G1,
    (extract_components choice np_power self).1 = Ok (Some [G1]) /\
    info_orig_idx G1 = Some (seq 0 n) /\ N G1 = n /\ W G1 = W self.
Proof. apply extract_components_single. Qed.

Lemma extract_components_whole_graph_on_star :
  2 ≤ 4 /\ has_shape 4 4 (W G_star) /\ A G_star = adjacency (W G_star) /\
  undirected G_star /\
  exists G1,
    (extract_components pop_first power_unused G_star).1 = Ok (Some [G1]) /\
    info_orig_idx G1 = Some (seq 0 4) /\ N G1 = 4 /\ W G1 = W G_star.
Proof.
  assert (Hn : 2 ≤ 4) by lia.
  assert (Hs : has_shape 4 4 (W G_star)) by (apply has_shape_check; reflexivity).
  assert (HA : A G_star = adjacency (W G_star)) by reflexivity.
  assert (Hu : undirected G_star) by reflexivity.
  split; [exact Hn|]. split; [exact Hs|]. split; [exact HA|]. split; [exact Hu|].
  exact (extract_components_whole_graph pop_first power_unused G_star 4 Hn Hs HA Hu).
Defined.

(** ** The layout: shapes and fixed nodes *)

Lemma entry_transpose_cols {T : Type} rows cols (M : matrix T) i j :
  has_shape rows cols M -> j < cols ->
  entry (transpose_cols cols M) j i = entry M i j.
Proof.
  intros HM Hj. unfold entry at 1.
  rewrite (lookup_transpose_cols rows cols M j HM Hj). simpl.
  by apply (lookup_column rows cols).
Qed.

(** Column [i] of the displacement is zero: no force acts on node [i]. *)
Definition at_rest (displacement : matrix float) (i : nat) : Prop :=
  forall c x, entry displacement c i = Some x -> F64.is_zero x = true.

Lemma at_rest_times_zero displacement i :
  at_rest displacement i ->
  at_rest (map (map (fun x => F64.mul x F64.zero)) displacement) i.
Proof.
  intros Hrest c x. rewrite entry_map.
  destruct (entry displacement c i) as [y|] eqn:Hy; [|done].
  intros [= <-]. apply mul_zero_r_is_zero. by eapply Hrest.
Qed.

Lemma at_rest_replicate dim n i : at_rest (replicate dim (replicate n F64.zero)) i.
Proof.
  intros c x. unfold entry. intros Hx.
  destruct (replicate dim _ !! c) as [row|] eqn:Hrow; [|done].
  apply lookup_replicate in Hrow as [-> _]. simpl in Hx.
  by apply lookup_replicate in Hx as [-> _].
Qed.

Lemma length_node_force dim n Ai k (pos : matrix float) pos_i :
  has_shape n dim pos -> length pos_i = dim ->
  length (node_force dim n Ai k pos pos_i) = dim.
Proof.
  intros [Hl HF] Hi. unfold node_force. rewrite length_fmap.
  apply (has_shape_transpose_cols n dim). split; [by rewrite length_fmap|].
  apply Forall_fmap. eapply Forall_impl; [exact HF|].
  intros p Hp. simpl in *. rewrite length_zip_with. lia.
Qed.

(** The loop over the rows keeps the shape of the displacement and leaves
    the columns of the fixed nodes as they are. *)
Lemma fr_rows_spec dim n (adj : matrix bool) k fixed (pos : matrix float) :
  has_shape n dim pos -> length adj = n ->
  forall rows displacement,
    Forall (fun i => i < n) rows ->
    has_shape dim n displacement ->
    exists displacement',
      fr_rows dim n adj k fixed pos rows displacement = Ok displacement' /\
      has_shape dim n displacement' /\
      forall i, i ∈ fixed -> forall c, entry displacement' c i = entry displacement c i.
Proof.
  intros Hpos Hadj rows. induction rows as [|j rows IH];
    intros displacement Hrows Hdisp.
  - exists displacement. split; [reflexivity|]. split; [done|]. by intros.
  - apply Forall_cons in Hrows as [Hj Hrows]. cbn [fr_rows].
    destruct (bool_decide (j ∈ fixed)) eqn:Hfix; [by apply IH|].
    apply bool_decide_eq_false in Hfix.
    destruct (lookup_lt_is_Some_2 pos j) as [pos_j Hpj]; [destruct Hpos; lia|].
    destruct (lookup_lt_is_Some_2 adj j) as [Aj HAj]; [lia|].
    assert (getitem pos j = Ok pos_j) as -> by (unfold getitem; by rewrite Hpj).
    assert (getitem adj j = Ok Aj) as -> by (unfold getitem; by rewrite HAj).
    cbn [mbind result_bind].
    set (force := node_force dim n Aj k pos pos_j).
    assert (Hforce : length force = dim).
    { apply length_node_force; [done|]. by eapply has_shape_lookup. }
    set (displacement' := zip_with _ displacement force).
    assert (Hdisp' : has_shape dim n displacement').
    { destruct Hdisp as [Hl HF]. split; [unfold displacement'; rewrite length_zip_with; lia|].
      apply Forall_lookup. intros c row Hc.
      apply lookup_zip_with_Some in Hc as (row0 & f & -> & Hrow0 & _).
      rewrite length_alter. rewrite Forall_lookup in HF. by eapply HF. }
    destruct (IH displacement' Hrows Hdisp') as (d' & -> & Hd' & Hsame).
    exists d'. split; [done|]. split; [done|].
    intros i Hi c. rewrite (Hsame i Hi c). unfold entry, displacement'.
    rewrite lookup_zip_with.
    destruct (displacement !! c) as [row|] eqn:Hrow; [|done]. simpl.
    destruct (lookup_lt_is_Some_2 force c) as [f ->].
    { apply lookup_lt_Some in Hrow. destruct Hdisp. lia. }
    simpl. apply list_lookup_alter_ne. intros ->. done.
Qed.

Lemma has_shape_moved n dim (pos displacement : matrix float) t :
  has_shape n dim pos -> has_shape dim n displacement ->
  has_shape n dim (moved n pos displacement t).
Proof.
  intros Hpos Hdisp. unfold moved.
  apply has_shape_zip_with; [done|].
  apply (has_shape_transpose_cols dim n).
  pose proof (has_shape_transpose_cols dim n displacement Hdisp) as [Hlt _].
  destruct Hdisp as [Hl HF]. split; [by rewrite length_fmap|].
  apply Forall_fmap. eapply Forall_impl; [exact HF|]. intros row Hrow. simpl in *.
  rewrite length_zip_with, !length_fmap. lia.
Qed.

(** A node on which no force acts stays where it is, up to the sign of a
    zero, as long as the temperature is finite. *)
Lemma moved_row_at_rest n dim (pos displacement : matrix float) t i :
  has_shape n dim pos -> has_shape dim n displacement ->
  at_rest displacement i -> i < n -> F64.is_finite t = true ->
  forall c x, entry pos i c = Some x ->
    exists x', entry (moved n pos displacement t) i c = Some x' /\
               F64.same_number x' x.
Proof.
  intros Hpos Hdisp Hrest Hi Ht c x Hx.
  assert (Hc : c < dim).
  { unfold entry in Hx. destruct (pos !! i) as [row|] eqn:Hrow; [|done].
    simpl in Hx. apply lookup_lt_Some in Hx.
    by rewrite (has_shape_lookup _ _ _ _ _ Hpos Hrow) in Hx. }
  unfold moved.
  set (len := _ <$> (_ <$> transpose_cols n displacement)).
  set (scaled := _ <$> displacement).
  assert (Hlen : len !! i = Some F64.tenth).
  { unfold len. rewrite !list_lookup_fmap.
    rewrite (lookup_transpose_cols dim n displacement i Hdisp Hi). simpl.
    rewrite zero_below_hundredth; [done|].
    apply sqrt_zero, np_sum_zeros, Forall_fmap, Forall_lookup.
    intros r y Hy. simpl. apply square_zero.
    apply list_elem_of_lookup_2 in Hy. unfold column in Hy.
    apply list_elem_of_omap in Hy as (row & Hrow & Hy).
    apply list_elem_of_lookup in Hrow as [c' Hrow].
    apply (Hrest c' y). unfold entry. by rewrite Hrow. }
  assert (Hscaled : has_shape dim n scaled).
  { pose proof (has_shape_transpose_cols dim n displacement Hdisp) as [Hlt _].
    destruct Hdisp as [Hl HF]. split; [by unfold scaled; rewrite length_fmap|].
    apply Forall_fmap. eapply Forall_impl; [exact HF|]. intros row Hrow. simpl in *.
    unfold len. rewrite length_zip_with, !length_fmap. lia. }
  rewrite entry_zip_with, Hx. cbn [mbind option_bind].
  rewrite (entry_transpose_cols dim n scaled c i Hscaled Hi).
  destruct (entry_Some dim n displacement c i Hdisp Hc Hi) as [z Hz].
  assert (Hsc : entry scaled c i
                = Some (F64.div (F64.mul z t) F64.tenth)).
  { unfold entry in *. unfold scaled. rewrite list_lookup_fmap.
    destruct (displacement !! c) as [row|]; [|done]. simpl in *.
    by rewrite lookup_zip_with, Hz, Hlen. }
  rewrite Hsc. cbn [mbind option_bind]. eexists. split; [done|].
  apply add_zero_same, div_zero_tenth, mul_zero_finite; [|done].
  by apply (Hrest c z).
Qed.

(** The iterations keep the shape of the positions and leave the fixed
    nodes where they are. *)
Lemma fr_iterate_fixed dim n (adj : matrix bool) k fixed dt :
  length adj = n ->
  forall iterations (pos displacement : matrix float) t,
    has_shape n dim pos -> has_shape dim n displacement ->
    (forall i, i ∈ fixed -> at_rest displacement i) ->
    (forall j, j < iterations ->
       F64.is_finite (Nat.iter j (fun t => F64.sub t dt) t) = true) ->
    exists pos',
      fr_iterate iterations dim n adj k fixed dt pos displacement t = Ok pos' /\
      has_shape n dim pos' /\
      forall i, i ∈ fixed -> i < n ->
        forall c x, entry pos i c = Some x ->
          exists x', entry pos' i c = Some x' /\ F64.same_number x' x.
Proof.
  intros Hadj. induction iterations as [|iterations IH];
    intros pos displacement t Hpos Hdisp Hrest Ht.
  - exists pos. split; [done|]. split; [done|]. intros i _ _ c x Hx.
    exists x. split; [done|reflexivity].
  - rewrite fr_iterate_S.
    destruct (fr_rows_spec dim n adj k fixed pos Hpos Hadj (seq 0 n)
                (map (map (fun x => F64.mul x F64.zero)) displacement))
      as (d' & -> & Hd' & Hsame).
    { apply Forall_forall. intros i Hi%elem_of_seq. lia. }
    { by apply has_shape_map. }
    cbn [mbind result_bind].
    assert (Hrest' : forall i, i ∈ fixed -> at_rest d' i).
    { intros i Hi c x. rewrite (Hsame i Hi c).
      by apply at_rest_times_zero, Hrest. }
    destruct (IH (moved n pos d' t) d' (F64.sub t dt))
      as (pos' & -> & Hpos' & Hfixed); try done.
    + by apply has_shape_moved.
    + intros j Hj. specialize (Ht (S j)). rewrite Nat.iter_succ_r in Ht.
      apply Ht. lia.
    + exists pos'. split; [done|]. split; [done|].
      intros i Hi Hin c x Hx.
      destruct (moved_row_at_rest n dim pos d' t i Hpos Hd' (Hrest' i Hi) Hin
                  (Ht 0 ltac:(lia)) c x Hx) as (x1 & Hx1 & Hs1).
      destruct (Hfixed i Hi Hin c x1 Hx1) as (x' & Hx' & Hs').
      exists x'. split; [done|]. by etrans.
Qed.

Lemma has_shape_random_uniform rand rows cols :
  has_shape rows cols (random_uniform rand rows cols).
Proof.
  unfold random_uniform. split; [by rewrite length_fmap, length_seq|].
  apply Forall_fmap, Forall_forall. intros i _. simpl.
  by rewrite length_fmap, length_seq.
Qed.

(** [_sparse_fruchterman_reingold] on positions of the right shape. *)
Lemma sparse_layout_fixed rand (adj : matrix bool) dim k pos fixed iterations n :
  length adj = n -> 0 < n ->
  match pos with Some p => has_shape n dim p | None => True end ->
  (Z.of_nat iterations + 1 < 2 ^ 1023)%Z ->
  exists coords,
    _sparse_fruchterman_reingold rand adj dim k pos fixed iterations = Ok coords /\
    has_shape n dim coords /\
    forall i, i ∈ fixed -> i < n ->
      forall c x, entry (default (random_uniform rand n dim) pos) i c = Some x ->
        exists x', entry coords i c = Some x' /\ F64.same_number x' x.
Proof.
  intros Hadj Hn Hpos Hbound. unfold _sparse_fruchterman_reingold.
  rewrite shape_fst, Hadj.
  assert (exists k0,
    match k with
    | Some k => Ok k
    | None => if n =? 0 then Raise ZeroDivisionError
              else Ok (F64.sqrt (F64.div F64.one (F64.of_Z (Z.of_nat n))))
    end = Ok k0) as [k0 ->].
  { destruct k; [by eexists|]. destruct (n =? 0) eqn:H0; [|by eexists].
    apply Nat.eqb_eq in H0. lia. }
  cbn [mbind result_bind].
  assert (Hfin : F64.is_finite (F64.of_Z (Z.of_nat iterations + 1)) = true).
  { destruct (of_Z_positive (Z.of_nat iterations + 1)) as (m & e & -> & _); [lia|done]. }
  unfold py_float. rewrite Hfin. cbn [mbind result_bind].
  apply fr_iterate_fixed; try done.
  - destruct pos; [done|apply has_shape_random_uniform].
  - apply has_shape_replicate.
  - intros i _. apply at_rest_replicate.
  - intros j _. apply (within_finite 110). by apply cooling_within.
Qed.

Lemma center_axes_shape n :
  0 < n ->
  forall (columns : matrix float) lim,
    Forall (fun col => length col = n) columns ->
    exists columns' lim',
      center_axes columns lim = Ok (columns', lim') /\
      has_shape (length columns) n columns'.
Proof.
  intros Hn columns. induction columns as [|col columns IH]; intros lim Hcols.
  - exists [], lim. by repeat split.
  - apply Forall_cons in Hcols as [Hcol Hcols]. cbn [center_axes].
    set (col' := _ <$> col).
    assert (Hl' : length col' = n) by (unfold col'; by rewrite length_fmap).
    assert (exists m, np_max col' = Ok m) as [m ->].
    { destruct col' as [|x col']; [simpl in Hl'; lia|]. by eexists. }
    cbn [mbind result_bind].
    destruct (IH (max_limit m lim) Hcols) as (rest & lim' & -> & Hl & HF).
    cbn [mbind result_bind]. exists (col' :: rest), lim'. split; [done|].
    split; [simpl; by rewrite Hl|]. by constructor.
Qed.

(** [_rescale_layout] returns an array of the shape it was given, unless
    the limit is still the integer 0 it started from. *)
Lemma rescale_layout_shape n dim (pos : matrix float) scale :
  0 < n -> has_shape n dim pos ->
  _rescale_layout n dim pos scale = Raise ZeroDivisionError \/
  exists out, _rescale_layout n dim pos scale = Ok out /\ has_shape n dim out.
Proof.
  intros Hn Hpos. unfold _rescale_layout.
  pose proof (has_shape_transpose_cols n dim pos Hpos) as [Hlt HFt].
  destruct (center_axes_shape n Hn (transpose_cols dim pos) int_zero HFt)
    as (columns & lim & -> & Hcols).
  rewrite Hlt in Hcols. cbn [mbind result_bind].
  destruct columns as [|col columns].
  - right. eexists. split; [done|]. destruct Hcols as [Hl _]. simpl in Hl. subst dim.
    simpl. split; [by rewrite length_replicate|]. by apply Forall_replicate.
  - destruct lim as [|l]; [by left|]. right. eexists. split; [done|].
    apply (has_shape_transpose_cols dim n). by apply has_shape_map.
Qed.

Lemma initial_positions_shape rand n dim (p : matrix float) center :
  0 < n -> 0 < dim -> has_shape n dim p ->
  exists dom_size,
    initial_positions rand n dim (Some p) center = Ok (dom_size, Some p).
Proof.
  intros Hn Hdim Hp. unfold initial_positions.
  assert (exists m, np_max (concat p) = Ok m) as [m ->].
  { destruct Hp as [Hl HF]. destruct p as [|r p]; [simpl in Hl; lia|].
    apply Forall_cons in HF as [Hr _]. destruct r as [|x r]; [simpl in Hr; lia|].
    by eexists. }
  cbn [mbind result_bind].
  rewrite (assign_rows_all dim n p) by
    (done || by rewrite length_map, length_random_uniform).
  by eexists.
Qed.

(** X14. The spring layout returns an array of [N] rows and [dim] columns,
    or raises [ZeroDivisionError] in its final rescaling, and nothing else:
    this for every graph of at least one node, every [k], [fixed], [scale]
    and [center], initial positions of the right shape or none, every draw
    of the random generator and every number of iterations below
    [2^1023 - 1].  The error can only come when no node is fixed. *)
Theorem spring_layout_shape
    (rand : nat -> float) (self : Graph) (dim : nat) (k : option float)
    (pos : option (matrix float)) (fixed : list nat) (iterations : nat)
    (scale : float) (center : option (list float)) (n : nat) :
  N self = n -> length (A self) = n -> 0 < n -> 0 < dim ->
  match pos with Some p => has_shape n dim p | None => True end ->
  (Z.of_nat iterations + 1 < 2 ^ 1023)%Z ->
  (exists coords,
     _fruchterman_reingold_layout rand self dim k pos fixed iterations scale center
       = Ok coords /\
     has_shape n dim coords) \/
  (fixed = [] /\
   _fruchterman_reingold_layout rand self dim k pos fixed iterations scale center
     = Raise ZeroDivisionError).
Proof.
  intros HN HA Hn Hdim Hpos Hbound. unfold _fruchterman_reingold_layout. rewrite HN.
  assert (exists dom_size,
    initial_positions rand n dim pos (layout_center dim center) = Ok (dom_size, pos))
    as [dom_size ->].
  { destruct pos as [p|]; [by apply initial_positions_shape|by eexists]. }
  cbn [mbind result_bind].
  set (k0 := match k with None => _ | Some k1 => Some k1 end).
  destruct (sparse_layout_fixed rand (A self) dim k0 pos fixed iterations n
              HA Hn Hpos Hbound) as (coords & -> & Hshape & _).
  cbn [mbind result_bind]. destruct fixed as [|i fixed]; cbn [length Nat.eqb].
  - destruct (rescale_layout_shape n dim coords scale Hn Hshape)
      as [->|(out & -> & Hout)]; [by right|].
    left. cbn [mbind result_bind]. eexists. split; [done|].
    destruct Hout as [Hl HF]. split; [by rewrite length_map|].
    apply Forall_lookup. intros j r Hr.
    change (map ?f out) with (f <$> out) in Hr. rewrite list_lookup_fmap in Hr.
    destruct (out !! j) as [row|] eqn:Hrow; [|done]. injection Hr as <-.
    rewrite length_zip_with, length_layout_center.
    rewrite Forall_lookup in HF. rewrite (HF _ _ Hrow). lia.
  - left. by exists coords.
Qed.

Lemma spring_layout_shape_on_star :
  N G_star = 4 /\ length (A G_star) = 4 /\ 0 < 4 /\ 0 < 2 /\
  (Z.of_nat 50 + 1 < 2 ^ 1023)%Z /\
  ((exists coords,
      _fruchterman_reingold_layout (fun _ => F64.half) G_star 2 None None [] 50
        F64.one None = Ok coords /\
      has_shape 4 2 coords) \/
   ([] = @nil nat /\
    _fruchterman_reingold_layout (fun _ => F64.half) G_star 2 None None [] 50
      F64.one None = Raise ZeroDivisionError)).
Proof.
  assert (H1 : N G_star = 4) by reflexivity.
  assert (H2 : length (A G_star) = 4) by reflexivity.
  assert (H3 : 0 < 4) by lia.
  assert (H4 : 0 < 2) by lia.
  assert (H5 : (Z.of_nat 50 + 1 < 2 ^ 1023)%Z) by (by vm_compute).
  repeat (split; [assumption|]).
  exact (spring_layout_shape (fun _ => F64.half) G_star 2 None None [] 50 F64.one None 4
           H1 H2 H3 H4 I H5).
Defined.

(** X15. Fixed nodes do not move: with initial positions supplied and at
    least one node fixed, the spring layout succeeds and returns, for every
    fixed node, the coordinates it was given (a negative zero may come back
    as a positive zero), whatever the other nodes do and whatever their
    positions are, NaN and infinities included; this for every [k], [scale]
    and [center] and every number of iterations below [2^1023 - 1]. *)
Theorem spring_layout_fixed_nodes
    (rand : nat -> float) (self : Graph) (dim : nat) (k : option float)
    (pos : matrix float) (fixed : list nat) (iterations : nat)
    (scale : float) (center : option (list float)) (n : nat) :
  N self = n -> length (A self) = n -> 0 < n -> 0 < dim ->
  has_shape n dim pos ->
  fixed <> [] ->
  (Z.of_nat iterations + 1 < 2 ^ 1023)%Z ->
  exists coords,
    _fruchterman_reingold_layout rand self dim k (Some pos) fixed iterations scale center
      = Ok coords /\
    has_shape n dim coords /\
    forall i, i ∈ fixed -> i < n ->
      forall c x, entry pos i c = Some x ->
        exists x', entry coords i c = Some x' /\ F64.same_number x' x.
Proof.
  intros HN HA Hn Hdim Hpos Hfixed Hbound.
  unfold _fruchterman_reingold_layout. rewrite HN.
  destruct (initial_positions_shape rand n dim pos (layout_center dim center)
              Hn Hdim Hpos) as [dom_size ->].
  cbn [mbind result_bind].
  set (k0 := match k with None => _ | Some k1 => Some k1 end).
  destruct (sparse_layout_fixed rand (A self) dim k0 (Some pos) fixed iterations n
              HA Hn Hpos Hbound) as (coords & -> & Hshape & Hsame).
  cbn [mbind result_bind]. destruct fixed as [|i fixed]; [done|].
  cbn [length Nat.eqb]. exists coords. split; [done|]. split; [done|]. exact Hsame.
Qed.

Lemma spring_layout_fixed_nodes_on_star :
  N G_star = 4 /\ length (A G_star) = 4 /\ 0 < 4 /\ 0 < 2 /\
  has_shape 4 2 [[F64.zero; F64.one]; [F64.two; F64.one];
                 [F64.half; F64.zero]; [F64.one; F64.two]] /\
  [0; 2] <> [] /\
  (Z.of_nat 50 + 1 < 2 ^ 1023)%Z /\
  exists coords,
    _fruchterman_reingold_layout (fun _ => F64.half) G_star 2 None
      (Some [[F64.zero; F64.one]; [F64.two; F64.one];
             [F64.half; F64.zero]; [F64.one; F64.two]]) [0; 2] 50 F64.one None
      = Ok coords /\
    has_shape 4 2 coords /\
    forall i, i ∈ [0; 2] -> i < 4 ->
      forall c x,
        entry [[F64.zero; F64.one]; [F64.two; F64.one];
               [F64.half; F64.zero]; [F64.one; F64.two]] i c = Some x ->
        exists x', entry coords i c = Some x' /\ F64.same_number x' x.
Proof.
  assert (H1 : N G_star = 4) by reflexivity.
  assert (H2 : length (A G_star) = 4) by reflexivity.
  assert (H3 : 0 < 4) by lia.
  assert (H4 : 0 < 2) by lia.
  assert (H5 : has_shape 4 2 [[F64.zero; F64.one]; [F64.two; F64.one];
                              [F64.half; F64.zero]; [F64.one; F64.two]])
    by (apply has_shape_check; reflexivity).
  assert (H6 : [0; 2] <> @nil nat) by discriminate.
  assert (H7 : (Z.of_nat 50 + 1 < 2 ^ 1023)%Z) by (by vm_compute).
  repeat (split; [assumption|]).
  exact (spring_layout_fixed_nodes (fun _ => F64.half) G_star 2 None _ [0; 2] 50
           F64.one None 4 H1 H2 H3 H4 H5 H6 H7).
Defined.

(** ** Counting the edges *)

(** The positions of all the stored entries, row after row, for any
    numbering of the rows. *)
Definition stored_rows (c : nat -> nat) (w : matrix float) : list (nat * nat) :=
  concat (imap (fun i row =>
    pair (c i) <$> find_indices (fun x => F64.neqb x F64.zero) row 0) w).

Lemma stored_rows_cons c row w :
  stored_rows c (row :: w) =
  (pair (c 0) <$> find_indices (fun x => F64.neqb x F64.zero) row 0)
    ++ stored_rows (c ∘ S) w.
Proof. done. Qed.

Lemma elem_of_stored_rows c w a j :
  (a, j) ∈ stored_rows c w <->
  exists i row x, a = c i /\ w !! i = Some row /\
                  row !! j = Some x /\ F64.neqb x F64.zero = true.
Proof.
  revert c. induction w as [|r w IH]; intros c.
  - split; [by intros ?%elem_of_nil|]. by intros (i & row & x & _ & ? & _).
  - rewrite stored_rows_cons, elem_of_app, IH, list_elem_of_fmap. split.
    + intros [(k & [= -> ->] & Hk)|(i & row & x & -> & Hi & Hx & Hp)].
      * apply elem_of_find_indices in Hk as (_ & x & Hx & Hp).
        rewrite Nat.sub_0_r in Hx. by exists 0, r, x.
      * by exists (S i), row, x.
    + intros (i & row & x & -> & Hi & Hx & Hp). destruct i as [|i].
      * left. simplify_eq/=. exists j. split; [done|].
        apply elem_of_find_indices. split; [lia|]. exists x.
        by rewrite Nat.sub_0_r.
      * right. by exists i, row, x.
Qed.

Lemma NoDup_stored_rows c w : Inj eq eq c -> NoDup (stored_rows c w).
Proof.
  revert c. induction w as [|r w IH]; intros c Hc; [constructor|].
  rewrite stored_rows_cons. apply NoDup_app. repeat split.
  - apply (NoDup_fmap_2 _). apply NoDup_find_indices.
  - intros [a j] (k & [= -> ->] & _)%list_elem_of_fmap
                 (i & row & x & Heq & _)%elem_of_stored_rows.
    simpl in Heq. by apply Hc in Heq.
  - apply IH. intros x y Hxy. apply Hc in Hxy. by injection Hxy.
Qed.

Lemma length_stored_rows c w : length (stored_rows c w) = nnz w.
Proof.
  revert c. induction w as [|r w IH]; intros c; [done|].
  rewrite stored_rows_cons, length_app, length_fmap, (IH (c ∘ S)). done.
Qed.

Lemma length_filter_complement {T : Type} (P : T -> Prop) `{!forall x, Decision (P x)}
    (l : list T) :
  length l = length (filter P l) + length (filter (fun x => ~ P x) l).
Proof. by rewrite <- length_app, filter_app_complement. Qed.

Lemma neqb_zero_eqb x y :
  F64.eqb x y = true -> F64.neqb x F64.zero = F64.neqb y F64.zero.
Proof.
  destruct x as [sx|sx| |sx mx ex], y as [sy|sy| |sy my ey];
    try done; try (by destruct sx, sy); try (by destruct sx); by destruct sy.
Qed.

(** In a square matrix whose stored entries are placed symmetrically, the
    stored entries are twice those on or below the diagonal, less those on
    the diagonal. *)
Lemma stored_twice n (w : matrix float) :
  has_shape n n w ->
  (forall i j, i < n -> j < n ->
     F64.neqb (at_ w i j) F64.zero = F64.neqb (at_ w j i) F64.zero) ->
  nnz w + length (filter (fun i => F64.neqb (at_ w i i) F64.zero = true) (seq 0 n))
  = 2 * length (tril_nonzero w).
Proof.
  intros Hw Hsym.
  set (all := stored_rows id w).
  assert (Hall : forall i j, (i, j) ∈ all <->
            i < n /\ j < n /\ F64.neqb (at_ w i j) F64.zero = true).
  { intros i j. unfold all. rewrite elem_of_stored_rows. split.
    - intros (i' & row & x & -> & Hrow & Hx & Hp). unfold id.
      pose proof (has_shape_lookup _ _ _ _ _ Hw Hrow) as Hl.
      assert (i' < n) by (apply lookup_lt_Some in Hrow; destruct Hw; lia).
      assert (j < n) by (apply lookup_lt_Some in Hx; lia).
      repeat split; try done. unfold at_, entry. rewrite Hrow. simpl. by rewrite Hx.
    - intros (Hi & Hj & Hp).
      pose proof (entry_at n n w i j Hw Hi Hj) as He. unfold entry in He.
      destruct (w !! i) as [row|] eqn:Hrow; [|done]. simpl in He.
      by exists i, row, (at_ w i j). }
  assert (Hnd : NoDup all) by (apply NoDup_stored_rows; apply _).
  set (lower := fun p : nat * nat => p.2 ≤ p.1).
  set (strict := fun p : nat * nat => p.2 < p.1).
  set (diag := fun p : nat * nat => p.1 = p.2).
  assert (Htril : tril_nonzero w ≡ₚ filter lower all).
  { apply NoDup_Permutation.
    - rewrite tril_nonzero_rows. apply NoDup_tril_rows. apply _.
    - by apply NoDup_filter.
    - intros [i j]. rewrite list_elem_of_filter, Hall, tril_nonzero_rows,
        elem_of_tril_rows. unfold lower. simpl. split.
      + intros (i' & row & x & -> & Hrow & Hle & Hx & Hp). unfold id in *.
        pose proof (has_shape_lookup _ _ _ _ _ Hw Hrow) as Hl.
        assert (i' < n) by (apply lookup_lt_Some in Hrow; destruct Hw; lia).
        assert (j < n) by (apply lookup_lt_Some in Hx; lia).
        repeat split; try done. unfold at_, entry. rewrite Hrow. simpl. by rewrite Hx.
      + intros (Hle & Hi & Hj & Hp).
        pose proof (entry_at n n w i j Hw Hi Hj) as He. unfold entry in He.
        destruct (w !! i) as [row|] eqn:Hrow; [|done]. simpl in He.
        by exists i, row, (at_ w i j). }
  assert (Hupper : filter (fun p => ~ lower p) all ≡ₚ prod_swap <$> filter strict all).
  { apply NoDup_Permutation.
    - by apply NoDup_filter.
    - apply (NoDup_fmap_2 _). by apply NoDup_filter.
    - intros [i j]. rewrite list_elem_of_filter, Hall, list_elem_of_fmap.
      unfold lower, strict. simpl. split.
      + intros (Hlt & Hi & Hj & Hp). exists (j, i). split; [done|].
        apply list_elem_of_filter. simpl. split; [lia|].
        apply Hall. rewrite <- (Hsym i j) by done. done.
      + intros ([j' i'] & [= -> ->] & [Hlt Hin]%list_elem_of_filter).
        simpl in Hlt. apply Hall in Hin as (Hi & Hj & Hp).
        rewrite (Hsym j' i') in Hp by done. split; [lia|done]. }
  assert (Hdiag : filter (fun p => ~ strict p) (filter lower all)
                  ≡ₚ (fun i => (i, i)) <$>
                     filter (fun i => F64.neqb (at_ w i i) F64.zero = true) (seq 0 n)).
  { apply NoDup_Permutation.
    - by apply NoDup_filter, NoDup_filter.
    - apply NoDup_fmap_2; [by intros ?? [= ?]|]. apply NoDup_filter, NoDup_seq.
    - intros [i j]. rewrite !list_elem_of_filter, Hall, list_elem_of_fmap.
      unfold lower, strict. simpl. split.
      + intros (Hnlt & Hle & Hi & Hj & Hp). assert (i = j) as -> by lia.
        exists j. split; [done|]. apply list_elem_of_filter. split; [done|].
        apply elem_of_seq. lia.
      + intros (k & [= -> ->] & [Hp Hk%elem_of_seq]%list_elem_of_filter).
        repeat split; try done; lia. }
  assert (Hstrict : filter strict (filter lower all) = filter strict all).
  { apply list_filter_filter_l. intros [i j]. unfold strict, lower. simpl. lia. }
  rewrite <- (length_stored_rows id w). fold all.
  rewrite (length_filter_complement lower all), Hupper, length_fmap.
  rewrite Htril.
  rewrite (length_filter_complement strict (filter lower all)), Hstrict, Hdiag,
    length_fmap. lia.
Qed.

(** What [get_edge_list] returns on an undirected graph: the positions of
    [tril_nonzero], with their weights. *)
Lemma get_edge_list_run (self : Graph) (n : nat) :
  has_shape n n (W self) ->
  undirected self ->
  Ne self = nnz (W self) ->
  exists weights,
    (get_edge_list self).1
    = Ok ((tril_nonzero (W self)).*1, (tril_nonzero (W self)).*2, weights).
Proof.
  intros Hw Hund HNe. unfold undirected in Hund.
  set (edges := tril_nonzero (W self)).
  set (f := fun e : nat * nat => row ← getitem (W self) e.1; getitem row e.2).
  destruct (mapR_total f edges) as [weights Hweights].
  { apply Forall_forall. intros [i j] Hin. unfold edges in Hin.
    rewrite tril_nonzero_rows in Hin.
    apply elem_of_tril_rows in Hin as (i' & row & x & -> & Hrow & Hle & Hx & Hp).
    exists x. unfold f, getitem. simpl. rewrite Hrow. simpl. by rewrite Hx. }
  pose proof Hweights as HF2. apply mapR_Ok in HF2.
  pose proof (Forall2_length _ _ _ HF2) as Hlen.
  assert (Hlen_edges : length edges ≤ Ne self).
  { rewrite HNe. unfold edges. rewrite tril_nonzero_rows. apply length_tril_rows. }
  exists weights.
  unfold get_edge_list, mbind, method_bind.
  pose proof (is_directed_W false self) as HW.
  pose proof (is_directed_fields false self) as (_ & _ & HNe' & _).
  destruct (is_directed false self) as [res self'].
  simpl in *. subst res. unfold get. simpl. rewrite HW, HNe'.
  fold edges. unfold lift. change (mapR _ edges) with (mapR f edges).
  rewrite Hweights. simpl.
  rewrite !length_fmap, <- Hlen, !Nat.eqb_refl. simpl.
  apply Nat.leb_le in Hlen_edges. by rewrite Hlen_edges.
Qed.

(** X16. [Ne] counts every undirected edge twice.  On an undirected graph
    whose [Ne] is the number of stored weights, as the constructor sets it,
    [get_edge_list] returns [len(v_in)] edges with
    [Ne + loops = 2 * len(v_in)], where [loops] is the number of non-zero
    diagonal weights: an edge between two different nodes is counted twice
    in [Ne] and once in the edge list, a self-loop once in both. *)
Theorem edge_list_counts_half (self : Graph) (n : nat) :
  has_shape n n (W self) ->
  valid_matrix (W self) ->
  undirected self ->
  (is_directed true self).1 = Ok false ->
  Ne self = nnz (W self) ->
  exists v_in v_out weights,
    (get_edge_list self).1 = Ok (v_in, v_out, weights) /\
    Ne self
    + length (filter (fun i => F64.neqb (at_ (W self) i i) F64.zero = true) (seq 0 n))
    = 2 * length v_in.
Proof.
  intros Hw Hv Hund Hreal HNe.
  destruct (get_edge_list_run self n Hw Hund HNe) as [weights Hrun].
  eexists _, _, weights. split; [exact Hrun|].
  rewrite length_fmap, HNe. apply stored_twice; [done|].
  intros i j Hi Hj. apply neqb_zero_eqb.
  by apply (proj1 (symmetric_iff self n true Hw Hv eq_refl) Hreal).
Qed.

Lemma edge_list_counts_half_on_star :
  has_shape 4 4 (W G_star) /\ valid_matrix (W G_star) /\ undirected G_star /\
  (is_directed true G_star).1 = Ok false /\
  Ne G_star = nnz (W G_star) /\
  exists v_in v_out weights,
    (get_edge_list G_star).1 = Ok (v_in, v_out, weights) /\
    Ne G_star
    + length (filter (fun i => F64.neqb (at_ (W G_star) i i) F64.zero = true) (seq 0 4))
    = 2 * length v_in.
Proof.
  assert (Hs : has_shape 4 4 (W G_star)) by (apply has_shape_check; reflexivity).
  assert (Hv : valid_matrix (W G_star)) by (repeat constructor).
  assert (Hu : undirected G_star) by reflexivity.
  assert (Hr : (is_directed true G_star).1 = Ok false) by (vm_compute; reflexivity).
  assert (HN : Ne G_star = nnz (W G_star)) by reflexivity.
  repeat (split; [assumption|]).
  exact (edge_list_counts_half G_star 4 Hs Hv Hu Hr HN).
Defined.

(** ** The normalized Laplacian *)

Lemma entry_imap {T U : Type} (F : nat -> nat -> T -> U) (M : matrix T) i j :
  entry (imap (fun i row => imap (F i) row) M) i j = F i j <$> entry M i j.
Proof.
  unfold entry. rewrite list_lookup_imap.
  destruct (M !! i) as [row|]; [|done]. simpl. by rewrite list_lookup_imap.
Qed.

Lemma has_shape_imap {T U : Type} (F : nat -> nat -> T -> U) rows cols (M : matrix T) :
  has_shape rows cols M -> has_shape rows cols (imap (fun i row => imap (F i) row) M).
Proof.
  intros [Hl HF]. split; [by rewrite length_imap|].
  apply Forall_lookup. intros i r Hr.
  apply list_lookup_imap_Some in Hr as (row & Hrow & ->).
  rewrite length_imap. rewrite Forall_lookup in HF. by eapply HF.
Qed.

(** X17. The normalized Laplacian of an undirected graph, whatever
    [np.power] returns for the degrees (an isolated node has the degree
    [0 ** -0.5 = inf]): the call succeeds and, wherever the weight
    [W[i, j]] is zero, [L[i, j]] is exactly [1.0] on the diagonal and [0.0]
    off it.  In particular a graph without self-loops has a unit diagonal,
    an isolated node has the row of the identity, and no NaN comes from
    [inf * 0]. *)
Theorem normalized_laplacian_zero_weights
    (np_power : float -> float -> float) (self : Graph) (n : nat) :
  has_shape n n (W self) ->
  N self = n ->
  undirected self ->
  (compute_laplacian np_power "normalized" self).1 = Ok tt /\
  lap_type (compute_laplacian np_power "normalized" self).2 = Some "normalized" /\
  exists Lm,
    L (compute_laplacian np_power "normalized" self).2 = Some Lm /\
    has_shape n n Lm /\
    forall i j, i < n -> j < n ->
      F64.is_zero (at_ (W self) i j) = true ->
      at_ Lm i j = if decide (i = j) then F64.one else F64.zero.
Proof.
  intros Hw HN Hund. unfold undirected in Hund.
  pose proof (is_directed_W false self) as HW.
  pose proof (is_directed_fields false self) as (HN' & _).
  destruct (is_directed false self) as [res self'] eqn:Hd.
  simpl in Hund, HW, HN'. subst res.
  set (dd := (fun x => np_power x (F64.div (F64.of_Z (-1)) (F64.of_Z 2)))
               <$> frow_sums (W self)).
  set (F := fun (i j : nat) (x : float) =>
    let di := default F64.zero (dd !! i) in
    let dj := default F64.zero (dd !! j) in
    if F64.neqb di F64.zero && F64.neqb x F64.zero && F64.neqb dj F64.zero
    then F64.mul (F64.mul di x) dj else F64.zero).
  set (Lm := fmsub (fdiags (replicate n F64.one))
               (imap (fun i row => imap (F i) row) (W self))).
  assert (Heq : compute_laplacian np_power "normalized" self
                = (Ok tt, set_L Lm (set_lap_type "normalized" self'))).
  { unfold compute_laplacian. simpl.
    unfold mbind, method_bind, modify. simpl.
    rewrite is_directed_set_lap_type, Hd. unfold get. simpl.
    by rewrite HW, HN', HN. }
  rewrite Heq. split; [done|]. split; [done|]. exists Lm. split; [done|].
  assert (Hdiag : has_shape n n (fdiags (replicate n F64.one))).
  { pose proof (has_shape_diags F64.zero (replicate n F64.one)) as H.
    by rewrite length_replicate in H. }
  split.
  - apply has_shape_zip_with; [done|]. by apply has_shape_imap.
  - intros i j Hi Hj Hz. unfold at_ at 1, Lm, msub.
    rewrite entry_zip_with, entry_imap.
    rewrite (entry_diags F64.zero (replicate n F64.one) i j F64.one);
      [|by apply lookup_replicate_2|by rewrite length_replicate].
    rewrite (entry_at n n (W self) i j Hw Hi Hj).
    cbn [mbind option_bind fmap option_fmap option_map].
    assert (F i j (at_ (W self) i j) = F64.zero) as ->.
    { unfold F. destruct (at_ (W self) i j); try done.
      by rewrite andb_false_r. }
    by destruct (decide (i = j)).
Qed.

Lemma normalized_laplacian_zero_weights_on_edge :
  has_shape 2 2 (W G_edge) /\ N G_edge = 2 /\ undirected G_edge /\
  (compute_laplacian power_unused "normalized" G_edge).1 = Ok tt /\
  lap_type (compute_laplacian power_unused "normalized" G_edge).2 = Some "normalized" /\
  exists Lm,
    L (compute_laplacian power_unused "normalized" G_edge).2 = Some Lm /\
    has_shape 2 2 Lm /\
    forall i j, i < 2 -> j < 2 ->
      F64.is_zero (at_ (W G_edge) i j) = true ->
      at_ Lm i j = if decide (i = j) then F64.one else F64.zero.
Proof.
  assert (Hs : has_shape 2 2 (W G_edge)) by (apply has_shape_check; reflexivity).
  assert (HN : N G_edge = 2) by reflexivity.
  assert (Hu : undirected G_edge) by reflexivity.
  repeat (split; [assumption|]).
  exact (normalized_laplacian_zero_weights power_unused G_edge 2 Hs HN Hu).
Defined.

(** ** Subgraphs of undirected graphs *)

Lemma valid_select n (w : matrix float) (ind : list nat) (S : matrix float) :
  has_shape n n w -> valid_matrix w ->
  has_shape (length ind) (length ind) S ->
  (forall a b i j, ind !! a = Some i -> ind !! b = Some j ->
                   entry S a b = entry w i j) ->
  Forall (fun i => i < n) ind ->
  valid_matrix S /\
  forall a b i j, ind !! a = Some i -> ind !! b = Some j -> at_ S a b = at_ w i j.
Proof.
  intros Hw Hv HS Hent Hind.
  assert (Hat : forall a b i j, ind !! a = Some i -> ind !! b = Some j ->
                                at_ S a b = at_ w i j).
  { intros a b i j Ha Hb. unfold at_. by rewrite (Hent a b i j Ha Hb). }
  split; [|done].
  apply (Forall_entries (length ind)); [done|]. intros a b Ha Hb.
  destruct (lookup_lt_is_Some_2 ind a Ha) as [i Hi].
  destruct (lookup_lt_is_Some_2 ind b Hb) as [j Hj].
  rewrite (Hat a b i j Hi Hj). rewrite Forall_lookup in Hind.
  apply (valid_at n); eauto.
Qed.

(** X18. A subgraph of an undirected graph is undirected: when the weights
    of the graph are symmetric, [subgraph(ind)], for two or more nodes of
    the graph, returns a graph that the constructor has found and cached
    as undirected, and that [is_directed(recompute=True)] finds undirected
    again. *)
Theorem subgraph_of_undirected
    (choice : nat -> nat) (np_power : float -> float -> float)
    (self : Graph) (n : nat) (ind : list nat) :
  has_shape n n (W self) ->
  valid_matrix (W self) ->
  (is_directed true self).1 = Ok false ->
  2 ≤ length ind ->
  Forall (fun i => i < n) ind ->
  exists G,
    subgraph choice np_power ind self = Ok G /\
    _directed G = Some false /\
    (is_directed true G).1 = Ok false.
Proof.
  intros Hw Hv Hund Hlen Hind. unfold subgraph.
  destruct (select_spec n (W self) ind Hw Hind) as (S & -> & HS & Hent).
  cbn [mbind result_bind].
  destruct (init_result choice np_power S (length ind)
              ("sub-" +:+ gtype self) None true HS Hlen)
    as (G & -> & _ & HW & _ & _ & _ & _ & _ & _ & Hdir & _).
  destruct (valid_select n (W self) ind S Hw Hv HS Hent Hind) as [HvS Hat].
  pose proof (proj1 (symmetric_iff self n true Hw Hv eq_refl) Hund) as Hsym.
  assert (Hreal : (is_directed true G).1 = Ok false).
  { apply (symmetric_iff G (length ind) true); rewrite ?HW; try done.
    intros a b Ha Hb.
    destruct (lookup_lt_is_Some_2 ind a Ha) as [i Hi].
    destruct (lookup_lt_is_Some_2 ind b Hb) as [j Hj].
    rewrite (Hat a b i j Hi Hj), (Hat b a j i Hj Hi).
    rewrite Forall_lookup in Hind. apply Hsym; eauto. }
  exists G. split; [done|]. split; [|done].
  rewrite Hdir. f_equal.
  assert (Hcomp : (is_directed true G).1
                  = Ok (F64.neqb (ftotal (asymmetry (W G))) F64.zero)).
  { unfold is_directed. cbn [cached]. rewrite HW.
    by rewrite (shape_square _ _ HS), Nat.eqb_refl. }
  rewrite Hcomp, HW in Hreal. by injection Hreal.
Qed.

Lemma subgraph_of_undirected_on_star :
  has_shape 4 4 (W G_star) /\ valid_matrix (W G_star) /\
  (is_directed true G_star).1 = Ok false /\
  2 ≤ length [0; 3] /\ Forall (fun i => i < 4) [0; 3] /\
  exists G,
    subgraph pop_first power_unused [0; 3] G_star = Ok G /\
    _directed G = Some false /\
    (is_directed true G).1 = Ok false.
Proof.
  assert (Hs : has_shape 4 4 (W G_star)) by (apply has_shape_check; reflexivity).
  assert (Hv : valid_matrix (W G_star)) by (repeat constructor).
  assert (Hr : (is_directed true G_star).1 = Ok false) by (vm_compute; reflexivity).
  assert (Hl : 2 ≤ length [0; 3]) by (simpl; lia).
  assert (Hi : Forall (fun i => i < 4) [0; 3]) by (repeat constructor; lia).
  repeat (split; [assumption|]).
  exact (subgraph_of_undirected pop_first power_unused G_star 4 [0; 3] Hs Hv Hr Hl Hi).
Defined.

(** ** Initial positions of the wrong size *)

Lemma assign_rows_short dim m (pos : matrix float) :
  has_shape m dim pos ->
  forall cnt s arr, s <= m -> m < s + cnt ->
    assign_rows dim pos (seq s cnt) arr = Raise IndexError.
Proof.
  intros [Hlen HF]. induction cnt as [|cnt IH]; intros s arr Hs Hm; [lia|].
  simpl. unfold getitem. destruct (pos !! s) as [row|] eqn:Hrow.
  - cbn [mbind result_bind]. rewrite Forall_lookup in HF.
    rewrite (HF _ _ Hrow), Nat.eqb_refl.
    apply lookup_lt_Some in Hrow. apply IH; lia.
  - done.
Qed.

Lemma assign_rows_wrong_width dim m len (pos : matrix float) :
  has_shape m len pos -> len <> dim -> len <> 1 ->
  forall cnt s arr, 0 < cnt -> s < m ->
    assign_rows dim pos (seq s cnt) arr = Raise ValueError.
Proof.
  intros [Hlen HF] Hdim Hone cnt s arr Hcnt Hs.
  destruct cnt as [|cnt]; [lia|]. simpl. unfold getitem.
  destruct (lookup_lt_is_Some_2 pos s) as [row Hrow]; [lia|].
  rewrite Hrow. cbn [mbind result_bind].
  rewrite Forall_lookup in HF. specialize (HF _ _ Hrow).
  assert (Hw : (length row =? dim) = false) by (apply Nat.eqb_neq; lia).
  rewrite Hw. destruct row as [|x [|y row]]; [done| |done]. simpl in HF. lia.
Qed.

(** X19. The spring layout checks the initial positions it is given only
    by using them: an empty [pos] raises [ValueError] (the maximum of
    nothing); a [pos] with rows of the right width but fewer rows than
    nodes raises [IndexError]; and a [pos] with a row for every node but of
    a width that is neither [dim] nor 1 raises [ValueError]. This for every
    [k], [fixed], [iterations], [scale] and [center]. *)
Theorem spring_layout_malformed_positions
    (rand : nat -> float) (self : Graph) (dim : nat) (k : option float)
    (fixed : list nat) (iterations : nat) (scale : float)
    (center : option (list float)) :
  _fruchterman_reingold_layout rand self dim k (Some []) fixed iterations scale center
    = Raise ValueError /\
  (forall m pos,
     has_shape m dim pos -> 0 < dim -> 0 < m -> m < N self ->
     _fruchterman_reingold_layout rand self dim k (Some pos) fixed iterations scale center
       = Raise IndexError) /\
  (forall m len pos,
     has_shape m len pos -> len <> dim -> len <> 1 -> 0 < N self -> N self <= m ->
     _fruchterman_reingold_layout rand self dim k (Some pos) fixed iterations scale center
       = Raise ValueError).
Proof.
  split; [done|]. split.
  - intros m pos Hpos Hdim Hm HN.
    unfold _fruchterman_reingold_layout, initial_positions.
    assert (exists x, np_max (concat pos) = Ok x) as [x ->].
    { destruct Hpos as [Hl HF]. destruct pos as [|r pos]; [simpl in Hl; lia|].
      apply Forall_cons in HF as [Hr _]. destruct r as [|y r]; [simpl in Hr; lia|].
      by eexists. }
    cbn [mbind result_bind].
    by rewrite (assign_rows_short dim m pos Hpos) by lia.
  - intros m len pos Hpos Hdim Hone HN Hm.
    unfold _fruchterman_reingold_layout, initial_positions.
    destruct (np_max (concat pos)) as [x| |] eqn:Hmax.
    + cbn [mbind result_bind].
      by rewrite (assign_rows_wrong_width dim m len pos Hpos Hdim Hone) by lia.
    + destruct (concat pos); [|done]. simpl in Hmax. by injection Hmax as <-.
    + by destruct (concat pos).
Qed.

Lemma spring_layout_malformed_positions_on_star :
  has_shape 2 2 [[F64.zero; F64.one]; [F64.one; F64.zero]] /\
  has_shape 4 3 (replicate 4 [F64.zero; F64.one; F64.half]) /\
  _fruchterman_reingold_layout (fun _ => F64.half) G_star 2 None
    (Some [[F64.zero; F64.one]; [F64.one; F64.zero]]) [0] 50 F64.one None
    = Raise IndexError /\
  _fruchterman_reingold_layout (fun _ => F64.half) G_star 2 None
    (Some (replicate 4 [F64.zero; F64.one; F64.half])) [0] 50 F64.one None
    = Raise ValueError.
Proof.
  assert (H1 : has_shape 2 2 [[F64.zero; F64.one]; [F64.one; F64.zero]])
    by (apply has_shape_check; reflexivity).
  assert (H2 : has_shape 4 3 (replicate 4 [F64.zero; F64.one; F64.half]))
    by (apply has_shape_check; reflexivity).
  pose proof (spring_layout_malformed_positions (fun _ => F64.half) G_star 2 None
                [0] 50 F64.one None) as (_ & Hshort & Hwide).
  split; [exact H1|]. split; [exact H2|]. split.
  - apply (Hshort 2 _ H1); simpl; lia.
  - apply (Hwide 4 3 _ H2); simpl; lia.
Defined.
